(** * npmx.dev image proxy: signed, SSRF-hardened, size-bounded relay

    A shallow embedding of [server/utils/image-proxy.ts] and of the
    image-proxy event handler, together with the properties the
    specification states about them.

    Conventions.
    - A JavaScript string is a [string]: the sequence of its UTF-8 bytes
      (what [createHmac(...).update(s)] and [encodeURIComponent] see).
    - 32-bit words and byte counters are [N], wrap-around written out.
    - The platform pieces the source imports but does not define
      ([URL], [ipaddr.js]) are the fields of the class [Platform];
      [ref_platform] is a reference instance used to run scenarios.
    - Network I/O ([dns.lookup], [fetch]) is an oracle of type [World],
      consulted through the effect monad [M], which records every call. *)

From Stdlib Require Import String Ascii List NArith ZArith Bool Arith Lia.
From Stdlib Require Import DecimalString.
Import ListNotations.

Local Open Scope string_scope.

(* ================================================================== *)
(** ** Bytes and strings *)

Definition bytes := list N.

Definition bytes_of_string (s : string) : bytes :=
  map N_of_ascii (list_ascii_of_string s).

(** [s.startsWith(p)] *)
Definition startsWith (s p : string) : bool := String.prefix p s.

(** [s.endsWith(p)] *)
Definition endsWith (s p : string) : bool :=
  let ls := String.length s in
  let lp := String.length p in
  (lp <=? ls)%nat && String.eqb (String.substring (ls - lp) lp s) p.

(** [s.includes(p)] *)
Fixpoint includes (s p : string) : bool :=
  String.prefix p s ||
  match s with
  | EmptyString => false
  | String _ s' => includes s' p
  end.

Definition is_upper (c : ascii) : bool :=
  let n := N_of_ascii c in ((65 <=? n) && (n <=? 90))%N.

Definition lower_ascii (c : ascii) : ascii :=
  if is_upper c then ascii_of_N (N_of_ascii c + 32) else c.

(** [s.toLowerCase()] on the ASCII range. *)
Fixpoint toLowerCase (s : string) : string :=
  match s with
  | EmptyString => EmptyString
  | String c s' => String (lower_ascii c) (toLowerCase s')
  end.

(** JavaScript truthiness of a string: only the empty string is falsy. *)
Definition truthy (s : string) : bool :=
  match s with EmptyString => false | _ => true end.

(* ================================================================== *)
(** ** SHA-256 (FIPS 180-4), behind [createHmac('sha256', ...)] *)

Module Sha256.
Local Open Scope list_scope.
Local Open Scope N_scope.

Definition wmask : N := 0xFFFFFFFF.
Definition w32 (x : N) : N := N.land x wmask.
Definition add32 (x y : N) : N := w32 (x + y).
Definition rotr (n x : N) : N :=
  N.lor (N.shiftr x n) (w32 (N.shiftl x (32 - n))).
Definition not32 (x : N) : N := N.lxor x wmask.

Definition Ch (x y z : N) : N := N.lxor (N.land x y) (N.land (not32 x) z).
Definition Maj (x y z : N) : N :=
  N.lxor (N.lxor (N.land x y) (N.land x z)) (N.land y z).
Definition bsig0 (x : N) : N := N.lxor (N.lxor (rotr 2 x) (rotr 13 x)) (rotr 22 x).
Definition bsig1 (x : N) : N := N.lxor (N.lxor (rotr 6 x) (rotr 11 x)) (rotr 25 x).
Definition ssig0 (x : N) : N := N.lxor (N.lxor (rotr 7 x) (rotr 18 x)) (N.shiftr x 3).
Definition ssig1 (x : N) : N := N.lxor (N.lxor (rotr 17 x) (rotr 19 x)) (N.shiftr x 10).

(** The first sixty-four primes. *)
Definition primes : list N :=
  [ 2; 3; 5; 7; 11; 13; 17; 19; 23; 29; 31; 37; 41; 43; 47; 53; 59; 61; 67;
    71; 73; 79; 83; 89; 97; 101; 103; 107; 109; 113; 127; 131; 137; 139;
    149; 151; 157; 163; 167; 173; 179; 181; 191; 193; 197; 199; 211; 223;
    227; 229; 233; 239; 241; 251; 257; 263; 269; 271; 277; 281; 283; 293;
    307; 311 ].

(** The integer cube root, one bit at a time from bit [b] down. *)
Fixpoint cube_root (b : nat) (acc n : N) : N :=
  let try_bit r :=
    let r' := r + N.shiftl 1 (N.of_nat b) in
    if r' * r' * r' <=? n then r' else r in
  match b with
  | O => try_bit acc
  | S b' => cube_root b' (try_bit acc) n
  end.

(** The round constants: the first 32 bits of the fractional parts of
    the cube roots of the primes. *)
Definition K : list N :=
  Eval vm_compute in map (fun p => w32 (cube_root 40 0 (N.shiftl p 96))) primes.

(** The eight working variables / the running hash value. *)
Record hstate := HS { ha : N; hb : N; hc : N; hd : N; he : N; hf : N; hg : N; hh : N }.

(** The initial hash value: the first 32 bits of the fractional parts of
    the square roots of the first eight primes. *)
Definition frac_sqrt (p : N) : N := w32 (N.sqrt (N.shiftl p 64)).

Definition H0 : hstate :=
  Eval vm_compute in
    HS (frac_sqrt 2) (frac_sqrt 3) (frac_sqrt 5) (frac_sqrt 7)
       (frac_sqrt 11) (frac_sqrt 13) (frac_sqrt 17) (frac_sqrt 19).

(** Padding: a 1 bit, zeros up to 56 mod 64, the bit length on 8 bytes. *)
Definition be_bytes (n : nat) (x : N) : bytes :=
  map (fun i => N.land (N.shiftr x (8 * N.of_nat i)) 0xFF) (rev (seq 0 n)).

Definition pad (msg : bytes) : bytes :=
  let l := length msg in
  let z := ((64 - ((l + 9) mod 64)) mod 64)%nat in
  msg ++ [0x80] ++ repeat 0 z ++ be_bytes 8 (8 * N.of_nat l).

Fixpoint words_of (fuel : nat) (bs : bytes) : list N :=
  match fuel, bs with
  | S f, b0 :: b1 :: b2 :: b3 :: rest =>
      (N.lor (N.shiftl b0 24) (N.lor (N.shiftl b1 16) (N.lor (N.shiftl b2 8) b3)))
      :: words_of f rest
  | _, _ => []
  end.

(** The message schedule, most recent word first while it is built. *)
Fixpoint extend (n : nat) (rws : list N) : list N :=
  match n with
  | O => rws
  | S n' =>
      let wt := add32 (add32 (ssig1 (nth 1 rws 0)) (nth 6 rws 0))
                      (add32 (ssig0 (nth 14 rws 0)) (nth 15 rws 0)) in
      extend n' (wt :: rws)
  end.

Definition schedule (block : list N) : list N := rev (extend 48 (rev block)).

Definition round (s : hstate) (kw : N * N) : hstate :=
  let (k, wt) := kw in
  let t1 := add32 (add32 (add32 (hh s) (bsig1 (he s))) (Ch (he s) (hf s) (hg s)))
                  (add32 k wt) in
  let t2 := add32 (bsig0 (ha s)) (Maj (ha s) (hb s) (hc s)) in
  HS (add32 t1 t2) (ha s) (hb s) (hc s) (add32 (hd s) t1) (he s) (hf s) (hg s).

Definition compress (h : hstate) (block : list N) : hstate :=
  let s := fold_left round (combine K (schedule block)) h in
  HS (add32 (ha h) (ha s)) (add32 (hb h) (hb s)) (add32 (hc h) (hc s))
     (add32 (hd h) (hd s)) (add32 (he h) (he s)) (add32 (hf h) (hf s))
     (add32 (hg h) (hg s)) (add32 (hh h) (hh s)).

Fixpoint blocks (fuel : nat) (ws : list N) : list (list N) :=
  match fuel, ws with
  | S f, _ :: _ => firstn 16 ws :: blocks f (skipn 16 ws)
  | _, _ => []
  end.

Definition digest_bytes (h : hstate) : bytes :=
  be_bytes 4 (ha h) ++ be_bytes 4 (hb h) ++ be_bytes 4 (hc h) ++ be_bytes 4 (hd h) ++
  be_bytes 4 (he h) ++ be_bytes 4 (hf h) ++ be_bytes 4 (hg h) ++ be_bytes 4 (hh h).

Definition sha256 (msg : bytes) : bytes :=
  let p := pad msg in
  let ws := words_of (length p) p in
  digest_bytes (fold_left compress (blocks (length ws) ws) H0).

End Sha256.

(* ================================================================== *)
(** ** HMAC (RFC 2104) and hex encoding, as [node:crypto] provides them *)

Module Hmac.
Local Open Scope list_scope.
Local Open Scope N_scope.

Definition block_size : nat := 64.

(** A key longer than a block is hashed; the key is then zero-padded
    to the block size. *)
Definition block_key (key : bytes) : bytes :=
  let k := if (block_size <? length key)%nat then Sha256.sha256 key else key in
  k ++ repeat 0 (block_size - length k).

Definition xor_pad (p : N) (k : bytes) : bytes := map (N.lxor p) k.

Definition hmac_sha256 (key msg : bytes) : bytes :=
  let k := block_key key in
  Sha256.sha256 (xor_pad 0x5c k ++ Sha256.sha256 (xor_pad 0x36 k ++ msg)).

Definition hex_digit (n : N) : ascii :=
  if n <? 10 then ascii_of_N (48 + n) else ascii_of_N (87 + n).

Fixpoint hex (bs : bytes) : string :=
  match bs with
  | [] => EmptyString
  | b :: rest =>
      String (hex_digit (N.shiftr b 4)) (String (hex_digit (N.land b 0xF)) (hex rest))
  end.

End Hmac.

(* ================================================================== *)
(** ** Capability signer / verifier ([image-proxy.ts]) *)

(** [createHmac('sha256', secret).update(url).digest('hex')] *)
Definition signImageUrl (url secret : string) : string :=
  Hmac.hex (Hmac.hmac_sha256 (bytes_of_string secret) (bytes_of_string url)).

(** [if (!signature || !secret) return false], then the recomputed tag
    is compared by length and by value. *)
Definition verifyImageUrl (url signature secret : string) : bool :=
  if negb (truthy signature) || negb (truthy secret) then false
  else
    let expected := signImageUrl url secret in
    Nat.eqb (String.length expected) (String.length signature)
    && String.eqb expected signature.

(* ================================================================== *)
(** ** The platform: WHATWG [URL] and [ipaddr.js] *)

(** The three properties of a parsed [URL] object the source reads. *)
Record URL := mkURL { protocol : string; hostname : string; href : string }.

(** What the source imports and does not define.
    - [URL_parse s] is [URL.parse(s)], [None] for [null];
    - [URL_resolve rel base] is [new URL(rel, base)], [None] when the
      constructor throws its [TypeError];
    - [ipaddr_isValid s] is [ipaddr.isValid(s)];
    - [ipaddr_range s] is [ipaddr.process(s).range()], read only where
      [ipaddr_isValid s] holds. *)
Class Platform := {
  URL_parse : string -> option URL;
  URL_resolve : string -> string -> option URL;
  ipaddr_isValid : string -> bool;
  ipaddr_range : string -> string
}.

(** [ip.startsWith('[') && ip.endsWith(']') ? ip.slice(1, -1) : ip] *)
Definition unbracket (ip : string) : string :=
  if startsWith ip "[" && endsWith ip "]"
  then String.substring 1 (String.length ip - 2) ip
  else ip.

(** The trusted image domains that are never proxied. *)
Definition TRUSTED_IMAGE_DOMAINS : list string :=
  [ "npmx.dev";
    "raw.githubusercontent.com"; "github.com";
    "user-images.githubusercontent.com"; "avatars.githubusercontent.com";
    "repository-images.githubusercontent.com"; "github.githubassets.com";
    "objects.githubusercontent.com";
    "gitlab.com";
    "cdn.jsdelivr.net"; "unpkg.com";
    "img.shields.io"; "shields.io"; "badge.fury.io"; "badgen.net";
    "flat.badgen.net"; "codecov.io"; "coveralls.io"; "david-dm.org";
    "snyk.io"; "app.fossa.com"; "api.codeclimate.com"; "bundlephobia.com";
    "packagephobia.com" ].

Section Guard.
Context {P : Platform}.

(** [isTrustedImageDomain] *)
Definition isTrustedImageDomain (url : string) : bool :=
  match URL_parse url with
  | None => false
  | Some parsed =>
      if negb (truthy (hostname parsed)) then false
      else
        let hostname := toLowerCase (hostname parsed) in
        existsb (fun domain =>
                   String.eqb hostname domain || endsWith hostname ("." ++ domain))
                TRUSTED_IMAGE_DOMAINS
  end.

(** [isPrivateIP]: an invalid address text is reported as not private. *)
Definition isPrivateIP (ip : string) : bool :=
  let bare := unbracket ip in
  if negb (ipaddr_isValid bare) then false
  else negb (String.eqb (ipaddr_range bare) "unicast").

(** [isAllowedImageUrl] *)
Definition isAllowedImageUrl (url : string) : bool :=
  match URL_parse url with
  | None => false
  | Some parsed =>
      if negb (String.eqb (protocol parsed) "http:")
         && negb (String.eqb (protocol parsed) "https:")
      then false
      else
        let hostname := toLowerCase (hostname parsed) in
        if negb (truthy hostname) then false
        else if String.eqb hostname "localhost"
                || endsWith hostname ".local"
                || endsWith hostname ".internal"
        then false
        else if isPrivateIP hostname then false
        else true
  end.

End Guard.

(* ================================================================== *)
(** ** Responses, the network, and the effect monad *)

(** A [Buffer]: its length and its bytes by index. *)
Record Buffer := mkBuffer { byteLength : N; byteAt : N -> N }.

(** How the upstream byte stream finishes: ['end'] or ['error']. *)
Inductive Ending := EndOfBody | BodyError (message : string).

(** The body of a response as the upstream [Readable] will emit it. *)
Record Body := mkBody { chunks : list Buffer; ending : Ending }.

(** [Headers]: [get] matches names without regard to case and joins
    repeated fields. *)
Definition Headers := list (string * string).

Definition headers_get (h : Headers) (name : string) : option string :=
  match filter (fun kv => String.eqb (toLowerCase (fst kv)) name) h with
  | [] => None
  | kv :: rest => Some (String.concat ", " (snd kv :: map snd rest))
  end.

(** A [Response]; [body] is [None] for a [null] body. *)
Record Response := mkResponse { status : N; headers : Headers; body : option Body }.

(** [response.ok] *)
Definition ok (r : Response) : bool := ((200 <=? status r) && (status r <=? 299))%N.

(** One entry of the array [lookup(hostname, { all: true })] resolves to. *)
Record LookupAddress := mkAddr { address : string; family : N }.

(** What a run of the handler does, in order.  The checks of the
    signature ([verifyImageUrl]), of the URL policy ([isAllowedImageUrl])
    and of the resolved host ([resolveAndValidateHost]) are recorded with
    their verdicts when they return, so that their place relative to the
    network calls can be stated.  [DnsLookup] is a call of [lookup] by
    the validator.  [Fetch] is a request sent by [fetch], which resolves
    the host of its URL on its own, apart from [lookup]: that second
    resolution is part of the [Fetch] event and has no [DnsLookup]. *)
Inductive Event :=
| VerifySignature (url sig : string) (verdict : bool)
| CheckUrl (url : string) (verdict : bool)
| CheckHost (url : string) (verdict : bool)
| DnsLookup (hostname : string)
| Fetch (url : string)
| CancelBody
| SetResponseHeaders (h : Headers).

Definition Trace := list Event.

(** The network as the handler meets it.  Both oracles see the history
    of the run, so an answer may change from one call to the next (a DNS
    name that rebinds, a server that redirects once).  [None] is a
    rejected promise: a failed lookup, a connection error, a timeout. *)
Record World := mkWorld {
  dns_lookup : Trace -> string -> option (list LookupAddress);
  http_fetch : Trace -> string -> option Response
}.

(** Thrown values: an H3 error made by [createError], or anything else. *)
Inductive Exn :=
| H3Error (statusCode : N) (message : string)
| JsError (name : string).

Inductive Outcome (A : Type) :=
| Ret (a : A)
| Throw (e : Exn).
Arguments Ret {A} a.
Arguments Throw {A} e.

(** Computations that call the network, extend the trace, and may throw. *)
Definition M (A : Type) : Type := World -> Trace -> Outcome A * Trace.

Definition ret {A} (a : A) : M A := fun _ tr => (Ret a, tr).

Definition bind {A B} (m : M A) (k : A -> M B) : M B :=
  fun w tr =>
    match m w tr with
    | (Ret a, tr') => k a w tr'
    | (Throw e, tr') => (Throw e, tr')
    end.

Definition throw {A} (e : Exn) : M A := fun _ tr => (Throw e, tr).

(** [try { m } catch (e) { h e }] *)
Definition try_catch {A} (m : M A) (h : Exn -> M A) : M A :=
  fun w tr =>
    match m w tr with
    | (Ret a, tr') => (Ret a, tr')
    | (Throw e, tr') => h e w tr'
    end.

Definition emit (ev : Event) : M unit := fun _ tr => (Ret tt, tr ++ [ev])%list.

(** [await lookup(hostname, { all: true })] *)
Definition lookup (hostname : string) : M (list LookupAddress) :=
  fun w tr =>
    match dns_lookup w tr hostname with
    | Some results => (Ret results, tr ++ [DnsLookup hostname])%list
    | None => (Throw (JsError "Error"), tr ++ [DnsLookup hostname])%list
    end.

(** [await fetch(url, { redirect: 'manual', signal: ... })].  The event
    [Fetch url] stands for the whole request, with the name resolution
    that [fetch] performs itself; the answer of the server is asked of
    [http_fetch], which does not look at what [dns_lookup] said. *)
Definition fetch (url : string) : M Response :=
  fun w tr =>
    match http_fetch w tr url with
    | Some r => (Ret r, tr ++ [Fetch url])%list
    | None => (Throw (JsError "TypeError"), tr ++ [Fetch url])%list
    end.

Declare Scope monad_scope.
Delimit Scope monad_scope with monad.
Notation "x <- m ;; k" := (bind m (fun x => k))
  (at level 61, m at next level, right associativity) : monad_scope.
Notation "m ;; k" := (bind m (fun _ => k))
  (at level 61, right associativity) : monad_scope.
Local Open Scope monad_scope.

Section Validator.
Context {P : Platform}.

(** [resolveAndValidateHost] *)
Definition resolveAndValidateHost (url : string) : M bool :=
  match URL_parse url with
  | None => ret false
  | Some parsed =>
      if negb (truthy (hostname parsed)) then ret false
      else
        let hostname := toLowerCase (hostname parsed) in
        let bare := unbracket hostname in
        if ipaddr_isValid bare then ret (negb (isPrivateIP bare))
        else
          try_catch
            (results <- lookup hostname ;;
             if Nat.eqb (List.length results) 0 then ret false
             else ret (forallb (fun result => negb (isPrivateIP (address result))) results))
            (fun _ => ret false)
  end.

End Validator.

(* ================================================================== *)
(** ** Building proxied URLs ([toProxiedImageUrl]) *)

Definition is_unreserved (c : ascii) : bool :=
  let n := N_of_ascii c in
  (((65 <=? n) && (n <=? 90)) || ((97 <=? n) && (n <=? 122))
   || ((48 <=? n) && (n <=? 57)))%N
  || existsb (Ascii.eqb c) (list_ascii_of_string "-_.!~*'()").

Definition upper_hex_digit (n : N) : ascii :=
  if (n <? 10)%N then ascii_of_N (48 + n) else ascii_of_N (55 + n).

(** [encodeURIComponent], byte by byte over the UTF-8 form. *)
Fixpoint encodeURIComponent (s : string) : string :=
  match s with
  | EmptyString => EmptyString
  | String c s' =>
      if is_unreserved c then String c (encodeURIComponent s')
      else
        let n := N_of_ascii c in
        String "%" (String (upper_hex_digit (N.shiftr n 4))
                      (String (upper_hex_digit (N.land n 15))
                         (encodeURIComponent s')))
  end.

Section Proxied.
Context {P : Platform}.

(** [toProxiedImageUrl] *)
Definition toProxiedImageUrl (url secret : string) : string :=
  if negb (truthy url) || startsWith url "#" || startsWith url "data:" then url
  else
    let normalizedUrl := if startsWith url "//" then "https:" ++ url else url in
    match URL_parse normalizedUrl with
    | None => url
    | Some parsed =>
        if negb (String.eqb (protocol parsed) "http:")
           && negb (String.eqb (protocol parsed) "https:")
        then url
        else if isTrustedImageDomain normalizedUrl then normalizedUrl
        else
          let signature := signImageUrl normalizedUrl secret in
          "/api/registry/image-proxy?url=" ++ encodeURIComponent normalizedUrl
          ++ "&sig=" ++ signature
    end.

End Proxied.

(* ================================================================== *)
(** ** The image-proxy event handler *)

(** Maximum image size in bytes (10 MB). *)
Definition MAX_SIZE : N := 10 * 1024 * 1024.

(** Maximum number of redirects to follow manually. *)
Definition MAX_REDIRECTS : nat := 5.

(** HTTP status codes that indicate a redirect. *)
Definition REDIRECT_STATUSES : list N := [301; 302; 303; 307; 308]%N.

Definition is_redirect_status (s : N) : bool := existsb (N.eqb s) REDIRECT_STATUSES.

(** A double quote, and the decimal form of a number, for messages. *)
Definition dq : string := String (ascii_of_nat 34) EmptyString.

Definition decimal (n : N) : string := NilEmpty.string_of_uint (N.to_uint n).

(** [createError({ statusCode, message })] *)
Definition createError (statusCode : N) (message : string) : Exn :=
  H3Error statusCode message.

(** A query parameter as [getQuery] returns it. *)
Inductive QueryValue :=
| QAbsent
| QString (s : string)
| QArray (l : list string).

(** [Array.isArray(v) ? v[0] : v] *)
Definition first_value (v : QueryValue) : option string :=
  match v with
  | QAbsent => None
  | QString s => Some s
  | QArray l => hd_error l
  end.

Record Query := mkQuery { q_url : QueryValue; q_sig : QueryValue }.

Definition is_space (c : ascii) : bool :=
  let n := N_of_ascii c in ((n =? 32) || ((9 <=? n) && (n <=? 13)))%N.

Definition is_digit (c : ascii) : bool :=
  let n := N_of_ascii c in ((48 <=? n) && (n <=? 57))%N.

Fixpoint skip_spaces (s : string) : string :=
  match s with
  | String c s' => if is_space c then skip_spaces s' else s
  | EmptyString => s
  end.

(** The digits at the head of [s], as a number; [None] when there are none. *)
Fixpoint leading_digits (s : string) (acc : option Z) : option Z :=
  match s with
  | String c s' =>
      if is_digit c
      then leading_digits s'
             (Some (10 * match acc with Some a => a | None => 0 end
                    + Z.of_N (N_of_ascii c) - 48)%Z)
      else acc
  | EmptyString => acc
  end.

(** [Number.parseInt(s, 10)]; [None] is [NaN]. *)
Definition parseInt (s : string) : option Z :=
  match skip_spaces s with
  | String "-" s' => option_map Z.opp (leading_digits s' None)
  | String "+" s' => leading_digits s' None
  | s' => leading_digits s' None
  end.

(** [x > MAX_SIZE] on numbers; a comparison with [NaN] is false. *)
Definition exceeds_MAX_SIZE (x : option Z) : bool :=
  match x with
  | Some v => (Z.of_N MAX_SIZE <? v)%Z
  | None => false
  end.

(** One day in seconds; the constant is imported from the shared
    constants, which are not among the sources, and is taken at the
    value its name gives. *)
Definition CACHE_MAX_AGE_ONE_DAY : N := 60 * 60 * 24.

(** The headers the handler sets on its own response. *)
Definition response_headers (contentType : string) : Headers :=
  [ ("Content-Type", contentType);
    ("Cache-Control",
     "public, max-age=" ++ decimal CACHE_MAX_AGE_ONE_DAY
     ++ ", s-maxage=" ++ decimal CACHE_MAX_AGE_ONE_DAY);
    ("X-Content-Type-Options", "nosniff");
    ("Content-Security-Policy", "default-src 'none'; style-src 'unsafe-inline'") ].

(** What the handler returns: the promise of [sendStream(event, limited)],
    where [limited] is the size-limited relay over the upstream body.
    The promise is returned without [await], so the [try] of the handler
    is left before it settles; how it settles is [sendStream] and
    [handler_promise], after the relay. *)
Inductive HandlerResult := SendStream (upstream : Body).

Section Handler.
Context {P : Platform}.

(** [new URL(location, currentUrl).href] *)
Definition new_URL_href (location currentUrl : string) : M string :=
  match URL_resolve location currentUrl with
  | Some u => ret (href u)
  | None => throw (JsError "TypeError")
  end.

(** [await response.body?.cancel()] *)
Definition cancel_body (r : Response) : M unit :=
  match body r with
  | Some _ => emit CancelBody
  | None => ret tt
  end.

(** The loop [for (let i = 0; i <= MAX_REDIRECTS; i++)], with [n] the
    number of iterations left; it yields the last response fetched. *)
Fixpoint follow_redirects (n : nat) (currentUrl : string)
    (response : option Response) : M (option Response) :=
  match n with
  | O => ret response
  | S n' =>
      r <- fetch currentUrl ;;
      if negb (is_redirect_status (status r)) then ret (Some r)
      else
        match headers_get (headers r) "location" with
        | None => ret (Some r)
        | Some location =>
            if negb (truthy location) then ret (Some r)
            else
              redirectUrl <- new_URL_href location currentUrl ;;
              let allowed := isAllowedImageUrl redirectUrl in
              emit (CheckUrl redirectUrl allowed) ;;
              if negb allowed
              then throw (createError 400 "Redirect to disallowed URL.")
              else
                safe <- resolveAndValidateHost redirectUrl ;;
                emit (CheckHost redirectUrl safe) ;;
                if negb safe
                then throw (createError 400 "Redirect to disallowed URL.")
                else
                  cancel_body r ;;
                  follow_redirects n' redirectUrl (Some r)
        end
  end.

(** From the end of the loop to [sendStream]. *)
Definition deliver (response : option Response) : M HandlerResult :=
  match response with
  | None => throw (createError 502 "Failed to fetch image.")
  | Some r =>
      if is_redirect_status (status r)
      then cancel_body r ;; throw (createError 502 "Too many redirects.")
      else if negb (ok r)
      then cancel_body r ;;
           throw (createError (if (status r =? 404)%N then 404 else 502)
                              ("Failed to fetch image: " ++ decimal (status r)))
      else
        let contentType :=
          match headers_get (headers r) "content-type" with
          | Some ct => if truthy ct then ct else "application/octet-stream"
          | None => "application/octet-stream"
          end in
        if negb (startsWith contentType "image/") || includes contentType "svg"
        then cancel_body r ;;
             throw (createError 400 "URL does not point to an allowed image type.")
        else
          let contentLength := headers_get (headers r) "content-length" in
          if match contentLength with
             | Some cl => truthy cl && exceeds_MAX_SIZE (parseInt cl)
             | None => false
             end
          then cancel_body r ;; throw (createError 413 "Image too large.")
          else
            match body r with
            | None => throw (createError 502 "No response body from upstream.")
            | Some b =>
                emit (SetResponseHeaders (response_headers contentType)) ;;
                ret (SendStream b)
            end
  end.

(** The [try { ... } catch] around the fetch: H3 errors pass, anything
    else becomes a 502. *)
Definition proxy (url : string) : M HandlerResult :=
  try_catch
    (response <- follow_redirects (S MAX_REDIRECTS) url None ;;
     deliver response)
    (fun error =>
       match error with
       | H3Error _ _ => throw error
       | JsError _ => throw (createError 502 "Failed to proxy image.")
       end).

(** The event handler up to its [return]; [imageProxySecret] comes from
    the runtime configuration and is empty when unset.  A [Throw] here
    is an error thrown by the handler's own code; the errors of the
    stream it returns come after, in [handler_promise]. *)
Definition handler (query : Query) (imageProxySecret : string) : M HandlerResult :=
  match first_value (q_url query) with
  | None => throw (createError 400 ("Missing required " ++ dq ++ "url" ++ dq ++ " query parameter."))
  | Some url =>
    if negb (truthy url)
    then throw (createError 400 ("Missing required " ++ dq ++ "url" ++ dq ++ " query parameter."))
    else
    match first_value (q_sig query) with
    | None => throw (createError 400 ("Missing required " ++ dq ++ "sig" ++ dq ++ " query parameter."))
    | Some sig =>
      if negb (truthy sig)
      then throw (createError 400 ("Missing required " ++ dq ++ "sig" ++ dq ++ " query parameter."))
      else
        verified <-
          (if negb (truthy imageProxySecret) then ret false
           else
             let v := verifyImageUrl url sig imageProxySecret in
             emit (VerifySignature url sig v) ;; ret v) ;;
        if negb verified then throw (createError 403 "Invalid signature.")
        else
          let allowed := isAllowedImageUrl url in
          emit (CheckUrl url allowed) ;;
          if negb allowed
          then throw (createError 400 "Invalid or disallowed image URL.")
          else
            safe <- resolveAndValidateHost url ;;
            emit (CheckHost url safe) ;;
            if negb safe
            then throw (createError 400 "Invalid or disallowed image URL.")
            else proxy url
    end
  end.

End Handler.

(* ================================================================== *)
(** ** The bounded streaming relay

    [upstream] is [Readable.fromWeb(response.body)], switched to flowing
    mode by its ['data'] listener; [limited] is the [Readable] handed to
    [sendStream].  The relay state holds the closure variable
    [bytesRead] and the part of the two streams the listeners act on. *)

Inductive UpstreamState := Flowing | Paused | UpstreamEnded | UpstreamDestroyed.

Inductive LimitedState :=
| Open                          (* accepting [push] *)
| EndPushed                     (* [push(null)] was called *)
| Destroyed (error : string).   (* [destroy(new Error(error))] *)

Record Relay := mkRelay {
  bytesRead : N;
  pending : list Buffer;      (* chunks upstream has yet to emit *)
  pending_end : Ending;       (* how upstream finishes after them *)
  upstream : UpstreamState;
  buffered : list Buffer;     (* pushed into [limited], not yet consumed *)
  limited : LimitedState;
  delivered : list Buffer     (* consumed from [limited] by the caller *)
}.

Definition total_length (l : list Buffer) : N :=
  fold_right (fun c acc => (byteLength c + acc)%N) 0%N l.

(** Who moves next: the upstream emits its next event, or the consumer
    of [limited] takes a chunk and asks for more. *)
Inductive Action := UpstreamEmits | ConsumerReads.

Section RelayModel.

(** The [highWaterMark] of [limited] (a default of the stream library). *)
Variable highWaterMark : N.

(** [limited.push(chunk)]: a destroyed or ended stream drops the chunk. *)
Definition limited_push (chunk : Buffer) (r : Relay) : Relay * bool :=
  match limited r with
  | Open =>
      let b := (buffered r ++ [chunk])%list in
      (mkRelay (bytesRead r) (pending r) (pending_end r) (upstream r) b
               (limited r) (delivered r),
       (total_length b <? highWaterMark)%N)
  | _ => (r, false)
  end.

(** [limited.push(null)] *)
Definition limited_push_null (r : Relay) : Relay :=
  match limited r with
  | Open => mkRelay (bytesRead r) (pending r) (pending_end r) (upstream r)
                    (buffered r) EndPushed (delivered r)
  | _ => r
  end.

(** [limited.destroy(err)]: the first destruction wins, what was
    buffered is dropped. *)
Definition limited_destroy (err : string) (r : Relay) : Relay :=
  match limited r with
  | Destroyed _ => r
  | _ => mkRelay (bytesRead r) (pending r) (pending_end r) (upstream r)
                 [] (Destroyed err) (delivered r)
  end.

Definition set_upstream (u : UpstreamState) (r : Relay) : Relay :=
  mkRelay (bytesRead r) (pending r) (pending_end r) u
          (buffered r) (limited r) (delivered r).

(** [upstream.destroy()], [upstream.pause()], [upstream.resume()] *)
Definition upstream_destroy (r : Relay) : Relay := set_upstream UpstreamDestroyed r.

Definition upstream_pause (r : Relay) : Relay :=
  match upstream r with Flowing => set_upstream Paused r | _ => r end.

Definition upstream_resume (r : Relay) : Relay :=
  match upstream r with Paused => set_upstream Flowing r | _ => r end.

(** [upstream.on('data', chunk => ...)] *)
Definition on_data (chunk : Buffer) (r : Relay) : Relay :=
  let r1 := mkRelay (bytesRead r + byteLength chunk) (pending r) (pending_end r)
                    (upstream r) (buffered r) (limited r) (delivered r) in
  if (MAX_SIZE <? bytesRead r1)%N
  then limited_destroy "Image too large" (upstream_destroy r1)
  else
    let (r2, more) := limited_push chunk r1 in
    if negb more then upstream_pause r2 else r2.

(** [upstream.on('end', () => limited.push(null))] *)
Definition on_end (r : Relay) : Relay := limited_push_null r.

(** [upstream.on('error', err => limited.destroy(err))] *)
Definition on_error (err : string) (r : Relay) : Relay := limited_destroy err r.

(** [read() { upstream.resume() }] *)
Definition limited_read (r : Relay) : Relay := upstream_resume r.

Definition step (a : Action) (r : Relay) : Relay :=
  match a with
  | UpstreamEmits =>
      match upstream r with
      | Flowing =>
          match pending r with
          | chunk :: rest =>
              on_data chunk
                (mkRelay (bytesRead r) rest (pending_end r) (upstream r)
                         (buffered r) (limited r) (delivered r))
          | [] =>
              match pending_end r with
              | EndOfBody => on_end (set_upstream UpstreamEnded r)
              | BodyError err => on_error err (set_upstream UpstreamDestroyed r)
              end
          end
      | _ => r
      end
  | ConsumerReads =>
      match limited r with
      | Destroyed _ => r
      | _ =>
          limited_read
            match buffered r with
            | chunk :: rest =>
                mkRelay (bytesRead r) (pending r) (pending_end r) (upstream r)
                        rest (limited r) (delivered r ++ [chunk])%list
            | [] => r
            end
      end
  end.

(** The relay right after the listeners are attached. *)
Definition relay_start (b : Body) : Relay :=
  mkRelay 0 (chunks b) (ending b) Flowing [] Open [].

(** A read schedule interleaves the two parties in any order. *)
Definition relay_run (schedule : list Action) (r : Relay) : Relay :=
  fold_left (fun r a => step a r) schedule r.

End RelayModel.

(* ================================================================== *)
(** ** The promise the handler returns *)

Inductive Promise := Pending | Fulfilled | Rejected (reason : Exn).

(** [sendStream(event, limited)] pipes the relay into the response.  Its
    promise is fulfilled when the relay has ended and has been read to
    its end, and is rejected with the relay's error when the relay is
    destroyed.  That error is [new Error('Image too large')] or the
    error of the upstream: a plain error that carries no [statusCode]. *)
Definition sendStream (stream : Relay) : Promise :=
  match limited stream with
  | Destroyed _ => Rejected (JsError "Error")
  | EndPushed => match buffered stream with [] => Fulfilled | _ => Pending end
  | Open => Pending
  end.

Section Endpoint.
Context {P : Platform}.
Variable highWaterMark : N.

(** The promise of the event handler, when the upstream and the consumer
    of the relay act as [schedule] says.  An error thrown before the
    [return] rejects it.  After [return sendStream(event, limited)] it
    follows the promise of [sendStream]: the [catch] of the handler does
    not see a rejection of that promise, which was not awaited. *)
Definition handler_promise (schedule : list Action) (query : Query)
    (imageProxySecret : string) (w : World) (tr : Trace) : Promise * Trace :=
  match handler query imageProxySecret w tr with
  | (Throw e, tr') => (Rejected e, tr')
  | (Ret (SendStream b), tr') =>
      (sendStream (relay_run highWaterMark schedule (relay_start b)), tr')
  end.

End Endpoint.

(* ================================================================== *)
(** ** A reference platform

    An executable reading of the WHATWG URL parser and of [ipaddr.js],
    used to run the scenarios of the specification.  Its domain: URLs
    with an ASCII host and no white space; IPv4 hosts in dotted decimal
    (a host whose last label starts with a digit and is not of that form
    is refused rather than normalised); no dot-segment removal in paths;
    IPv4 address texts only in [isValid].  The general theorems below do
    not depend on it: they hold for every [Platform]. *)

Module Ref.

Fixpoint take_while (f : ascii -> bool) (s : string) : string :=
  match s with
  | String c s' => if f c then String c (take_while f s') else EmptyString
  | EmptyString => EmptyString
  end.

Fixpoint drop_while (f : ascii -> bool) (s : string) : string :=
  match s with
  | String c s' => if f c then drop_while f s' else s
  | EmptyString => EmptyString
  end.

Definition one_of (set : string) (c : ascii) : bool :=
  existsb (Ascii.eqb c) (list_ascii_of_string set).

Definition is_alpha (c : ascii) : bool :=
  let n := N_of_ascii c in
  (((65 <=? n) && (n <=? 90)) || ((97 <=? n) && (n <=? 122)))%N.

Definition is_scheme_char (c : ascii) : bool :=
  is_alpha c || is_digit c || one_of "+-." c.

(** [scheme ":" rest], the scheme lower-cased. *)
Definition split_scheme (s : string) : option (string * string) :=
  match s with
  | String c _ =>
      if is_alpha c then
        match drop_while is_scheme_char s with
        | String ":" rest => Some (toLowerCase (take_while is_scheme_char s), rest)
        | _ => None
        end
      else None
  | EmptyString => None
  end.

(** Split at the last occurrence of [d]. *)
Fixpoint rsplit (d : ascii) (s : string) : option (string * string) :=
  match s with
  | EmptyString => None
  | String c s' =>
      match rsplit d s' with
      | Some (a, b) => Some (String c a, b)
      | None => if Ascii.eqb c d then Some (EmptyString, s') else None
      end
  end.

Fixpoint split_on (d : ascii) (s : string) : list string :=
  match s with
  | EmptyString => [EmptyString]
  | String c s' =>
      match split_on d s' with
      | x :: rest => if Ascii.eqb c d then EmptyString :: x :: rest
                     else String c x :: rest
      | [] => [s]
      end
  end.

(** One decimal octet: 1 to 3 digits, no leading zero, at most 255. *)
Definition octet (s : string) : option N :=
  match s with
  | EmptyString => None
  | String c rest =>
      if forallb is_digit (list_ascii_of_string s)
         && (String.length s <=? 3)%nat
         && (negb (Ascii.eqb c "0") || String.eqb rest EmptyString)
      then
        match leading_digits s None with
        | Some v => if (v <=? 255)%Z then Some (Z.to_N v) else None
        | None => None
        end
      else None
  end.

Definition ipv4 (s : string) : option (N * N * N * N) :=
  match map octet (split_on "." s) with
  | [Some a; Some b; Some c; Some d] => Some (a, b, c, d)
  | _ => None
  end.

Definition special (scheme : string) : bool :=
  existsb (String.eqb scheme) ["http"; "https"; "ws"; "wss"; "ftp"].

Definition forbidden_host_char (c : ascii) : bool :=
  let n := N_of_ascii c in
  ((n <=? 32) || (127 <=? n))%N || one_of "#/:<>?@[\]^|%" c.

Definition default_port (scheme port : string) : bool :=
  (String.eqb scheme "http" && String.eqb port "80")
  || (String.eqb scheme "https" && String.eqb port "443")
  || (String.eqb scheme "ws" && String.eqb port "80")
  || (String.eqb scheme "wss" && String.eqb port "443")
  || (String.eqb scheme "ftp" && String.eqb port "21").

Record Parts := mkParts {
  scheme : string; userinfo : string; host : string; port : string;
  path : string; query : string; fragment : string
}.

(** A host is a bracketed IPv6 text kept as written, a dotted-decimal
    IPv4 address, or a domain of allowed characters. *)
Definition parse_host (h : string) : option string :=
  let h := toLowerCase h in
  if startsWith h "[" then
    if endsWith h "]" then Some h else None
  else if existsb forbidden_host_char (list_ascii_of_string h) then None
  else
    match rev (split_on "." h) with
    | last :: _ =>
        match last with
        | String c _ =>
            if is_digit c
            then match ipv4 h with Some _ => Some h | None => None end
            else Some h
        | EmptyString => if String.eqb h EmptyString then None else Some h
        end
    | [] => None
    end.

Definition split_hostport (hp : string) : string * string :=
  if startsWith hp "[" then
    let h := take_while (fun c => negb (Ascii.eqb c "]")) hp in
    match drop_while (fun c => negb (Ascii.eqb c "]")) hp with
    | String _ (String ":" p) => (h ++ "]", p)
    | String _ _ => (h ++ "]", EmptyString)
    | EmptyString => (hp, EmptyString)
    end
  else
    let h := take_while (fun c => negb (Ascii.eqb c ":")) hp in
    match drop_while (fun c => negb (Ascii.eqb c ":")) hp with
    | String _ p => (h, p)
    | EmptyString => (h, EmptyString)
    end.

Definition parse_parts (s : string) : option Parts :=
  match split_scheme s with
  | None => None
  | Some (sch, rest) =>
      let after_path r :=
        (take_while (fun c => negb (one_of "?#" c)) r,
         take_while (fun c => negb (Ascii.eqb c "#"))
                    (drop_while (fun c => negb (one_of "?#" c)) r),
         drop_while (fun c => negb (Ascii.eqb c "#")) r) in
      if special sch then
        let r1 := drop_while (one_of "/\") rest in
        let auth := take_while (fun c => negb (one_of "/\?#" c)) r1 in
        let r2 := drop_while (fun c => negb (one_of "/\?#" c)) r1 in
        let '(ui, hp) :=
          match rsplit "@" auth with
          | Some (u, hp) => (u ++ "@", hp)
          | None => (EmptyString, auth)
          end in
        let '(h, p) := split_hostport hp in
        match parse_host h with
        | None => None
        | Some h' =>
            let '(pa, q, f) := after_path r2 in
            Some (mkParts sch ui h'
                          (if default_port sch p then EmptyString else p)
                          (if String.eqb pa EmptyString then "/" else pa) q f)
        end
      else
        let '(pa, q, f) := after_path rest in
        Some (mkParts sch EmptyString EmptyString EmptyString pa q f)
  end.

Definition origin_of (p : Parts) : string :=
  if special (scheme p)
  then scheme p ++ "://" ++ userinfo p ++ host p
       ++ (if String.eqb (port p) EmptyString then EmptyString else ":" ++ port p)
  else scheme p ++ ":".

Definition href_of (p : Parts) : string :=
  origin_of p ++ path p ++ query p ++ fragment p.

Definition to_URL (p : Parts) : URL :=
  mkURL (scheme p ++ ":") (host p) (href_of p).

Definition parse (s : string) : option URL := option_map to_URL (parse_parts s).

(** The directory of a path: up to and including its last slash. *)
Definition dirname (pa : string) : string :=
  match rsplit "/" pa with
  | Some (d, _) => d ++ "/"
  | None => "/"
  end.

(** [new URL(rel, base)] *)
Definition resolve (rel base : string) : option URL :=
  match split_scheme rel with
  | Some _ => parse rel
  | None =>
      match parse_parts base with
      | None => None
      | Some b =>
          if startsWith rel "//" then parse (scheme b ++ ":" ++ rel)
          else if startsWith rel "/" then parse (origin_of b ++ rel)
          else if startsWith rel "?" then parse (origin_of b ++ path b ++ rel)
          else if startsWith rel "#"
          then parse (origin_of b ++ path b ++ query b ++ rel)
          else if String.eqb rel EmptyString
          then parse (origin_of b ++ path b ++ query b)
          else parse (origin_of b ++ dirname (path b) ++ rel)
      end
  end.

(** [ipaddr.isValid] on IPv4 texts. *)
Definition isValid (s : string) : bool :=
  match ipv4 s with Some _ => true | None => false end.

(** The special ranges of [ipaddr.IPv4], first match wins. *)
Definition range (s : string) : string :=
  match ipv4 s with
  | None => "invalid"
  | Some (a, b, c, d) =>
      (if a =? 0 then "unspecified"
       else if (a =? 255) && (b =? 255) && (c =? 255) && (d =? 255) then "broadcast"
       else if (224 <=? a) && (a <=? 239) then "multicast"
       else if (a =? 169) && (b =? 254) then "linkLocal"
       else if a =? 127 then "loopback"
       else if (a =? 100) && (64 <=? b) && (b <=? 127) then "carrierGradeNat"
       else if (a =? 10) || ((a =? 172) && (16 <=? b) && (b <=? 31))
               || ((a =? 192) && (b =? 168)) then "private"
       else if ((a =? 192) && (b =? 0) && ((c =? 0) || (c =? 2)))
               || ((a =? 192) && (b =? 88) && (c =? 99))
               || ((a =? 198) && ((b =? 18) || (b =? 19)))
               || ((a =? 198) && (b =? 51) && (c =? 100))
               || ((a =? 203) && (b =? 0) && (c =? 113))
               || (240 <=? a) then "reserved"
       else "unicast")%N
  end.

End Ref.

#[export] Instance ref_platform : Platform := {
  URL_parse := Ref.parse;
  URL_resolve := Ref.resolve;
  ipaddr_isValid := Ref.isValid;
  ipaddr_range := Ref.range
}.

(* ================================================================== *)
(** ** Vocabulary of the specification *)

(** The classification of one address text (data model, section 3). *)
Inductive HostClassification := Unicast | Private | Invalid.

Definition classify {P : Platform} (ip : string) : HostClassification :=
  let bare := unbracket ip in
  if ipaddr_isValid bare
  then if String.eqb (ipaddr_range bare) "unicast" then Unicast else Private
  else Invalid.

(** Events that reach the network. *)
Definition is_fetch (ev : Event) : bool :=
  match ev with Fetch _ => true | _ => false end.

Definition is_io (ev : Event) : bool :=
  match ev with Fetch _ | DnsLookup _ => true | _ => false end.

(** Events of the URL policy guard and of the host validator. *)
Definition is_guard (ev : Event) : bool :=
  match ev with CheckUrl _ _ | CheckHost _ _ => true | _ => false end.

(** The number of requests a run has issued. *)
Definition count_fetch (tr : Trace) : nat := List.length (filter is_fetch tr).

Section TraceVocabulary.
Context {P : Platform}.
Variable w : World.

(** [u] has passed the guard and, at some earlier moment [tr0] of the
    run, the validator; both verdicts are in the trace. *)
Definition validated (u : string) (tr : Trace) : Prop :=
  isAllowedImageUrl u = true
  /\ In (CheckUrl u true) tr
  /\ exists tr0 rest, tr = (tr0 ++ rest)%list
       /\ fst (resolveAndValidateHost u w tr0) = Ret true
       /\ In (CheckHost u true) rest.

(** Every request in the trace goes to a URL validated before it. *)
Definition fetches_validated (tr : Trace) : Prop :=
  forall pre u post, tr = (pre ++ Fetch u :: post)%list -> validated u pre.

End TraceVocabulary.

(** The rejection the signature gate owes a request, if any: the
    parameters must be present (400), then the tag must verify (403). *)
Definition gate_verdict (query : Query) (imageProxySecret : string) : option Exn :=
  match first_value (q_url query) with
  | None => Some (createError 400 ("Missing required " ++ dq ++ "url" ++ dq ++ " query parameter."))
  | Some url =>
      if negb (truthy url)
      then Some (createError 400 ("Missing required " ++ dq ++ "url" ++ dq ++ " query parameter."))
      else
        match first_value (q_sig query) with
        | None => Some (createError 400 ("Missing required " ++ dq ++ "sig" ++ dq ++ " query parameter."))
        | Some sig =>
            if negb (truthy sig)
            then Some (createError 400 ("Missing required " ++ dq ++ "sig" ++ dq ++ " query parameter."))
            else if verifyImageUrl url sig imageProxySecret then None
            else Some (createError 403 "Invalid signature.")
        end
  end.

(** An SVG-family media type; types and subtypes of media types are
    case-insensitive (RFC 2045, RFC 6838). *)
Definition is_svg_media_type (contentType : string) : bool :=
  includes (toLowerCase contentType) "svg".

(** An authorization error is a rejection with status 403. *)
Definition is_authorization_error (e : Exn) : bool :=
  match e with
  | H3Error c _ => (c =? 403)%N
  | JsError _ => false
  end.

(** The events of [await response.body?.cancel()]. *)
Definition cancel_events (r : Response) : Trace :=
  match body r with Some _ => [CancelBody] | None => [] end.

Section RedirectChains.
Context {P : Platform}.
Variable w : World.


End RedirectChains.


Section RelayInvariant.
Local Open Scope N_scope.

(** What holds of the relay at every moment of every run. *)
Record relay_inv (r : Relay) : Prop := mkInv {
  inv_cap : total_length (delivered r) + total_length (buffered r) <= MAX_SIZE;
  inv_read : total_length (delivered r) + total_length (buffered r) <= bytesRead r;
  inv_over : MAX_SIZE < bytesRead r ->
             upstream r = UpstreamDestroyed /\ limited r = Destroyed "Image too large";
  inv_dead : forall e, limited r = Destroyed e -> upstream r = UpstreamDestroyed
}.

End RelayInvariant.

(* ================================================================== *)
(** ** Worlds for the scenarios *)

(** A string of [n] NUL characters. *)
Fixpoint nuls (n : nat) : string :=
  match n with
  | O => EmptyString
  | S n' => String Ascii.zero (nuls n')
  end.

Definition example_url : string := "https://example.com/x.png".

(** No name resolves and no server answers. *)
Definition silent_world : World := mkWorld (fun _ _ => None) (fun _ _ => None).

(** A name whose answer mixes a public and a private address. *)
Definition mixed_world : World :=
  mkWorld (fun _ h => if String.eqb h "mixed.example"
                      then Some [mkAddr "93.184.216.34" 4; mkAddr "10.0.0.7" 4]
                      else None)
          (fun _ _ => None).

(** A body of one chunk, one byte over the limit. *)
Definition oversized_body : Body :=
  mkBody [mkBuffer (MAX_SIZE + 1) (fun _ => 0%N)] EndOfBody.

(** A server that answers the signed URL with a redirect to the
    loopback interface, where an admin page would answer. *)
Definition evil_url : string := "https://evil.example/a.png".

Definition evil_world : World :=
  mkWorld
    (fun _ h => if String.eqb h "evil.example"
                then Some [mkAddr "93.184.216.34" 4] else None)
    (fun _ u =>
       if String.eqb u evil_url
       then Some (mkResponse 302 [("location", "http://127.0.0.1/admin")] None)
       else if String.eqb u "http://127.0.0.1/admin"
       then Some (mkResponse 200 [("content-type", "image/png")]
                             (Some (mkBody [mkBuffer 5 (fun _ => 0%N)] EndOfBody)))
       else None).

(** A public server that answers every request with [r]. *)
Definition serving (r : Response) : World :=
  mkWorld (fun _ _ => Some [mkAddr "93.184.216.34" 4]) (fun _ _ => Some r).

Definition img_url : string := "https://img.example/logo".

Definition small_body : Body := mkBody [mkBuffer 5 (fun _ => 60%N)] EndOfBody.

(** A public server with a chain of seven redirects, from [/0] to [/7],
    where a small image is. *)
Definition chain_hop (k : N) : string := "https://chain.example/" ++ decimal k.

Fixpoint chain_answer (ks : list N) (u : string) : option Response :=
  match ks with
  | [] => None
  | k :: ks' =>
      if String.eqb u (chain_hop k)
      then Some (mkResponse 302 [("location", chain_hop (k + 1))] None)
      else chain_answer ks' u
  end.

Definition chain_world : World :=
  mkWorld
    (fun _ _ => Some [mkAddr "93.184.216.34" 4])
    (fun _ u =>
       if String.eqb u (chain_hop 7)
       then Some (mkResponse 200 [("content-type", "image/png")] (Some small_body))
       else chain_answer [0; 1; 2; 3; 4; 5; 6]%N u).

(** An SVG document announced in lower case, and in upper case. *)
Definition svg_response : Response :=
  mkResponse 200 [("content-type", "image/svg+xml")] (Some small_body).

Definition SVG_response : Response :=
  mkResponse 200 [("content-type", "image/SVG+xml")] (Some small_body).

(** An image that declares no length and is one byte over the limit. *)
Definition oversized_response : Response :=
  mkResponse 200 [("content-type", "image/png")] (Some oversized_body).

(** An image that declares a length one byte over the limit. *)
Definition declared_response : Response :=
  mkResponse 200 [("content-type", "image/png"); ("content-length", "10485761")]
             (Some small_body).

(** A request for [url] carrying the tag made with [secret]. *)
Definition signed_query (url secret : string) : Query :=
  mkQuery (QString url) (QString (signImageUrl url secret)).

(* ================================================================== *)
(** ** Further vocabulary *)

(** A lower-case hexadecimal digit, as [digest('hex')] writes them. *)
Definition is_lower_hex (c : ascii) : bool :=
  let n := N_of_ascii c in
  (((48 <=? n) && (n <=? 57)) || ((97 <=? n) && (n <=? 102)))%N.

(** A character [encodeURIComponent] may write: an unreserved one, the
    percent sign, or an upper-case hexadecimal digit. *)
Definition is_uri_component_char (c : ascii) : bool :=
  let n := N_of_ascii c in
  is_unreserved c || (n =? 37)%N.

(** The statuses the image-proxy handler answers an error with. *)
Definition proxy_error_statuses : list N := [400; 403; 404; 413; 502]%N.

(** The calls of [lookup] a run has made. *)
Definition is_lookup (ev : Event) : bool :=
  match ev with DnsLookup _ => true | _ => false end.

Definition count_lookup (tr : Trace) : nat := List.length (filter is_lookup tr).

(** The name resolutions a run can have caused: one for each call of
    [lookup], and one for each request, which [fetch] resolves itself. *)
Definition resolves (ev : Event) : bool :=
  match ev with DnsLookup _ | Fetch _ => true | _ => false end.

Definition count_resolutions (tr : Trace) : nat := List.length (filter resolves tr).

(** The consumer and the upstream taking turns, [n] times. *)
Fixpoint turns (n : nat) : list Action :=
  match n with
  | O => []
  | S n' => UpstreamEmits :: ConsumerReads :: turns n'
  end.

(** The content type the handler works with: the declared one, or the
    default when none is declared. *)
Definition declared_content_type (r : Response) : string :=
  match headers_get (headers r) "content-type" with
  | Some ct => if truthy ct then ct else "application/octet-stream"
  | None => "application/octet-stream"
  end.

(** How the relay stands to the body [b] it was started on: nothing is
    reordered or made up, and an end or an error is passed on only when
    the upstream has really ended that way. *)
Record relay_faithful (b : Body) (r : Relay) : Prop := mkFaithful {
  fa_end : pending_end r = ending b;
  fa_mid : exists mid,
      chunks b = (delivered r ++ mid ++ pending r)%list
      /\ bytesRead r = total_length (delivered r ++ mid)
      /\ ((forall e, limited r <> Destroyed e) -> mid = buffered r);
  fa_ended : limited r = EndPushed ->
             upstream r = UpstreamEnded /\ pending r = [] /\ ending b = EndOfBody;
  fa_error : forall e, limited r = Destroyed e ->
             (e = "Image too large" /\ (MAX_SIZE < bytesRead r)%N)
             \/ (ending b = BodyError e /\ pending r = [])
}.

(** ** Further scenarios *)

(** A small PNG, an upstream failure, and a redirect that names no
    place to go. *)
Definition png_response : Response :=
  mkResponse 200 [("content-type", "image/png")] (Some small_body).

Definition failing_response : Response := mkResponse 500 [] None.

Definition bare_redirect : Response := mkResponse 302 [] None.

Definition loopback_url : string := "http://127.0.0.1/admin".

(** Two chunks whose stream breaks off. *)
Definition broken_body : Body :=
  mkBody [mkBuffer 5 (fun _ => 60%N); mkBuffer 7 (fun _ => 62%N)]
         (BodyError "socket hang up").

(* ================================================================== *)
(** ** Identity and profile lookups ([IdentityUtils], [ProfileUtils])

    Both classes work on the cache adapter named ['generic'] and on the
    Slingshot service.  The cache is one store from keys to entries,
    shared by the two classes; the service and the pieces of
    [@atproto/lex] are the fields of the class [Services]. *)

(** The mini doc of an identity; the code reads [did] and [handle]. *)
Record MiniDoc := mkMiniDoc { did : string; handle : string; pds : string }.

(** [NPMXProfile] *)
Record NPMXProfile := mkProfile {
  recordExists : bool;
  displayName : string;
  description : option string;
  website : option string
}.

(** What the validation of a profile record yields, to be spread into
    the profile. *)
Record ProfileRecord := mkProfileRecord {
  rec_displayName : string;
  rec_description : option string;
  rec_website : option string
}.

(** The answer of [xrpcSafe] to [getRecordByUri]. *)
Inductive RecordResponse (V : Type) :=
| RecordSuccess (value : V)
| RecordFailure (error : string).
Arguments RecordSuccess {V} value.
Arguments RecordFailure {V} error.

(** Durations in seconds; the two units are imported constants that are
    not among the sources and are taken at the value their names give. *)
Definition CACHE_MAX_AGE_ONE_MINUTE : N := 60.
Definition CACHE_MAX_AGE_ONE_HOUR : N := 60 * 60.
Definition CACHE_MAX_AGE : N := CACHE_MAX_AGE_ONE_MINUTE * 5.
Definition CACHE_MAX_AGE_IDENTITY : N := CACHE_MAX_AGE_ONE_HOUR * 6.

(** Cache keys. *)
Definition CACHE_PREFIX : string := "atproto-profile:".
Definition CACHE_PROFILE_MINI_DOC (handle : string) : string :=
  CACHE_PREFIX ++ handle ++ ":minidoc".
Definition CACHE_PROFILE_KEY (did : string) : string :=
  CACHE_PREFIX ++ did ++ ":profile".
Definition CACHE_KEY_IDENTITY (identity : string) : string :=
  "identity:" ++ identity.

(** The cache holds mini docs and profiles under string keys, each with
    the time to live it was stored with.  There is no clock here: an
    entry stays until it is overwritten, so what is said of a hit
    concerns calls made before the entry expires. *)
Inductive CacheValue :=
| CachedMiniDoc (m : MiniDoc)
| CachedProfile (p : NPMXProfile).

Definition Cache := string -> option (CacheValue * N).

Definition empty_cache : Cache := fun _ => None.

Definition cache_store (c : Cache) (key : string) (v : CacheValue) (ttl : N) : Cache :=
  fun k => if String.eqb k key then Some (v, ttl) else c k.

(** What the two classes do to the world, in order. *)
Inductive SocialEvent :=
| CacheGet (key : string)
| CacheSet (key : string)
| QueryMiniDoc (identifier : string)
| QueryRecord (uri : string).

Record SocialState := mkSocial { cache : Cache; calls : list SocialEvent }.

(** Computations on the cache and the service that may throw. *)
Definition Task (A : Type) : Type := SocialState -> Outcome A * SocialState.

Definition task_ret {A} (a : A) : Task A := fun s => (Ret a, s).

Definition task_bind {A B} (m : Task A) (k : A -> Task B) : Task B :=
  fun s =>
    match m s with
    | (Ret a, s') => k a s'
    | (Throw e, s') => (Throw e, s')
    end.

Definition task_throw {A} (e : Exn) : Task A := fun s => (Throw e, s).

Declare Scope task_scope.
Delimit Scope task_scope with task.
Notation "x <- m ;; k" := (task_bind m (fun x => k))
  (at level 61, m at next level, right associativity) : task_scope.
Notation "m ;; k" := (task_bind m (fun _ => k))
  (at level 61, right associativity) : task_scope.

Definition log (ev : SocialEvent) (s : SocialState) : SocialState :=
  mkSocial (cache s) (calls s ++ [ev])%list.

(** [await this.cache.get<MiniDoc>(key)].  The type argument is not
    checked by the adapter; the key families of mini docs and of
    profiles are disjoint, and an entry of the other kind, which the
    code never stores under such a key, reads as absent here. *)
Definition cache_get_minidoc (key : string) : Task (option MiniDoc) :=
  fun s =>
    (Ret match cache s key with
         | Some (CachedMiniDoc m, _) => Some m
         | _ => None
         end, log (CacheGet key) s).

(** [await this.cache.get<NPMXProfile>(key)] *)
Definition cache_get_profile (key : string) : Task (option NPMXProfile) :=
  fun s =>
    (Ret match cache s key with
         | Some (CachedProfile p, _) => Some p
         | _ => None
         end, log (CacheGet key) s).

(** [await this.cache.set(key, value, ttl)] *)
Definition cache_set (key : string) (v : CacheValue) (ttl : N) : Task unit :=
  fun s => (Ret tt, mkSocial (cache_store (cache s) key v ttl)
                             (calls s ++ [CacheSet key])%list).

(** What the code imports and does not define: the two syntax tests of
    [@atproto/lex]; the two queries of the Slingshot service, each
    answering with a value or with the error of the failed query; the
    validation of a profile record, which gives the record's fields or
    throws; and [PackageLikesUtils.getUserLikes], of which only the call
    is among the sources. *)
Class Services := {
  RecordValue : Type;
  LikesResult : Type;
  isAtIdentifierString : string -> bool;
  isAtUriString : string -> bool;
  resolveMiniDoc : string -> MiniDoc + Exn;
  getRecordByUri : string -> RecordResponse RecordValue;
  validate_profile : RecordValue -> ProfileRecord + Exn;
  getUserLikes : MiniDoc -> Task LikesResult
}.

Section Social.
Context {Sv : Services}.
Local Open Scope task_scope.

(** [await this.slingShotClient.call(resolveMiniDoc, { identifier })]:
    a failed query throws. *)
Definition call_resolveMiniDoc (identifier : string) : Task MiniDoc :=
  fun s =>
    match resolveMiniDoc identifier with
    | inl m => (Ret m, log (QueryMiniDoc identifier) s)
    | inr e => (Throw e, log (QueryMiniDoc identifier) s)
    end.

(** [await this.slingshotClient.xrpcSafe(resolveMiniDoc, ...)]: a failed
    query is an answer without [success]. *)
Definition xrpcSafe_resolveMiniDoc (handle : string) : Task (option MiniDoc) :=
  fun s =>
    (Ret match resolveMiniDoc handle with inl m => Some m | inr _ => None end,
     log (QueryMiniDoc handle) s).

(** [await this.slingshotClient.xrpcSafe(getRecordByUri, ...)] *)
Definition xrpcSafe_getRecordByUri (uri : string) : Task (RecordResponse RecordValue) :=
  fun s => (Ret (getRecordByUri uri), log (QueryRecord uri) s).

(** [IdentityUtils.getMiniDoc] *)
Definition getMiniDoc (identifier : string) : Task MiniDoc :=
  if negb (isAtIdentifierString identifier)
  then task_throw (createError 400 "Invalid AT Protocol identifier")
  else
    let cacheKey := CACHE_KEY_IDENTITY identifier in
    cached <- cache_get_minidoc cacheKey ;;
    match cached with
    | Some m => task_ret m
    | None =>
        result <- call_resolveMiniDoc identifier ;;
        cache_set cacheKey (CachedMiniDoc result) CACHE_MAX_AGE_IDENTITY ;;
        task_ret result
    end.

(** [ProfileUtils.slingshotMiniDoc] *)
Definition slingshotMiniDoc (handle : string) : Task MiniDoc :=
  let miniDocKey := CACHE_PROFILE_MINI_DOC handle in
  cachedMiniDoc <- cache_get_minidoc miniDocKey ;;
  match cachedMiniDoc with
  | Some m => task_ret m
  | None =>
      if negb (isAtIdentifierString handle)
      then task_throw (createError 400 ("Invalid at-identifier: " ++ handle))
      else
        response <- xrpcSafe_resolveMiniDoc handle ;;
        match response with
        | None =>
            task_throw (createError 404 ("Failed to resolve MiniDoc for " ++ handle))
        | Some miniDoc =>
            cache_set miniDocKey (CachedMiniDoc miniDoc) CACHE_MAX_AGE ;;
            task_ret miniDoc
        end
  end.

(** The profile of an identity without a profile record. *)
Definition missing_profile (miniDoc : MiniDoc) : NPMXProfile :=
  mkProfile false (handle miniDoc) (Some "") (Some "").

(** [ProfileUtils.getProfile]; [None] stands for [undefined]. *)
Definition getProfile (handle : string) : Task (option NPMXProfile) :=
  miniDoc <- slingshotMiniDoc handle ;;
  let profileKey := CACHE_PROFILE_KEY (did miniDoc) in
  cachedProfile <- cache_get_profile profileKey ;;
  match cachedProfile with
  | Some p => task_ret (Some p)
  | None =>
      let profileUri := "at://" ++ did miniDoc ++ "/dev.npmx.actor.profile/self" in
      if negb (isAtUriString profileUri)
      then task_throw (JsError "Error")
      else
        response <- xrpcSafe_getRecordByUri profileUri ;;
        match response with
        | RecordSuccess value =>
            match validate_profile value with
            | inr e => task_throw e
            | inl validationResult =>
                let profile :=
                  mkProfile true (rec_displayName validationResult)
                            (rec_description validationResult)
                            (rec_website validationResult) in
                cache_set profileKey (CachedProfile profile) CACHE_MAX_AGE ;;
                task_ret (Some profile)
            end
        | RecordFailure error =>
            if String.eqb error "RecordNotFound"
            then task_ret (Some (missing_profile miniDoc))
            else task_throw (JsError "Error")
        end
  end.

(** [ProfileUtils.updateProfileCache] *)
Definition updateProfileCache (handle : string) (profile : NPMXProfile)
  : Task (option NPMXProfile) :=
  miniDoc <- slingshotMiniDoc handle ;;
  let profileKey := CACHE_PROFILE_KEY (did miniDoc) in
  cache_set profileKey (CachedProfile profile) CACHE_MAX_AGE ;;
  task_ret (Some profile).

(** The handler of [GET /api/social/profile/:identifier/likes];
    [identifier] is the router parameter, [None] when there is none. *)
Definition likes_handler (identifier : option string) : Task LikesResult :=
  match identifier with
  | None => task_throw (createError 400 "identifier not provided")
  | Some identifier =>
      if negb (truthy identifier)
      then task_throw (createError 400 "identifier not provided")
      else
        minidoc <- getMiniDoc identifier ;;
        getUserLikes minidoc
  end.

End Social.

(** The kind of entry each key family holds. *)
Definition is_profile_key (k : string) : bool :=
  startsWith k CACHE_PREFIX && endsWith k ":profile".

Definition cache_typed (c : Cache) : Prop :=
  forall k v ttl, c k = Some (v, ttl) ->
    match v with
    | CachedProfile _ => is_profile_key k = true
    | CachedMiniDoc _ => is_profile_key k = false
    end.


(** A typed read misses only on an absent key. *)
Definition read_minidoc (c : Cache) (k : string) : option MiniDoc :=
  match c k with Some (CachedMiniDoc m, _) => Some m | _ => None end.

Definition read_profile (c : Cache) (k : string) : option NPMXProfile :=
  match c k with Some (CachedProfile p, _) => Some p | _ => None end.

(** A toy service for the examples. *)
Definition alice : MiniDoc := mkMiniDoc "did:plc:alice" "alice.test" "https://pds.test".
Definition bob : MiniDoc := mkMiniDoc "did:plc:bob" "bob.test" "https://pds.test".

Definition toy_services : Services := {|
  RecordValue := ProfileRecord;
  LikesResult := list string;
  isAtIdentifierString := fun s => includes s ".";
  isAtUriString := fun s => startsWith s "at://";
  resolveMiniDoc := fun s =>
    if String.eqb s "alice.test" then inl alice
    else if String.eqb s "bob.test" then inl bob
    else inr (JsError "XrpcError");
  getRecordByUri := fun uri =>
    if String.eqb uri "at://did:plc:alice/dev.npmx.actor.profile/self"
    then RecordSuccess (mkProfileRecord "Alice" None (Some "https://alice.test"))
    else RecordFailure "RecordNotFound";
  validate_profile := fun v => inl v;
  getUserLikes := fun m s => (Ret [did m], s)
|}.

Definition fresh : SocialState := mkSocial empty_cache [].

(* ================================================================== *)
(** * Properties *)

(** ** Known answers for the hash and the MAC *)

(** FIPS 180-4, the one-block message ["abc"]. *)
Example sha256_abc :
  Hmac.hex (Sha256.sha256 (bytes_of_string "abc"))
  = "ba7816bf8f01cfea414140de5dae2223b00361a396177a9cb410ff61f20015ad".
Proof. vm_compute. reflexivity. Qed.

(** RFC 4231, test case 2. *)
Example hmac_rfc4231_case2 :
  signImageUrl "what do ya want for nothing?" "Jefe"
  = "5bdcc146bf60754e6a042426089575c75a003f089d2739839dec58b964ec3843".
Proof. vm_compute. reflexivity. Qed.

(* ================================================================== *)
(** ** Signer and verifier *)

Lemma truthy_true_iff (s : string) : truthy s = true <-> s <> EmptyString.
Proof. destruct s; simpl; split; intros; congruence. Qed.

Lemma truthy_false_iff (s : string) : truthy s = false <-> s = EmptyString.
Proof. destruct s; simpl; split; intros; congruence. Qed.

(** A digest is 32 bytes, whatever was hashed. *)
Lemma sha256_length (msg : bytes) : List.length (Sha256.sha256 msg) = 32%nat.
Proof.
  unfold Sha256.sha256, Sha256.digest_bytes.
  repeat rewrite length_app. unfold Sha256.be_bytes.
  repeat rewrite length_map. reflexivity.
Qed.

Lemma hex_length (bs : bytes) : String.length (Hmac.hex bs) = (2 * List.length bs)%nat.
Proof. induction bs as [|b bs IH]; simpl; [reflexivity | rewrite IH; lia]. Qed.

(** A tag is always 64 characters long, hence never the empty string. *)
Lemma signImageUrl_length (url secret : string) :
  String.length (signImageUrl url secret) = 64%nat.
Proof.
  unfold signImageUrl, Hmac.hmac_sha256.
  rewrite hex_length, sha256_length. reflexivity.
Qed.

Lemma signImageUrl_truthy (url secret : string) :
  truthy (signImageUrl url secret) = true.
Proof.
  pose proof (signImageUrl_length url secret) as H.
  destruct (signImageUrl url secret); [discriminate H | reflexivity].
Qed.

(** What [verifyImageUrl] decides, without the redundant length test. *)
Lemma verifyImageUrl_true_iff (url signature secret : string) :
  verifyImageUrl url signature secret = true
  <-> signature <> EmptyString /\ secret <> EmptyString
      /\ signImageUrl url secret = signature.
Proof.
  unfold verifyImageUrl.
  destruct signature as [|c sg]; cbn [truthy negb orb].
  { split; [discriminate | intros (H & _); congruence]. }
  destruct secret as [|d sc]; cbn [truthy negb orb].
  { split; [discriminate | intros (_ & H & _); congruence]. }
  rewrite andb_true_iff, Nat.eqb_eq, String.eqb_eq.
  split.
  - intros (_ & H). repeat split; try discriminate. exact H.
  - intros (_ & _ & H). split; [rewrite H; reflexivity | exact H].
Qed.

(** Zero bytes appended to a key that still fits a block do not change
    the padded key, hence not the tag. *)
Lemma block_key_zero_padded (key : bytes) (n : nat) :
  (List.length key + n <= Hmac.block_size)%nat ->
  Hmac.block_key (key ++ repeat 0%N n)%list = Hmac.block_key key.
Proof.
  intros Hlen. unfold Hmac.block_key.
  assert (H1 : (Hmac.block_size <? List.length (key ++ repeat 0%N n)%list)%nat = false).
  { apply Nat.ltb_ge. rewrite length_app, repeat_length. exact Hlen. }
  assert (H2 : (Hmac.block_size <? List.length key)%nat = false).
  { apply Nat.ltb_ge. lia. }
  rewrite H1, H2, <- app_assoc, <- repeat_app, length_app, repeat_length.
  f_equal. f_equal. lia.
Qed.

Lemma bytes_of_string_app (s t : string) :
  bytes_of_string (s ++ t) = (bytes_of_string s ++ bytes_of_string t)%list.
Proof.
  unfold bytes_of_string. rewrite <- map_app. f_equal.
  induction s as [|c s IH]; simpl; [reflexivity | now rewrite IH].
Qed.

Lemma bytes_of_nuls (n : nat) : bytes_of_string (nuls n) = repeat 0%N n.
Proof.
  induction n as [|n IH]; [reflexivity|].
  change (bytes_of_string (nuls (S n))) with (0%N :: bytes_of_string (nuls n)).
  rewrite IH. reflexivity.
Qed.

(** Two secrets that differ only by trailing NUL characters sign alike. *)
Lemma signImageUrl_nul_padded (url secret : string) (n : nat) :
  (String.length secret + n <= 64)%nat ->
  signImageUrl url (secret ++ nuls n) = signImageUrl url secret.
Proof.
  intros Hlen. unfold signImageUrl, Hmac.hmac_sha256.
  rewrite bytes_of_string_app, bytes_of_nuls, block_key_zero_padded; [reflexivity|].
  unfold bytes_of_string. rewrite length_map.
  replace (List.length (list_ascii_of_string secret)) with (String.length secret).
  - exact Hlen.
  - clear. induction secret as [|c s IH]; simpl; [reflexivity | now rewrite IH].
Qed.

(** C5, as stated, fails twice on the code: the empty secret never
    verifies, not even its own tag; and the secret ["abc"] followed by a
    NUL character, which is a different secret, verifies the tag made
    with ["abc"]. *)
Lemma verify_sign_counterexample :
  verifyImageUrl example_url (signImageUrl example_url "") "" = false
  /\ "abc" ++ nuls 1 <> "abc"
  /\ verifyImageUrl example_url (signImageUrl example_url "abc") ("abc" ++ nuls 1) = true.
Proof.
  split; [|split].
  - unfold verifyImageUrl. rewrite signImageUrl_truthy. reflexivity.
  - discriminate.
  - apply verifyImageUrl_true_iff. split; [|split].
    + apply truthy_true_iff, signImageUrl_truthy.
    + discriminate.
    + apply signImageUrl_nul_padded. simpl. lia.
Qed.

(** C5 (amended): for every URL [u] and every non-empty secret [s],
    [verify(u, sign(u, s), s)] is true; under any secret [s'] the tag
    [sign(u, s)] verifies exactly when [s'] is non-empty and signs [u]
    to the same tag, so a different secret fails unless it yields the
    same tag; the empty secret never verifies. *)
Theorem verify_sign_roundtrip (u s : string) :
  s <> "" ->
  verifyImageUrl u (signImageUrl u s) s = true
  /\ (forall s', verifyImageUrl u (signImageUrl u s) s' = true
                 <-> s' <> "" /\ signImageUrl u s' = signImageUrl u s)
  /\ (forall tag, verifyImageUrl u tag "" = false).
Proof.
  intros Hs.
  assert (Hne : signImageUrl u s <> "").
  { apply truthy_true_iff, signImageUrl_truthy. }
  split; [|split].
  - apply verifyImageUrl_true_iff. auto.
  - intros s'. rewrite verifyImageUrl_true_iff. tauto.
  - intros tag. unfold verifyImageUrl. destruct tag; reflexivity.
Qed.

Lemma verify_sign_roundtrip_witness :
  "abc" <> ""
  /\ verifyImageUrl example_url (signImageUrl example_url "abc") "abc" = true.
Proof.
  assert (H : "abc" <> "") by discriminate.
  exact (conj H (proj1 (verify_sign_roundtrip example_url "abc" H))).
Defined.

(* ================================================================== *)
(** ** URL policy guard *)

Section GuardFacts.
Context {P : Platform}.

Lemma isPrivateIP_classify (ip : string) :
  isPrivateIP ip = true <-> classify ip = Private.
Proof.
  unfold isPrivateIP, classify.
  destruct (ipaddr_isValid (unbracket ip)); simpl.
  - destruct (String.eqb (ipaddr_range (unbracket ip)) "unicast"); simpl;
      split; intros; congruence.
  - split; intros; congruence.
Qed.

Lemma isPrivateIP_false_classify (ip : string) :
  isPrivateIP ip = false <-> classify ip <> Private.
Proof.
  rewrite <- isPrivateIP_classify. destruct (isPrivateIP ip); split; congruence.
Qed.

Lemma toLowerCase_empty (s : string) : toLowerCase s = "" <-> s = "".
Proof. destruct s; simpl; split; intros; congruence. Qed.

Lemma isAllowedImageUrl_true_iff (url : string) :
  isAllowedImageUrl url = true <->
  exists parsed,
    URL_parse url = Some parsed
    /\ (protocol parsed = "http:" \/ protocol parsed = "https:")
    /\ hostname parsed <> ""
    /\ toLowerCase (hostname parsed) <> "localhost"
    /\ endsWith (toLowerCase (hostname parsed)) ".local" = false
    /\ endsWith (toLowerCase (hostname parsed)) ".internal" = false
    /\ (classify (toLowerCase (hostname parsed)) <> Invalid ->
        classify (toLowerCase (hostname parsed)) = Unicast).
Proof.
  unfold isAllowedImageUrl. split.
  - destruct (URL_parse url) as [parsed|]; [|discriminate].
    set (h := toLowerCase (hostname parsed)).
    destruct (String.eqb (protocol parsed) "http:") eqn:E1;
      destruct (String.eqb (protocol parsed) "https:") eqn:E2;
      cbn [negb andb]; try discriminate.
    all: destruct (truthy h) eqn:Et; cbn [negb]; try discriminate.
    all: destruct (String.eqb h "localhost") eqn:E3; cbn [orb]; try discriminate.
    all: destruct (endsWith h ".local") eqn:E4; cbn [orb]; try discriminate.
    all: destruct (endsWith h ".internal") eqn:E5; try discriminate.
    all: destruct (isPrivateIP h) eqn:E6; try discriminate.
    all: intros _; exists parsed; fold h.
    all: apply truthy_true_iff in Et; apply String.eqb_neq in E3.
    all: apply isPrivateIP_false_classify in E6.
    all: assert (Hh : hostname parsed <> "")
      by (intros E; apply Et; apply (proj2 (toLowerCase_empty _)); exact E).
    all: assert (Hc : classify h <> Invalid -> classify h = Unicast)
      by (destruct (classify h); congruence).
    all: repeat split; auto.
    all: try (left; apply String.eqb_eq; assumption).
    all: try (right; apply String.eqb_eq; assumption).
  - intros (parsed & Hp & Hproto & Hh & Hl & Hlocal & Hint & Hc).
    rewrite Hp.
    assert (E : negb (String.eqb (protocol parsed) "http:")
                && negb (String.eqb (protocol parsed) "https:") = false).
    { destruct Hproto as [Hpr|Hpr]; rewrite Hpr; reflexivity. }
    rewrite E.
    assert (Et : truthy (toLowerCase (hostname parsed)) = true).
    { apply truthy_true_iff. intros E0. exact (Hh (proj1 (toLowerCase_empty _) E0)). }
    rewrite Et. cbn [negb].
    apply String.eqb_neq in Hl. rewrite Hl, Hlocal, Hint. cbn [orb].
    assert (E6 : isPrivateIP (toLowerCase (hostname parsed)) = false).
    { apply isPrivateIP_false_classify. intros Hpriv.
      rewrite Hpriv in Hc. assert (Private = Unicast) by (apply Hc; discriminate).
      discriminate. }
    rewrite E6. reflexivity.
Qed.

End GuardFacts.

(** C7: [isAllowedImageUrl] is true exactly when the URL parses, its
    scheme is http or https, its hostname is present, is not localhost
    and has neither the suffix .local nor .internal, and, when the
    hostname is an IP literal (bracketed or not), that address classifies
    as unicast; the link-local metadata address and an ftp URL are
    refused, an ordinary https URL is allowed. *)
Theorem isAllowedImageUrl_spec :
  (forall (P : Platform) (url : string),
      isAllowedImageUrl url = true <->
      exists parsed,
        URL_parse url = Some parsed
        /\ (protocol parsed = "http:" \/ protocol parsed = "https:")
        /\ hostname parsed <> ""
        /\ toLowerCase (hostname parsed) <> "localhost"
        /\ endsWith (toLowerCase (hostname parsed)) ".local" = false
        /\ endsWith (toLowerCase (hostname parsed)) ".internal" = false
        /\ (classify (toLowerCase (hostname parsed)) <> Invalid ->
            classify (toLowerCase (hostname parsed)) = Unicast))
  /\ @isAllowedImageUrl ref_platform "http://169.254.169.254/x" = false
  /\ @isAllowedImageUrl ref_platform "https://example.com/x.png" = true
  /\ @isAllowedImageUrl ref_platform "ftp://example.com/x" = false.
Proof.
  split; [intros P url; apply isAllowedImageUrl_true_iff|].
  repeat split; vm_compute; reflexivity.
Qed.

Lemma isAllowedImageUrl_spec_witness :
  exists parsed,
    @URL_parse ref_platform "https://example.com/x.png" = Some parsed
    /\ (protocol parsed = "http:" \/ protocol parsed = "https:")
    /\ hostname parsed <> ""
    /\ toLowerCase (hostname parsed) <> "localhost"
    /\ endsWith (toLowerCase (hostname parsed)) ".local" = false
    /\ endsWith (toLowerCase (hostname parsed)) ".internal" = false
    /\ (@classify ref_platform (toLowerCase (hostname parsed)) <> Invalid ->
        @classify ref_platform (toLowerCase (hostname parsed)) = Unicast).
Proof.
  exact (proj1 (proj1 isAllowedImageUrl_spec ref_platform "https://example.com/x.png")
               eq_refl).
Defined.

(* ================================================================== *)
(** ** Protocol-relative URLs *)

Lemma startsWith_slashes (url : string) :
  startsWith url "//" = true -> exists rest, url = String "/" (String "/" rest).
Proof.
  unfold startsWith.
  destruct url as [|a [|b rest]]; cbn [String.prefix]; intros H;
    try discriminate H.
  - destruct (ascii_dec "/" a); discriminate H.
  - destruct (ascii_dec "/" a) as [<-|]; [|discriminate H].
    destruct (ascii_dec "/" b) as [<-|]; [|discriminate H].
    exists rest. reflexivity.
Qed.

(** C10, as stated, fails on the code: [isAllowedImageUrl] classifies
    the string it is given, so a protocol-relative URL is refused while
    its https form is allowed; and a protocol-relative redirect target
    takes the scheme of the URL it is resolved against, here http. *)
Lemma protocol_relative_counterexample :
  @isAllowedImageUrl ref_platform "//example.com/x.png" = false
  /\ @isAllowedImageUrl ref_platform "https://example.com/x.png" = true
  /\ option_map href
       (@URL_resolve ref_platform "//cdn.example/x.png" "http://evil.example/a.png")
     = Some "http://cdn.example/x.png".
Proof. repeat split; vm_compute; reflexivity. Qed.

(** C10 (amended): [toProxiedImageUrl] treats a protocol-relative URL
    as its https form: when that form parses with an http(s) scheme the
    result is the one for the https form, the trusted-domain test and the
    signature being taken on the https form; [isAllowedImageUrl] does no
    such rewriting and refuses whatever does not parse. *)
Theorem toProxiedImageUrl_protocol_relative
    (P : Platform) (url secret : string) (parsed : URL) :
  startsWith url "//" = true ->
  URL_parse ("https:" ++ url) = Some parsed ->
  protocol parsed = "http:" \/ protocol parsed = "https:" ->
  toProxiedImageUrl url secret = toProxiedImageUrl ("https:" ++ url) secret
  /\ toProxiedImageUrl url secret
     = (if isTrustedImageDomain ("https:" ++ url) then "https:" ++ url
        else "/api/registry/image-proxy?url=" ++ encodeURIComponent ("https:" ++ url)
             ++ "&sig=" ++ signImageUrl ("https:" ++ url) secret)
  /\ (forall other, URL_parse other = None -> isAllowedImageUrl other = false).
Proof.
  intros Hs Hp Hproto.
  destruct (startsWith_slashes url Hs) as (rest & ->).
  assert (E : negb (String.eqb (protocol parsed) "http:")
              && negb (String.eqb (protocol parsed) "https:") = false).
  { destruct Hproto as [Hpr|Hpr]; rewrite Hpr; reflexivity. }
  assert (Hmain : toProxiedImageUrl (String "/" (String "/" rest)) secret
     = (if isTrustedImageDomain ("https:" ++ String "/" (String "/" rest))
        then "https:" ++ String "/" (String "/" rest)
        else "/api/registry/image-proxy?url="
             ++ encodeURIComponent ("https:" ++ String "/" (String "/" rest))
             ++ "&sig=" ++ signImageUrl ("https:" ++ String "/" (String "/" rest)) secret)).
  { unfold toProxiedImageUrl.
    change (negb (truthy (String "/" (String "/" rest)))
            || startsWith (String "/" (String "/" rest)) "#"
            || startsWith (String "/" (String "/" rest)) "data:") with false.
    cbv iota. rewrite Hs, Hp, E. reflexivity. }
  split; [|split].
  - rewrite Hmain. unfold toProxiedImageUrl.
    change (negb (truthy ("https:" ++ String "/" (String "/" rest)))
            || startsWith ("https:" ++ String "/" (String "/" rest)) "#"
            || startsWith ("https:" ++ String "/" (String "/" rest)) "data:")
      with false.
    change (startsWith ("https:" ++ String "/" (String "/" rest)) "//") with false.
    cbv iota. rewrite Hp, E. reflexivity.
  - exact Hmain.
  - intros other Ho. unfold isAllowedImageUrl. rewrite Ho. reflexivity.
Qed.

Lemma toProxiedImageUrl_protocol_relative_witness :
  @toProxiedImageUrl ref_platform "//example.com/x.png" "abc"
  = @toProxiedImageUrl ref_platform ("https:" ++ "//example.com/x.png") "abc".
Proof.
  exact (proj1 (toProxiedImageUrl_protocol_relative ref_platform
                  "//example.com/x.png" "abc"
                  (mkURL "https:" "example.com" "https://example.com/x.png")
                  eq_refl eq_refl (or_intror eq_refl))).
Defined.

(* ================================================================== *)
(** ** Host resolution validator *)

Section ValidatorFacts.
Context {P : Platform}.

Lemma classify_Invalid_iff (ip : string) :
  classify ip = Invalid <-> ipaddr_isValid (unbracket ip) = false.
Proof.
  unfold classify. destruct (ipaddr_isValid (unbracket ip)).
  - destruct (String.eqb _ _); split; discriminate.
  - split; reflexivity.
Qed.

Lemma forallb_not_private (results : list LookupAddress) :
  forallb (fun result => negb (isPrivateIP (address result))) results = true
  <-> Forall (fun a => classify (address a) <> Private) results.
Proof.
  rewrite forallb_forall, Forall_forall.
  split; intros H a Ha; specialize (H a Ha).
  - apply isPrivateIP_false_classify. now destruct (isPrivateIP (address a)).
  - apply isPrivateIP_false_classify in H. now rewrite H.
Qed.

(** The validator on a name that is not an IP literal: one lookup, and
    the verdict is a function of its answer. *)
Lemma resolveAndValidateHost_name (url : string) (parsed : URL) (w : World) (tr : Trace) :
  URL_parse url = Some parsed ->
  hostname parsed <> "" ->
  classify (toLowerCase (hostname parsed)) = Invalid ->
  resolveAndValidateHost url w tr
  = (Ret match dns_lookup w tr (toLowerCase (hostname parsed)) with
         | None => false
         | Some results =>
             if Nat.eqb (List.length results) 0 then false
             else forallb (fun result => negb (isPrivateIP (address result))) results
         end,
     (tr ++ [DnsLookup (toLowerCase (hostname parsed))])%list).
Proof.
  intros Hp Hh Hc. unfold resolveAndValidateHost. rewrite Hp.
  assert (Et : truthy (hostname parsed) = true) by (apply truthy_true_iff; exact Hh).
  rewrite Et. cbn [negb].
  apply classify_Invalid_iff in Hc. rewrite Hc.
  unfold try_catch, bind, lookup, ret.
  destruct (dns_lookup w tr (toLowerCase (hostname parsed))) as [results|]; [|reflexivity].
  destruct (Nat.eqb (List.length results) 0); reflexivity.
Qed.

(** The validator on an IP literal: no lookup, the classifier decides.
    The source strips brackets twice, in [resolveAndValidateHost] and
    again in [isPrivateIP]; an address text has none left after the
    first time. *)
Lemma resolveAndValidateHost_literal (url : string) (parsed : URL) (w : World) (tr : Trace) :
  URL_parse url = Some parsed ->
  hostname parsed <> "" ->
  classify (toLowerCase (hostname parsed)) <> Invalid ->
  unbracket (unbracket (toLowerCase (hostname parsed)))
  = unbracket (toLowerCase (hostname parsed)) ->
  resolveAndValidateHost url w tr
  = (Ret match classify (toLowerCase (hostname parsed)) with
         | Unicast => true
         | _ => false
         end, tr).
Proof.
  intros Hp Hh Hc Hu. unfold resolveAndValidateHost. rewrite Hp.
  assert (Et : truthy (hostname parsed) = true) by (apply truthy_true_iff; exact Hh).
  rewrite Et. cbn [negb].
  assert (Hv : ipaddr_isValid (unbracket (toLowerCase (hostname parsed))) = true).
  { destruct (ipaddr_isValid _) eqn:E; [reflexivity|].
    apply classify_Invalid_iff in E. contradiction. }
  rewrite Hv. unfold ret. f_equal. f_equal.
  unfold isPrivateIP, classify. rewrite Hu, Hv. cbn [negb].
  destruct (String.eqb _ _); reflexivity.
Qed.

(** C4: [resolveAndValidateHost] fails closed.  For a URL whose hostname
    is a name, a rejected lookup, an empty answer, and an answer holding
    at least one private or reserved address (whatever else it holds)
    all give false; true is returned only for a non-empty answer in
    which every address classifies as unicast; for an IP literal no
    lookup is made and true is returned only if it classifies as
    unicast; the function never throws. *)
Theorem resolveAndValidateHost_fails_closed
    (url : string) (parsed : URL) (w : World) (tr : Trace) :
  URL_parse url = Some parsed ->
  hostname parsed <> "" ->
  let h := toLowerCase (hostname parsed) in
  let out := fst (resolveAndValidateHost url w tr) in
  (classify h = Invalid ->
     (dns_lookup w tr h = None -> out = Ret false)
     /\ (dns_lookup w tr h = Some [] -> out = Ret false)
     /\ (forall results a,
           dns_lookup w tr h = Some results -> In a results ->
           classify (address a) = Private -> out = Ret false)
     /\ (out = Ret true ->
         exists results,
           dns_lookup w tr h = Some results /\ results <> []
           /\ Forall (fun a => classify (address a) <> Private) results
           /\ Forall (fun a => classify (address a) <> Invalid ->
                               classify (address a) = Unicast) results))
  /\ (classify h <> Invalid -> unbracket (unbracket h) = unbracket h ->
      resolveAndValidateHost url w tr
      = (Ret match classify h with Unicast => true | _ => false end, tr))
  /\ (exists b, out = Ret b).
Proof.
  intros Hp Hh h out. split; [|split].
  - intros Hc. subst out.
    rewrite (resolveAndValidateHost_name url parsed w tr Hp Hh Hc). cbn [fst].
    fold h. repeat split.
    + intros ->. reflexivity.
    + intros ->. reflexivity.
    + intros results a -> Ha Hpriv.
      destruct results as [|r rs]; [destruct Ha|]. cbn [List.length Nat.eqb].
      f_equal. apply not_true_is_false. intros Hall.
      rewrite forallb_forall in Hall. specialize (Hall a Ha).
      apply isPrivateIP_classify in Hpriv. rewrite Hpriv in Hall. discriminate.
    + destruct (dns_lookup w tr h) as [results|]; [|discriminate].
      destruct results as [|r rs]; [discriminate|]. cbn [List.length Nat.eqb].
      intros Hall. injection Hall as Hall.
      exists (r :: rs). repeat split; try discriminate.
      * apply (proj1 (forallb_not_private (r :: rs))). exact Hall.
      * apply (proj1 (forallb_not_private (r :: rs))) in Hall.
        eapply Forall_impl; [|exact Hall].
        intros a Hnp Hni. cbn beta in Hnp.
        destruct (classify (address a)); [reflexivity | | ]; contradiction.
  - intros Hc Hu. apply resolveAndValidateHost_literal; assumption.
  - subst out. destruct (classify h) eqn:Hc.
    1,2: destruct (ipaddr_isValid (unbracket h)) eqn:Hv;
      [| apply classify_Invalid_iff in Hv; fold h in Hc; congruence].
    1,2: unfold resolveAndValidateHost; rewrite Hp;
      rewrite (proj2 (truthy_true_iff _) Hh); cbn [negb]; fold h; rewrite Hv;
      eexists; reflexivity.
    rewrite (resolveAndValidateHost_name url parsed w tr Hp Hh Hc).
    eexists; reflexivity.
Qed.

End ValidatorFacts.

Lemma resolveAndValidateHost_fails_closed_witness :
  fst (@resolveAndValidateHost ref_platform "https://mixed.example/a.png"
         mixed_world [])
  = Ret false.
Proof.
  pose (parsed := mkURL "https:" "mixed.example" "https://mixed.example/a.png").
  assert (Hh : hostname parsed <> "") by discriminate.
  exact (proj1 (proj2 (proj2
           (proj1 (@resolveAndValidateHost_fails_closed ref_platform
                     "https://mixed.example/a.png" parsed mixed_world []
                     eq_refl Hh)
                  eq_refl)))
           [mkAddr "93.184.216.34" 4; mkAddr "10.0.0.7" 4] (mkAddr "10.0.0.7" 4)
           eq_refl (or_intror (or_introl eq_refl)) eq_refl).
Defined.

(* ================================================================== *)
(** ** Bounded streaming relay *)

Section RelayFacts.
Variable highWaterMark : N.
Local Open Scope N_scope.

Lemma total_length_app (l1 l2 : list Buffer) :
  total_length (l1 ++ l2) = total_length l1 + total_length l2.
Proof.
  induction l1 as [|c l1 IH]; simpl; [reflexivity | rewrite IH; lia].
Qed.

Lemma total_length_single (c : Buffer) : total_length [c] = byteLength c.
Proof. unfold total_length. simpl. lia. Qed.

Lemma total_length_nil : total_length [] = 0.
Proof. reflexivity. Qed.

Ltac relay_fields :=
  cbn [bytesRead pending pending_end upstream buffered limited delivered] in *.

Ltac relay_arith :=
  rewrite ?total_length_app, ?total_length_single, ?total_length_nil in *; lia.

Lemma relay_start_inv (b : Body) : relay_inv (relay_start b).
Proof.
  unfold relay_start. split; relay_fields; try discriminate; try relay_arith.
Qed.

(** While the upstream flows, nothing has gone over the limit and
    [limited] has not been destroyed. *)
Lemma flowing_live (r : Relay) :
  relay_inv r -> upstream r = Flowing ->
  bytesRead r <= MAX_SIZE /\ (forall e, limited r <> Destroyed e).
Proof.
  intros [Hcap Hread Hover Hdead] Hflow. split.
  - destruct (N.ltb_spec MAX_SIZE (bytesRead r)) as [Hlt|]; [|assumption].
    destruct (Hover Hlt) as [Hu _]. congruence.
  - intros e He. apply Hdead in He. congruence.
Qed.

Lemma on_data_inv (chunk : Buffer) (r : Relay) :
  relay_inv r -> upstream r = Flowing -> relay_inv (on_data highWaterMark chunk r).
Proof.
  intros Hinv Hflow.
  destruct (flowing_live r Hinv Hflow) as [Hle Hlive].
  destruct Hinv as [Hcap Hread Hover Hdead].
  unfold on_data. relay_fields.
  destruct (N.ltb_spec MAX_SIZE (bytesRead r + byteLength chunk)) as [Hlt|Hge].
  - unfold limited_destroy, upstream_destroy, set_upstream. relay_fields.
    destruct (limited r) eqn:El.
    3: { exfalso. exact (Hlive _ eq_refl). }
    all: split; relay_fields; try relay_arith; auto.
  - unfold limited_push. relay_fields.
    destruct (limited r) eqn:El.
    3: { exfalso. exact (Hlive _ eq_refl). }
    + destruct (total_length (buffered r ++ [chunk]) <? highWaterMark);
        cbn [negb]; unfold upstream_pause, set_upstream; relay_fields;
        rewrite ?Hflow; relay_fields.
      all: split; relay_fields; rewrite ?El; try relay_arith; try discriminate.
    + cbn [negb]. unfold upstream_pause, set_upstream. relay_fields.
      rewrite Hflow. relay_fields.
      split; relay_fields; rewrite ?El; try relay_arith; try discriminate.
Qed.

Lemma step_inv (a : Action) (r : Relay) :
  relay_inv r -> relay_inv (step highWaterMark a r).
Proof.
  intros Hinv. destruct a; unfold step.
  - destruct (upstream r) eqn:Eu; try assumption.
    destruct (pending r) as [|chunk rest] eqn:Ep.
    + destruct (flowing_live r Hinv Eu) as [Hle Hlive].
      destruct Hinv as [Hcap Hread Hover Hdead].
      destruct (pending_end r).
      * unfold on_end, limited_push_null, set_upstream. relay_fields.
        destruct (limited r) eqn:El.
        3: { exfalso. exact (Hlive _ eq_refl). }
        all: split; relay_fields; rewrite ?El; try relay_arith; try discriminate.
      * unfold on_error, limited_destroy, set_upstream. relay_fields.
        destruct (limited r) eqn:El.
        3: { exfalso. exact (Hlive _ eq_refl). }
        all: split; relay_fields; try relay_arith; auto.
    + apply on_data_inv; [|reflexivity].
      destruct (flowing_live r Hinv Eu) as [Hle Hlive].
      destruct Hinv as [Hcap Hread Hover Hdead].
      split; relay_fields; try assumption.
      * intros Hlt. lia.
      * intros e He. exfalso. exact (Hlive e He).
  - destruct (limited r) eqn:El.
    3: { exact Hinv. }
    all: destruct Hinv as [Hcap Hread Hover Hdead].
    all: unfold limited_read, upstream_resume, set_upstream.
    all: destruct (buffered r) as [|chunk rest] eqn:Eb; relay_fields.
    all: destruct (upstream r) eqn:Eu; relay_fields.
    all: split; relay_fields; rewrite ?El, ?Eu, ?Eb; try discriminate;
      try (simpl total_length in *; relay_arith).
    all: try (intros Hlt; destruct (Hover Hlt); discriminate).
    all: intros Hlt; destruct (Hover Hlt) as [_ Hl]; congruence.
Qed.

Lemma relay_run_inv (schedule : list Action) (r : Relay) :
  relay_inv r -> relay_inv (relay_run highWaterMark schedule r).
Proof.
  revert r. induction schedule as [|a schedule IH]; intros r Hinv; simpl.
  - exact Hinv.
  - apply IH, step_inv, Hinv.
Qed.

End RelayFacts.

(** C1: whatever the upstream body, the high-water mark and the order
    in which upstream and consumer move, the caller has received at most
    [MAX_SIZE] bytes; as soon as the bytes read from upstream exceed the
    limit, the upstream stream is destroyed and the outbound stream is
    destroyed with the size-limit error, so it is never ended as a
    success after a truncation; the chunk that would cross the limit is
    not delivered. *)
Theorem relay_bounded (highWaterMark : N) (b : Body) (schedule : list Action) :
  let r := relay_run highWaterMark schedule (relay_start b) in
  (total_length (delivered r) <= MAX_SIZE)%N
  /\ ((MAX_SIZE < bytesRead r)%N ->
      upstream r = UpstreamDestroyed /\ limited r = Destroyed "Image too large")
  /\ (forall chunk rest,
         upstream r = Flowing -> pending r = chunk :: rest ->
         (MAX_SIZE < bytesRead r + byteLength chunk)%N ->
         let r' := step highWaterMark UpstreamEmits r in
         upstream r' = UpstreamDestroyed
         /\ limited r' = Destroyed "Image too large"
         /\ delivered r' = delivered r).
Proof.
  intros r.
  assert (Hinv : relay_inv r) by (apply relay_run_inv, relay_start_inv).
  split; [|split].
  - pose proof (inv_cap r Hinv). lia.
  - exact (inv_over r Hinv).
  - intros chunk rest Hflow Hpend Hlt r'. subst r'.
    destruct (flowing_live r Hinv Hflow) as [_ Hlive].
    unfold step. rewrite Hflow, Hpend. unfold on_data.
    cbn [bytesRead].
    apply N.ltb_lt in Hlt. rewrite Hlt.
    unfold limited_destroy, upstream_destroy, set_upstream.
    cbn [bytesRead pending pending_end upstream buffered limited delivered].
    destruct (limited r) eqn:El.
    3: { exfalso. exact (Hlive _ eq_refl). }
    all: repeat split.
Qed.

Lemma relay_bounded_witness :
  limited (relay_run 16384 [UpstreamEmits] (relay_start oversized_body))
  = Destroyed "Image too large".
Proof.
  exact (proj2 (proj1 (proj2 (relay_bounded 16384 oversized_body [UpstreamEmits]))
                      eq_refl)).
Defined.

(* ================================================================== *)
(** ** Runs of the handler: how the trace grows *)

Section RunFacts.
Context {P : Platform}.
Variable w : World.
Local Open Scope list_scope.

Lemma count_fetch_app (tr1 tr2 : Trace) :
  count_fetch (tr1 ++ tr2) = (count_fetch tr1 + count_fetch tr2)%nat.
Proof. unfold count_fetch. rewrite filter_app, length_app. reflexivity. Qed.

(** The validator returns a verdict and adds at most one lookup. *)
Lemma resolveAndValidateHost_run (url : string) (tr : Trace) :
  exists b added,
    resolveAndValidateHost url w tr = (Ret b, (tr ++ added)%list)
    /\ (added = [] \/ exists h, added = [DnsLookup h]).
Proof.
  unfold resolveAndValidateHost.
  destruct (URL_parse url) as [parsed|].
  2: { exists false, []. rewrite app_nil_r. split; [reflexivity | now left]. }
  destruct (negb (truthy (hostname parsed))).
  { exists false, []. rewrite app_nil_r. split; [reflexivity | now left]. }
  destruct (ipaddr_isValid _).
  { eexists _, []. rewrite app_nil_r. split; [reflexivity | now left]. }
  unfold try_catch, bind, lookup, ret.
  destruct (dns_lookup w tr _) as [results|].
  - destruct (Nat.eqb _ _); eexists _, [_]; split; try reflexivity; right; eauto.
  - eexists _, [_]. split; [reflexivity | right; eauto].
Qed.

Lemma validated_app (u : string) (tr added : Trace) :
  validated w u tr -> validated w u (tr ++ added).
Proof.
  intros (Ha & Hin & tr0 & rest & -> & Hrun & Hin').
  split; [exact Ha|]. split; [apply in_or_app; now left|].
  exists tr0, (rest ++ added)%list. rewrite app_assoc.
  repeat split; try assumption. apply in_or_app; now left.
Qed.

Lemma fetches_validated_nil : fetches_validated w [].
Proof. intros [|e pre] u post H; discriminate H. Qed.

(** Adding an event keeps the property, provided a request goes to a
    URL validated by then. *)
Lemma fetches_validated_snoc (tr : Trace) (ev : Event) :
  fetches_validated w tr ->
  (forall u, ev = Fetch u -> validated w u tr) ->
  fetches_validated w (tr ++ [ev]).
Proof.
  intros Hfv Hev pre u post Heq.
  destruct (exists_last (l := Fetch u :: post)) as (post' & e & Hlast);
    [discriminate|].
  rewrite Hlast, app_assoc in Heq.
  apply app_inj_tail in Heq. destruct Heq as [Htr ->].
  destruct post' as [|e' post'].
  - simpl in Hlast. injection Hlast as He Hpost.
    rewrite app_nil_r in Htr. subst tr. apply Hev. symmetry. exact He.
  - simpl in Hlast. injection Hlast as He Hpost. subst e'.
    apply (Hfv pre u post'). exact Htr.
Qed.

Lemma fetches_validated_app (tr added : Trace) :
  fetches_validated w tr ->
  Forall (fun ev => is_fetch ev = false) added ->
  fetches_validated w (tr ++ added).
Proof.
  intros Hfv Hadd. revert tr Hfv.
  induction Hadd as [|ev added Hev _ IH]; intros tr Hfv.
  - rewrite app_nil_r. exact Hfv.
  - change (ev :: added) with ([ev] ++ added)%list. rewrite app_assoc.
    apply IH. apply fetches_validated_snoc; [exact Hfv|].
    intros u ->. discriminate Hev.
Qed.

End RunFacts.

Section LoopFacts.
Context {P : Platform}.
Variable w : World.
Local Open Scope list_scope.

Lemma cancel_body_run (r : Response) (tr : Trace) :
  cancel_body r w tr = (Ret tt, tr ++ cancel_events r).
Proof.
  unfold cancel_body, cancel_events, emit, ret.
  destruct (body r); [reflexivity | now rewrite app_nil_r].
Qed.

(** One turn of the loop, event by event. *)
Lemma follow_redirects_step (n : nat) (currentUrl : string)
    (response : option Response) (tr : Trace) :
  follow_redirects (S n) currentUrl response w tr =
  let tr1 := tr ++ [Fetch currentUrl] in
  match http_fetch w tr currentUrl with
  | None => (Throw (JsError "TypeError"), tr1)
  | Some r =>
      if negb (is_redirect_status (status r)) then (Ret (Some r), tr1)
      else
        match headers_get (headers r) "location" with
        | None => (Ret (Some r), tr1)
        | Some location =>
            if negb (truthy location) then (Ret (Some r), tr1)
            else
              match URL_resolve location currentUrl with
              | None => (Throw (JsError "TypeError"), tr1)
              | Some target =>
                  let redirectUrl := href target in
                  let allowed := isAllowedImageUrl redirectUrl in
                  let tr2 := tr1 ++ [CheckUrl redirectUrl allowed] in
                  if negb allowed
                  then (Throw (createError 400 "Redirect to disallowed URL."), tr2)
                  else
                    match resolveAndValidateHost redirectUrl w tr2 with
                    | (Throw e, tr3) => (Throw e, tr3)
                    | (Ret safe, tr3) =>
                        let tr4 := tr3 ++ [CheckHost redirectUrl safe] in
                        if negb safe
                        then (Throw (createError 400 "Redirect to disallowed URL."), tr4)
                        else follow_redirects n redirectUrl (Some r) w
                               (tr4 ++ cancel_events r)
                    end
              end
        end
  end.
Proof.
  cbn [follow_redirects]. unfold bind at 1. unfold fetch.
  destruct (http_fetch w tr currentUrl) as [r|]; [|reflexivity].
  cbv zeta.
  destruct (negb (is_redirect_status (status r))); [reflexivity|].
  destruct (headers_get (headers r) "location") as [location|]; [|reflexivity].
  destruct (negb (truthy location)); [reflexivity|].
  unfold bind at 1. unfold new_URL_href.
  destruct (URL_resolve location currentUrl) as [target|]; [|reflexivity].
  unfold ret at 1. unfold bind at 1. unfold emit at 1.
  destruct (negb (isAllowedImageUrl (href target))); [reflexivity|].
  unfold bind at 1.
  destruct (resolveAndValidateHost (href target) w _) as [[safe|e] tr3]; [|reflexivity].
  unfold bind at 1. unfold emit at 1.
  destruct (negb safe); [reflexivity|].
  unfold bind at 1. rewrite cancel_body_run. reflexivity.
Qed.

Lemma added_not_fetch (added : Trace) :
  added = [] \/ (exists h, added = [DnsLookup h]) ->
  Forall (fun ev => is_fetch ev = false) added.
Proof. intros [->|(h & ->)]; repeat constructor. Qed.

Lemma cancel_not_fetch (r : Response) :
  Forall (fun ev => is_fetch ev = false) (cancel_events r).
Proof. unfold cancel_events. destruct (body r); repeat constructor. Qed.

(** The loop only requests URLs that were validated first. *)
Lemma follow_redirects_validated (n : nat) :
  forall currentUrl response tr,
    fetches_validated w tr -> validated w currentUrl tr ->
    fetches_validated w (snd (follow_redirects n currentUrl response w tr)).
Proof.
  induction n as [|n IH]; intros currentUrl response tr Hfv Hval.
  - exact Hfv.
  - rewrite follow_redirects_step. cbv zeta.
    assert (Hfv1 : fetches_validated w (tr ++ [Fetch currentUrl])).
    { apply fetches_validated_snoc; [exact Hfv|].
      intros u Hu. injection Hu as <-. exact Hval. }
    destruct (http_fetch w tr currentUrl) as [r|]; [|exact Hfv1].
    destruct (negb (is_redirect_status (status r))); [exact Hfv1|].
    destruct (headers_get (headers r) "location") as [location|]; [|exact Hfv1].
    destruct (negb (truthy location)); [exact Hfv1|].
    destruct (URL_resolve location currentUrl) as [target|]; [|exact Hfv1].
    set (redirectUrl := href target).
    assert (Hfv2 : fetches_validated w
              ((tr ++ [Fetch currentUrl])
               ++ [CheckUrl redirectUrl (isAllowedImageUrl redirectUrl)])).
    { apply fetches_validated_snoc; [exact Hfv1 | discriminate]. }
    destruct (isAllowedImageUrl redirectUrl) eqn:Eallowed; cbn [negb];
      [|exact Hfv2].
    destruct (resolveAndValidateHost_run w redirectUrl
                ((tr ++ [Fetch currentUrl]) ++ [CheckUrl redirectUrl true]))
      as (safe & added & Hrun & Hadd).
    rewrite Hrun.
    assert (Hfv3 : fetches_validated w
              ((((tr ++ [Fetch currentUrl]) ++ [CheckUrl redirectUrl true]) ++ added)
               ++ [CheckHost redirectUrl safe])).
    { apply fetches_validated_snoc; [|discriminate].
      apply fetches_validated_app; [exact Hfv2 | apply added_not_fetch, Hadd]. }
    destruct safe; cbn [negb]; [|exact Hfv3].
    apply IH.
    + apply fetches_validated_app; [exact Hfv3 | apply cancel_not_fetch].
    + apply validated_app. split; [exact Eallowed|]. split.
      * apply in_or_app. left. apply in_or_app. left.
        apply in_or_app. right. now left.
      * exists ((tr ++ [Fetch currentUrl]) ++ [CheckUrl redirectUrl true]),
               (added ++ [CheckHost redirectUrl true]).
        rewrite app_assoc. split; [reflexivity|]. split.
        -- rewrite Hrun. reflexivity.
        -- apply in_or_app. right. now left.
Qed.

(** The loop issues at most one request per turn. *)
Lemma follow_redirects_count (n : nat) :
  forall currentUrl response tr,
    (count_fetch (snd (follow_redirects n currentUrl response w tr))
     <= count_fetch tr + n)%nat.
Proof.
  induction n as [|n IH]; intros currentUrl response tr.
  - simpl. lia.
  - rewrite follow_redirects_step. cbv zeta.
    assert (H1 : count_fetch (tr ++ [Fetch currentUrl]) = (count_fetch tr + 1)%nat).
    { rewrite count_fetch_app. reflexivity. }
    destruct (http_fetch w tr currentUrl) as [r|]; [|cbn [snd]; lia].
    destruct (negb (is_redirect_status (status r))); [cbn [snd]; lia|].
    destruct (headers_get (headers r) "location") as [location|]; [|cbn [snd]; lia].
    destruct (negb (truthy location)); [cbn [snd]; lia|].
    destruct (URL_resolve location currentUrl) as [target|]; [|cbn [snd]; lia].
    set (redirectUrl := href target).
    destruct (isAllowedImageUrl redirectUrl); cbn [negb].
    2: { cbn [snd]. rewrite count_fetch_app. cbn. lia. }
    destruct (resolveAndValidateHost_run w redirectUrl
                ((tr ++ [Fetch currentUrl]) ++ [CheckUrl redirectUrl true]))
      as (safe & added & Hrun & Hadd).
    rewrite Hrun.
    assert (Hadd0 : count_fetch added = 0%nat).
    { destruct Hadd as [->|(h & ->)]; reflexivity. }
    assert (Hc0 : count_fetch (cancel_events r) = 0%nat).
    { unfold cancel_events. destruct (body r); reflexivity. }
    destruct safe; cbn [negb].
    2: { cbn [snd]. rewrite !count_fetch_app, Hadd0. cbn. lia. }
    eapply Nat.le_trans; [apply IH|].
    rewrite !count_fetch_app, Hadd0, Hc0. cbn. lia.
Qed.

(** The loop only appends to the trace. *)
Lemma follow_redirects_extends (n : nat) :
  forall currentUrl response tr,
    exists added,
      snd (follow_redirects n currentUrl response w tr) = tr ++ added.
Proof.
  induction n as [|n IH]; intros currentUrl response tr.
  - exists []. simpl. now rewrite app_nil_r.
  - rewrite follow_redirects_step. cbv zeta.
    destruct (http_fetch w tr currentUrl) as [r|]; [|eexists; reflexivity].
    destruct (negb (is_redirect_status (status r))); [eexists; reflexivity|].
    destruct (headers_get (headers r) "location") as [location|];
      [|eexists; reflexivity].
    destruct (negb (truthy location)); [eexists; reflexivity|].
    destruct (URL_resolve location currentUrl) as [target|]; [|eexists; reflexivity].
    set (redirectUrl := href target).
    destruct (negb (isAllowedImageUrl redirectUrl)).
    { eexists. cbn [snd]. rewrite <- app_assoc. reflexivity. }
    destruct (resolveAndValidateHost_run w redirectUrl
                ((tr ++ [Fetch currentUrl])
                 ++ [CheckUrl redirectUrl (isAllowedImageUrl redirectUrl)]))
      as (safe & added & Hrun & _).
    rewrite Hrun.
    destruct (negb safe).
    { eexists. cbn [snd]. rewrite <- !app_assoc. reflexivity. }
    destruct (IH redirectUrl (Some r)
                (((((tr ++ [Fetch currentUrl])
                    ++ [CheckUrl redirectUrl (isAllowedImageUrl redirectUrl)])
                   ++ added) ++ [CheckHost redirectUrl safe]) ++ cancel_events r))
      as (added' & ->).
    eexists. rewrite <- !app_assoc. reflexivity.
Qed.

(** After the loop: the outcome and the events added, case by case. *)
Lemma deliver_run (response : option Response) (tr : Trace) :
  exists out added,
    deliver response w tr = (out, tr ++ added)
    /\ Forall (fun ev => is_fetch ev = false /\ is_io ev = false) added
    /\ (forall name, out <> Throw (JsError name)).
Proof.
  unfold deliver.
  destruct response as [r|].
  2: { eexists _, []. rewrite app_nil_r. repeat split; [constructor | discriminate]. }
  assert (Hc : Forall (fun ev => is_fetch ev = false /\ is_io ev = false)
                      (cancel_events r)).
  { unfold cancel_events. destruct (body r); repeat constructor. }
  destruct (is_redirect_status (status r)).
  { unfold bind. rewrite cancel_body_run. eexists _, _.
    repeat split; [exact Hc | discriminate]. }
  destruct (negb (ok r)).
  { unfold bind. rewrite cancel_body_run. eexists _, _.
    repeat split; [exact Hc | discriminate]. }
  match goal with
  | |- context [if ?c then _ else _] => destruct c
  end.
  { unfold bind. rewrite cancel_body_run. eexists _, _.
    repeat split; [exact Hc | discriminate]. }
  match goal with
  | |- context [if ?c then _ else _] => destruct c
  end.
  { unfold bind. rewrite cancel_body_run. eexists _, _.
    repeat split; [exact Hc | discriminate]. }
  destruct (body r) as [b|].
  - unfold bind, emit, ret. eexists _, [_].
    repeat split; [repeat constructor | discriminate].
  - eexists _, []. rewrite app_nil_r. repeat split; [constructor | discriminate].
Qed.

(** The [try]/[catch] adds no event: the trace of [proxy] is that of the
    loop followed by that of the delivery. *)
Lemma proxy_run (url : string) (tr : Trace) :
  exists out added,
    proxy url w tr
    = (out, snd (follow_redirects (S MAX_REDIRECTS) url None w tr) ++ added)
    /\ Forall (fun ev => is_fetch ev = false /\ is_io ev = false) added.
Proof.
  unfold proxy, try_catch, bind.
  destruct (follow_redirects (S MAX_REDIRECTS) url None w tr) as [[response|e] tr1].
  - destruct (deliver_run response tr1) as (out & added & Hrun & Hadd & _).
    rewrite Hrun. cbn [snd].
    destruct out as [a|[c m|name]]; eexists _, added; split;
      try reflexivity; exact Hadd.
  - cbn [snd]. destruct e; eexists _, []; rewrite app_nil_r;
      split; try reflexivity; constructor.
Qed.

End LoopFacts.

Section HandlerFacts.
Context {P : Platform}.
Variable w : World.
Local Open Scope list_scope.

(** A request the gate refuses: rejected as [gate_verdict] says, with
    no policy check and no network event in the trace. *)
Lemma handler_gate_closed (query : Query) (secret : string) (e : Exn) :
  gate_verdict query secret = Some e ->
  exists tr,
    handler query secret w [] = (Throw e, tr)
    /\ Forall (fun ev => is_io ev = false /\ is_guard ev = false) tr.
Proof.
  unfold gate_verdict, handler.
  destruct (first_value (q_url query)) as [url|].
  2: { intros H. injection H as <-. exists []. split; [reflexivity | constructor]. }
  destruct (negb (truthy url)).
  { intros H. injection H as <-. exists []. split; [reflexivity | constructor]. }
  destruct (first_value (q_sig query)) as [sig|].
  2: { intros H. injection H as <-. exists []. split; [reflexivity | constructor]. }
  destruct (negb (truthy sig)) eqn:Esig.
  { intros H. injection H as <-. exists []. split; [reflexivity | constructor]. }
  destruct (verifyImageUrl url sig secret) eqn:Ev; [discriminate|].
  intros H. injection H as <-.
  destruct (truthy secret) eqn:Esec; cbn [negb].
  - exists [VerifySignature url sig false].
    unfold bind, emit, ret, throw. cbn [negb app].
    split; [reflexivity | repeat constructor].
  - exists []. unfold bind, ret, throw. cbn [negb].
    split; [reflexivity | constructor].
Qed.

(** A request that passes the gate: what remains to run. *)
Lemma handler_gate_open (query : Query) (secret url sig : string) :
  first_value (q_url query) = Some url -> truthy url = true ->
  first_value (q_sig query) = Some sig ->
  verifyImageUrl url sig secret = true ->
  handler query secret w [] =
  let allowed := isAllowedImageUrl url in
  let tr1 := [VerifySignature url sig true; CheckUrl url allowed] in
  if negb allowed
  then (Throw (createError 400 "Invalid or disallowed image URL."), tr1)
  else
    match resolveAndValidateHost url w tr1 with
    | (Throw e, tr2) => (Throw e, tr2)
    | (Ret safe, tr2) =>
        let tr3 := tr2 ++ [CheckHost url safe] in
        if negb safe
        then (Throw (createError 400 "Invalid or disallowed image URL."), tr3)
        else proxy url w tr3
    end.
Proof.
  intros Hu Htu Hs Hv.
  destruct (proj1 (verifyImageUrl_true_iff url sig secret) Hv) as (Hsig & Hsec & _).
  apply truthy_true_iff in Hsig, Hsec.
  unfold handler. rewrite Hu, Htu, Hs, Hsig, Hsec. cbn [negb].
  unfold bind at 1. unfold bind at 1. unfold emit at 1. unfold ret at 1.
  rewrite Hv. cbn [negb app]. unfold bind at 1. unfold emit at 1.
  cbv zeta. cbn [app].
  destruct (negb (isAllowedImageUrl url)); [reflexivity|].
  unfold bind at 1.
  destruct (resolveAndValidateHost url w _) as [[safe|e] tr2]; [|reflexivity].
  unfold bind at 1. unfold emit at 1.
  destruct (negb safe); reflexivity.
Qed.

(** The gate is open exactly for a present URL with a verified tag. *)
Lemma gate_verdict_None (query : Query) (secret : string) :
  gate_verdict query secret = None ->
  exists url sig,
    first_value (q_url query) = Some url /\ truthy url = true
    /\ first_value (q_sig query) = Some sig
    /\ verifyImageUrl url sig secret = true.
Proof.
  unfold gate_verdict.
  destruct (first_value (q_url query)) as [url|]; [|discriminate].
  destruct (truthy url) eqn:Eu; cbn [negb]; [|discriminate].
  destruct (first_value (q_sig query)) as [sig|]; [|discriminate].
  destruct (truthy sig); cbn [negb]; [|discriminate].
  destruct (verifyImageUrl url sig secret) eqn:Ev; [|discriminate].
  intros _. exists url, sig. auto.
Qed.

(** Past the gate the trace starts with the successful verification. *)
Lemma handler_trace_open (query : Query) (secret url sig : string) :
  first_value (q_url query) = Some url -> truthy url = true ->
  first_value (q_sig query) = Some sig ->
  verifyImageUrl url sig secret = true ->
  exists rest,
    snd (handler query secret w []) = VerifySignature url sig true :: rest
    /\ fetches_validated w (snd (handler query secret w []))
    /\ (count_fetch (snd (handler query secret w [])) <= S MAX_REDIRECTS)%nat.
Proof.
  intros Hu Htu Hs Hv.
  rewrite (handler_gate_open query secret url sig Hu Htu Hs Hv). cbv zeta.
  set (tr1 := [VerifySignature url sig true; CheckUrl url (isAllowedImageUrl url)]).
  assert (Hfv1 : fetches_validated w tr1).
  { apply (fetches_validated_app w []); [apply fetches_validated_nil|].
    repeat constructor. }
  destruct (isAllowedImageUrl url) eqn:Eallowed; cbn [negb].
  2: { eexists. cbn [snd]. split; [reflexivity|].
       split; [exact Hfv1 | cbn; lia]. }
  destruct (resolveAndValidateHost_run w url tr1) as (safe & added & Hrun & Hadd).
  rewrite Hrun.
  assert (Hadd0 : count_fetch added = 0%nat).
  { destruct Hadd as [->|(h & ->)]; reflexivity. }
  assert (Hfv3 : fetches_validated w ((tr1 ++ added) ++ [CheckHost url safe])).
  { apply fetches_validated_snoc; [|discriminate].
    apply fetches_validated_app; [exact Hfv1 | apply added_not_fetch, Hadd]. }
  destruct safe; cbn [negb].
  2: { eexists. cbn [snd]. split; [unfold tr1; cbn [app]; reflexivity|].
       split; [exact Hfv3|].
       rewrite !count_fetch_app, Hadd0. cbn. lia. }
  destruct (proxy_run w url ((tr1 ++ added) ++ [CheckHost url true]))
    as (out & added2 & Hproxy & Hadd2).
  rewrite Hproxy. cbn [snd].
  destruct (follow_redirects_extends w (S MAX_REDIRECTS) url None
              ((tr1 ++ added) ++ [CheckHost url true])) as (added1 & Hext).
  assert (Hhead : exists rest,
             snd (follow_redirects (S MAX_REDIRECTS) url None w
                    ((tr1 ++ added) ++ [CheckHost url true])) ++ added2
             = VerifySignature url sig true :: rest).
  { rewrite Hext. eexists. unfold tr1. cbn [app]. reflexivity. }
  destruct Hhead as (rest & Hrest). exists rest.
  split; [exact Hrest|]. clear Hrest Hext. split.
  - apply fetches_validated_app.
    + apply follow_redirects_validated; [exact Hfv3|].
      split; [exact Eallowed|]. split.
      * apply in_or_app. left. apply in_or_app. left. right. now left.
      * exists tr1, (added ++ [CheckHost url true]). rewrite app_assoc.
        split; [reflexivity|]. split; [now rewrite Hrun|].
        apply in_or_app. right. now left.
    + eapply Forall_impl; [|exact Hadd2]. intros ev [H _]. exact H.
  - rewrite count_fetch_app.
    assert (H2 : count_fetch added2 = 0%nat).
    { clear - Hadd2. induction Hadd2 as [|ev l [Hev _] _ IH]; [reflexivity|].
      unfold count_fetch in *. cbn [filter]. rewrite Hev. exact IH. }
    rewrite H2.
    pose proof (follow_redirects_count w (S MAX_REDIRECTS) url None
                  ((tr1 ++ added) ++ [CheckHost url true])) as Hc.
    rewrite !count_fetch_app, Hadd0 in Hc.
    change (count_fetch tr1) with 0%nat in Hc.
    change (count_fetch [CheckHost url true]) with 0%nat in Hc. lia.
Qed.

End HandlerFacts.

(* ================================================================== *)
(** ** The signature gate *)

(** C6, as stated, fails on the code: a request without [sig] is
    refused with status 400, the status of a malformed request, not with
    an authorization error. *)
Lemma signature_gate_counterexample :
  exists e,
    @handler ref_platform (mkQuery (QString example_url) QAbsent) "secret"
             silent_world []
    = (Throw e, [])
    /\ e = H3Error 400 ("Missing required " ++ dq ++ "sig" ++ dq ++ " query parameter.")
    /\ is_authorization_error e = false.
Proof. eexists. split; [reflexivity | split; reflexivity]. Qed.

(** C6 (amended): a request whose [url] or [sig] parameter is missing
    or empty is rejected with status 400 and an empty trace; a request
    whose tag does not verify, the secret being unset or the tag being
    wrong, is rejected with the authorization error 403; in both cases
    the trace holds no URL-policy check, no DNS lookup and no fetch; and
    in every run each URL-policy check, host check, DNS lookup and fetch
    comes after the successful verification of the signature, which is
    the first event of the trace. *)
Theorem signature_gate (P : Platform) (w : World) (q : Query) (secret : string) :
  ((first_value (q_url q) = None \/ first_value (q_url q) = Some ""
    \/ first_value (q_sig q) = None \/ first_value (q_sig q) = Some "") ->
   exists m, handler q secret w [] = (Throw (H3Error 400 m), []))
  /\ (forall url sig,
        first_value (q_url q) = Some url -> url <> "" ->
        first_value (q_sig q) = Some sig -> sig <> "" ->
        verifyImageUrl url sig secret = false ->
        exists tr,
          handler q secret w [] = (Throw (H3Error 403 "Invalid signature."), tr)
          /\ Forall (fun ev => is_io ev = false /\ is_guard ev = false) tr)
  /\ (forall pre ev post,
        snd (handler q secret w []) = (pre ++ ev :: post)%list ->
        is_io ev = true \/ is_guard ev = true ->
        exists url sig pre',
          pre = VerifySignature url sig true :: pre'
          /\ verifyImageUrl url sig secret = true).
Proof.
  split; [|split].
  - intros Hmissing. unfold handler.
    destruct (first_value (q_url q)) as [url|]; [|eexists; reflexivity].
    destruct url as [|c url]; [eexists; reflexivity|]. cbn [truthy negb].
    destruct (first_value (q_sig q)) as [sig|]; [|eexists; reflexivity].
    destruct sig as [|d sig]; [eexists; reflexivity|].
    exfalso. destruct Hmissing as [H|[H|[H|H]]]; discriminate H.
  - intros url sig Hu Hne Hs Hnes Hv.
    apply handler_gate_closed. unfold gate_verdict.
    apply truthy_true_iff in Hne, Hnes.
    rewrite Hu, Hne, Hs, Hnes, Hv. reflexivity.
  - intros pre ev post Htr Hev.
    destruct (gate_verdict q secret) as [e|] eqn:Eg.
    + exfalso.
      destruct (handler_gate_closed w q secret e Eg) as (tr & Hrun & Hquiet).
      rewrite Hrun in Htr. cbn [snd] in Htr. subst tr.
      apply Forall_app in Hquiet. destruct Hquiet as [_ Hq].
      inversion Hq as [|x l [Hio Hg] _]; subst.
      destruct Hev; congruence.
    + destruct (gate_verdict_None q secret Eg) as (url & sig & Hu & Htu & Hs & Hv).
      destruct (handler_trace_open w q secret url sig Hu Htu Hs Hv)
        as (rest & Hhead & _).
      rewrite Hhead in Htr.
      destruct pre as [|e0 pre'].
      * exfalso. cbn [app] in Htr. injection Htr as He _. subst ev.
        destruct Hev; discriminate.
      * cbn [app] in Htr. injection Htr as He _. subst e0.
        exists url, sig, pre'. split; [reflexivity | exact Hv].
Qed.

Lemma signature_gate_witness :
  exists tr,
    @handler ref_platform
       (mkQuery (QString example_url) (QString "deadbeef")) "secret"
       silent_world []
    = (Throw (H3Error 403 "Invalid signature."), tr)
    /\ Forall (fun ev => is_io ev = false /\ is_guard ev = false) tr.
Proof.
  assert (Hu : example_url <> "") by discriminate.
  assert (Hs : "deadbeef" <> "") by discriminate.
  assert (Hv : verifyImageUrl example_url "deadbeef" "secret" = false)
    by (vm_compute; reflexivity).
  exact (proj1 (proj2 (signature_gate ref_platform silent_world
                         (mkQuery (QString example_url) (QString "deadbeef"))
                         "secret"))
               example_url "deadbeef" eq_refl Hu eq_refl Hs Hv).
Defined.

(* ================================================================== *)
(** ** Redirects *)

(** C2: in every run of the handler, each request goes to a URL that
    [isAllowedImageUrl] accepted and that [resolveAndValidateHost]
    accepted at an earlier moment of the same run, both verdicts being
    in the trace before the request; this holds of the first URL and of
    every redirect target, which is the Location header resolved against
    the current URL.  In the scenario of the specification, a signed
    request answered by a redirect to http://127.0.0.1/admin ends with
    the 400 "Redirect to disallowed URL." and its trace holds one
    request, to the first URL, and nothing sent to the loopback
    address. *)
Theorem redirect_targets_validated :
  (forall (P : Platform) (w : World) (q : Query) (secret : string)
          (pre : Trace) (u : string) (post : Trace),
      snd (handler q secret w []) = (pre ++ Fetch u :: post)%list ->
      validated w u pre)
  /\ @handler ref_platform (signed_query evil_url "s3cret") "s3cret" evil_world []
     = (Throw (H3Error 400 "Redirect to disallowed URL."),
        [ VerifySignature evil_url (signImageUrl evil_url "s3cret") true;
          CheckUrl evil_url true;
          DnsLookup "evil.example";
          CheckHost evil_url true;
          Fetch evil_url;
          CheckUrl "http://127.0.0.1/admin" false ]).
Proof.
  split.
  - intros P w q secret pre u post Htr.
    destruct (gate_verdict q secret) as [e|] eqn:Eg.
    + exfalso.
      destruct (handler_gate_closed w q secret e Eg) as (tr & Hrun & Hquiet).
      rewrite Hrun in Htr. cbn [snd] in Htr. subst tr.
      apply Forall_app in Hquiet. destruct Hquiet as [_ Hq].
      inversion Hq as [|x l [Hio _] _]; subst. discriminate Hio.
    + destruct (gate_verdict_None q secret Eg) as (url & sig & Hu & Htu & Hs & Hv).
      destruct (handler_trace_open w q secret url sig Hu Htu Hs Hv)
        as (rest & _ & Hfv & _).
      exact (Hfv pre u post Htr).
  - vm_compute. reflexivity.
Qed.

Lemma redirect_targets_validated_witness :
  @validated ref_platform evil_world evil_url
     [ VerifySignature evil_url (signImageUrl evil_url "s3cret") true;
       CheckUrl evil_url true;
       DnsLookup "evil.example";
       CheckHost evil_url true ].
Proof.
  assert (Htr : snd (@handler ref_platform (signed_query evil_url "s3cret")
                       "s3cret" evil_world [])
                = ([ VerifySignature evil_url (signImageUrl evil_url "s3cret") true;
                     CheckUrl evil_url true;
                     DnsLookup "evil.example";
                     CheckHost evil_url true ]
                   ++ Fetch evil_url :: [CheckUrl "http://127.0.0.1/admin" false])%list)
    by (vm_compute; reflexivity).
  exact (proj1 redirect_targets_validated ref_platform evil_world
               (signed_query evil_url "s3cret") "s3cret" _ _ _ Htr).
Defined.

Section ChainFacts.
Context {P : Platform}.
Variable w : World.
Local Open Scope list_scope.








End ChainFacts.



(** The same server asked for [/2]: five redirects lead to the image,
    which is streamed. *)
Example chain_within_limit :
  fst (@handler ref_platform (signed_query (chain_hop 2) "s3cret") "s3cret"
         chain_world [])
  = Ret (SendStream small_body).
Proof. vm_compute. reflexivity. Qed.


(* ================================================================== *)
(** ** Content policy *)

(** What the content test of the handler rejects: a final 2xx response
    whose declared type (or the default, when none is declared) does not
    start with ["image/"] or holds the letters ["svg"]. *)
Lemma deliver_content_policy (P : Platform) (w : World) (r : Response) (tr : Trace) :
  is_redirect_status (status r) = false ->
  ok r = true ->
  (let contentType :=
     match headers_get (headers r) "content-type" with
     | Some ct => if truthy ct then ct else "application/octet-stream"
     | None => "application/octet-stream"
     end in
   negb (startsWith contentType "image/") || includes contentType "svg" = true) ->
  deliver (Some r) w tr
  = (Throw (H3Error 400 "URL does not point to an allowed image type."),
     (tr ++ cancel_events r)%list).
Proof.
  intros Hred Hok Hct. unfold deliver. rewrite Hred, Hok. cbn [negb].
  cbv zeta in Hct. rewrite Hct.
  unfold bind. rewrite cancel_body_run. reflexivity.
Qed.

(** C8, at its failing input: the content type [image/svg+xml] is
    refused with status 400, but the same media type written
    [image/SVG+xml] passes the test, which looks for the lower-case
    letters ["svg"]: the handler sets it as the Content-Type of its own
    response and streams the document. *)
Theorem svg_case_variant_streamed :
  fst (@handler ref_platform (signed_query img_url "s3cret") "s3cret"
         (serving svg_response) [])
  = Throw (H3Error 400 "URL does not point to an allowed image type.")
  /\ is_svg_media_type "image/SVG+xml" = true
  /\ @handler ref_platform (signed_query img_url "s3cret") "s3cret"
        (serving SVG_response) []
     = (Ret (SendStream small_body),
        [ VerifySignature img_url (signImageUrl img_url "s3cret") true;
          CheckUrl img_url true;
          DnsLookup "img.example";
          CheckHost img_url true;
          Fetch img_url;
          SetResponseHeaders (response_headers "image/SVG+xml") ]).
Proof. repeat split; vm_compute; reflexivity. Qed.

(* ================================================================== *)
(** ** Size limit and status *)

(** C9, as stated, fails on the code: for an image that declares no
    length and is one byte over the limit, the handler does not reject
    with 413; it sets the response headers and returns the stream, and
    the overrun then shows as the destruction of that stream with a
    plain error. *)
Lemma oversize_status_counterexample :
  @handler ref_platform (signed_query img_url "s3cret") "s3cret"
     (serving oversized_response) []
  = (Ret (SendStream oversized_body),
     [ VerifySignature img_url (signImageUrl img_url "s3cret") true;
       CheckUrl img_url true;
       DnsLookup "img.example";
       CheckHost img_url true;
       Fetch img_url;
       SetResponseHeaders (response_headers "image/png") ])
  /\ (MAX_SIZE < bytesRead (relay_run 16384 [UpstreamEmits] (relay_start oversized_body)))%N
  /\ limited (relay_run 16384 [UpstreamEmits] (relay_start oversized_body))
     = Destroyed "Image too large".
Proof. repeat split; vm_compute; reflexivity. Qed.

(** C9 (amended): when the response that ends the loop is a 2xx with
    an allowed image type and a Content-Length header whose number
    exceeds [MAX_SIZE], the request is rejected with status 413 and the
    body is cancelled, no byte of it being read; when instead the size
    is found over the limit while streaming, the handler has already
    returned the stream, and the failure is the destruction of both
    streams with the error "Image too large", at most [MAX_SIZE] bytes
    having been delivered. *)
Theorem oversize_rejection (P : Platform) (w : World) :
  (forall url tr r tr1 contentType contentLength n,
      follow_redirects (S MAX_REDIRECTS) url None w tr = (Ret (Some r), tr1) ->
      is_redirect_status (status r) = false ->
      ok r = true ->
      headers_get (headers r) "content-type" = Some contentType ->
      startsWith contentType "image/" = true ->
      includes contentType "svg" = false ->
      headers_get (headers r) "content-length" = Some contentLength ->
      parseInt contentLength = Some n ->
      (Z.of_N MAX_SIZE < n)%Z ->
      proxy url w tr
      = (Throw (H3Error 413 "Image too large."), (tr1 ++ cancel_events r)%list))
  /\ (forall highWaterMark b schedule,
        let rl := relay_run highWaterMark schedule (relay_start b) in
        (MAX_SIZE < bytesRead rl)%N ->
        limited rl = Destroyed "Image too large"
        /\ upstream rl = UpstreamDestroyed
        /\ (total_length (delivered rl) <= MAX_SIZE)%N).
Proof.
  split.
  - intros url tr r tr1 contentType contentLength n
           Hrun Hred Hok Hct Himg Hsvg Hcl Hn Hgt.
    assert (Htct : truthy contentType = true).
    { destruct contentType; [discriminate Himg | reflexivity]. }
    assert (Htcl : truthy contentLength = true).
    { destruct contentLength; [discriminate Hn | reflexivity]. }
    unfold proxy, try_catch. unfold bind at 1. rewrite Hrun.
    unfold deliver. rewrite Hred, Hok, Hct, Htct, Himg, Hsvg, Hcl, Htcl, Hn.
    cbn [negb orb andb exceeds_MAX_SIZE].
    apply Z.ltb_lt in Hgt. rewrite Hgt.
    unfold bind. rewrite cancel_body_run. reflexivity.
  - intros highWaterMark b schedule rl Hover.
    assert (Hinv : relay_inv rl) by (apply relay_run_inv, relay_start_inv).
    destruct (inv_over rl Hinv Hover) as [Hu Hl].
    pose proof (inv_cap rl Hinv).
    repeat split; [exact Hl | exact Hu | lia].
Qed.

Lemma oversize_rejection_witness :
  @proxy ref_platform img_url (serving declared_response) []
  = (Throw (H3Error 413 "Image too large."), [Fetch img_url; CancelBody]).
Proof.
  assert (Hgt : (Z.of_N MAX_SIZE < 10485761)%Z) by reflexivity.
  exact (proj1 (oversize_rejection ref_platform (serving declared_response))
               img_url [] declared_response [Fetch img_url]
               "image/png" "10485761" 10485761%Z
               eq_refl eq_refl eq_refl eq_refl eq_refl eq_refl eq_refl eq_refl Hgt).
Defined.

(* ================================================================== *)
(** * Further properties of the code *)

(** ** Strings *)

Lemma substring_split (s : string) (n : nat) :
  (n <= String.length s)%nat ->
  s = String.substring 0 n s ++ String.substring n (String.length s - n) s.
Proof.
  revert n. induction s as [|c s IH]; intros n Hn.
  - destruct n; reflexivity.
  - destruct n as [|n].
    + cbn [String.substring String.length Nat.sub String.append].
      f_equal. clear. induction s as [|d s IH]; [reflexivity|].
      cbn [String.length String.substring]. f_equal. exact IH.
    + cbn [String.substring String.length Nat.sub String.append].
      f_equal. apply IH. cbn [String.length] in Hn. lia.
Qed.

Lemma substring_suffix (pre p : string) :
  String.substring (String.length pre) (String.length p) (pre ++ p) = p.
Proof.
  induction pre as [|c pre IH]; cbn [String.length String.append].
  - clear. induction p as [|d p IH]; [reflexivity|].
    cbn [String.length String.substring]. f_equal. exact IH.
  - destruct p as [|d p]; cbn [String.substring]; exact IH.
Qed.

Lemma append_length (s t : string) :
  String.length (s ++ t) = (String.length s + String.length t)%nat.
Proof. induction s as [|c s IH]; simpl; [reflexivity | now rewrite IH]. Qed.

(** [s.endsWith(p)] holds exactly when [p] is a suffix of [s]. *)
Lemma endsWith_spec (s p : string) :
  endsWith s p = true <-> exists pre, s = pre ++ p.
Proof.
  unfold endsWith. rewrite andb_true_iff, Nat.leb_le, String.eqb_eq. split.
  - intros [Hle Hsub].
    exists (String.substring 0 (String.length s - String.length p) s).
    pose proof (substring_split s (String.length s - String.length p)) as Hs.
    replace (String.length s - (String.length s - String.length p))%nat
      with (String.length p) in Hs by lia.
    rewrite Hsub in Hs. apply Hs. lia.
  - intros (pre & ->). rewrite append_length. split; [lia|].
    replace (String.length pre + String.length p - String.length p)%nat
      with (String.length pre) by lia.
    apply substring_suffix.
Qed.

(** ** The signer's alphabet *)

Lemma hex_digit_lower (n : N) : (n < 16)%N -> is_lower_hex (Hmac.hex_digit n) = true.
Proof.
  intros H.
  assert (Hin : In n (map N.of_nat (seq 0 16))).
  { apply in_map_iff. exists (N.to_nat n). split; [apply N2Nat.id|].
    apply in_seq. lia. }
  revert n Hin H. 
  assert (Hall : forallb (fun n => is_lower_hex (Hmac.hex_digit n))
                         (map N.of_nat (seq 0 16)) = true) by reflexivity.
  rewrite forallb_forall in Hall. intros n Hin _. apply Hall, Hin.
Qed.

Lemma hex_lower (bs : bytes) :
  Forall (fun b => (b < 256)%N) bs ->
  Forall (fun c => is_lower_hex c = true) (list_ascii_of_string (Hmac.hex bs)).
Proof.
  induction 1 as [|b bs Hb _ IH]; [constructor|].
  cbn [Hmac.hex list_ascii_of_string].
  constructor; [|constructor; [|exact IH]].
  - apply hex_digit_lower.
    apply N.lt_le_trans with (N.shiftr 256 4); [|vm_compute; discriminate].
    rewrite !N.shiftr_div_pow2.
    change (2 ^ 4)%N with 16%N. 
    apply N.Div0.div_lt_upper_bound.
    change (16 * (256 / 16))%N with 256%N. exact Hb.
  - apply hex_digit_lower.
    change 0xF%N with (N.ones 4). rewrite N.land_ones.
    apply N.mod_lt. discriminate.
Qed.

Lemma be_bytes_small (n : nat) (x : N) :
  Forall (fun b => (b < 256)%N) (Sha256.be_bytes n x).
Proof.
  unfold Sha256.be_bytes. apply Forall_forall. intros b Hb.
  apply in_map_iff in Hb. destruct Hb as (i & <- & _).
  change 0xFF%N with (N.ones 8). rewrite N.land_ones.
  apply N.mod_lt. discriminate.
Qed.

Lemma sha256_small (msg : bytes) :
  Forall (fun b => (b < 256)%N) (Sha256.sha256 msg).
Proof.
  unfold Sha256.sha256, Sha256.digest_bytes.
  repeat (apply Forall_app; split); apply be_bytes_small.
Qed.

(** X1 ([signImageUrl]): a tag is always 64 characters long, each a
    lower-case hexadecimal digit, whatever the URL and the secret. *)
Theorem signImageUrl_hex64 (url secret : string) :
  String.length (signImageUrl url secret) = 64%nat
  /\ Forall (fun c => is_lower_hex c = true)
            (list_ascii_of_string (signImageUrl url secret)).
Proof.
  split; [apply signImageUrl_length|].
  unfold signImageUrl, Hmac.hmac_sha256. apply hex_lower, sha256_small.
Qed.

(** X2 ([verifyImageUrl]): what the verifier accepts is a string of 64
    lower-case hexadecimal digits, and only under a non-empty secret:
    upper-case, shortened or padded spellings of the right tag are
    refused. *)
Theorem verifyImageUrl_accepts_only_tags (url signature secret : string) :
  verifyImageUrl url signature secret = true ->
  String.length signature = 64%nat
  /\ Forall (fun c => is_lower_hex c = true) (list_ascii_of_string signature)
  /\ secret <> "".
Proof.
  intros H. apply verifyImageUrl_true_iff in H. destruct H as (_ & Hs & <-).
  split; [apply signImageUrl_length|]. split; [|exact Hs].
  unfold signImageUrl, Hmac.hmac_sha256. apply hex_lower, sha256_small.
Qed.

Lemma verifyImageUrl_accepts_only_tags_witness :
  String.length (signImageUrl example_url "abc") = 64%nat.
Proof.
  assert (H : verifyImageUrl example_url (signImageUrl example_url "abc") "abc" = true)
    by (vm_compute; reflexivity).
  exact (proj1 (verifyImageUrl_accepts_only_tags example_url
                  (signImageUrl example_url "abc") "abc" H)).
Defined.

(** ** Trusted domains and proxied URLs *)

Section GuardMore.
Context {P : Platform}.

Lemma trusted_domains_nonempty :
  Forall (fun d => d <> "") TRUSTED_IMAGE_DOMAINS.
Proof. repeat constructor; discriminate. Qed.

(** X3 ([isTrustedImageDomain]): a URL is trusted exactly when it
    parses and its lower-cased host is a listed domain or ends with a
    dot followed by one: the match is on whole labels, so a host that
    merely ends in the letters of a listed domain is not trusted. *)
Theorem isTrustedImageDomain_label_boundary (url : string) :
  isTrustedImageDomain url = true <->
  exists parsed domain,
    URL_parse url = Some parsed
    /\ In domain TRUSTED_IMAGE_DOMAINS
    /\ (toLowerCase (hostname parsed) = domain
        \/ exists sub, toLowerCase (hostname parsed) = sub ++ "." ++ domain).
Proof.
  unfold isTrustedImageDomain. split.
  - destruct (URL_parse url) as [parsed|]; [|discriminate].
    destruct (negb (truthy (hostname parsed))); [discriminate|].
    intros H. apply existsb_exists in H. destruct H as (domain & Hin & Hd).
    exists parsed, domain. split; [reflexivity|]. split; [exact Hin|].
    apply orb_true_iff in Hd. destruct Hd as [Hd|Hd].
    + left. apply String.eqb_eq. exact Hd.
    + right. apply endsWith_spec. exact Hd.
  - intros (parsed & domain & -> & Hin & Hd).
    assert (Hne : domain <> "").
    { pose proof trusted_domains_nonempty as Hall.
      rewrite Forall_forall in Hall. apply Hall, Hin. }
    assert (Ht : truthy (hostname parsed) = true).
    { apply truthy_true_iff. intros E. rewrite E in Hd. cbn [toLowerCase] in Hd.
      destruct Hd as [Hd|(sub & Hd)].
      - apply Hne. symmetry. exact Hd.
      - destruct sub; discriminate Hd. }
    rewrite Ht. cbn [negb].
    apply existsb_exists. exists domain. split; [exact Hin|].
    apply orb_true_iff. destruct Hd as [Hd|Hd].
    + left. apply String.eqb_eq. exact Hd.
    + right. apply endsWith_spec. exact Hd.
Qed.

(** X4 ([toProxiedImageUrl]): a URL on a trusted domain that is not
    protocol-relative is returned as it is, unsigned, whatever its
    scheme and whatever the secret. *)
Theorem toProxiedImageUrl_trusted_verbatim (url secret : string) :
  startsWith url "//" = false ->
  isTrustedImageDomain url = true ->
  toProxiedImageUrl url secret = url.
Proof.
  intros Hs Ht. unfold toProxiedImageUrl.
  destruct (negb (truthy url) || startsWith url "#" || startsWith url "data:");
    [reflexivity|].
  rewrite Hs.
  destruct (URL_parse url) as [parsed|] eqn:Ep; [|reflexivity].
  destruct (negb (String.eqb (protocol parsed) "http:")
            && negb (String.eqb (protocol parsed) "https:")); [reflexivity|].
  rewrite Ht. reflexivity.
Qed.

End GuardMore.

Lemma toProxiedImageUrl_trusted_verbatim_witness :
  @toProxiedImageUrl ref_platform "https://raw.githubusercontent.com/o/r/main/logo.png" "abc"
  = "https://raw.githubusercontent.com/o/r/main/logo.png".
Proof.
  exact (@toProxiedImageUrl_trusted_verbatim ref_platform
           "https://raw.githubusercontent.com/o/r/main/logo.png" "abc" eq_refl eq_refl).
Defined.

Lemma isTrustedImageDomain_label_boundary_witness :
  @isTrustedImageDomain ref_platform "https://Camo.GitHub.com/x.png" = true.
Proof.
  apply (proj2 (@isTrustedImageDomain_label_boundary ref_platform
                  "https://Camo.GitHub.com/x.png")).
  exists (mkURL "https:" "camo.github.com" "https://camo.github.com/x.png"), "github.com".
  split; [reflexivity|]. split; [vm_compute; tauto|].
  right. exists "camo". reflexivity.
Defined.

Section ProxiedMore.
Context {P : Platform}.

(** When [toProxiedImageUrl] answers neither its argument nor the
    normalised URL, it has built a proxy path. *)
Lemma toProxiedImageUrl_proxied (url secret : string) :
  let n := if startsWith url "//" then "https:" ++ url else url in
  toProxiedImageUrl url secret <> url ->
  toProxiedImageUrl url secret <> n ->
  exists parsed,
    URL_parse n = Some parsed
    /\ (protocol parsed = "http:" \/ protocol parsed = "https:")
    /\ isTrustedImageDomain n = false
    /\ toProxiedImageUrl url secret
       = "/api/registry/image-proxy?url=" ++ encodeURIComponent n
         ++ "&sig=" ++ signImageUrl n secret.
Proof.
  intros n. unfold toProxiedImageUrl. fold n.
  destruct (negb (truthy url) || startsWith url "#" || startsWith url "data:");
    [congruence|].
  destruct (URL_parse n) as [parsed|]; [|congruence].
  destruct (String.eqb (protocol parsed) "http:") eqn:E1;
    destruct (String.eqb (protocol parsed) "https:") eqn:E2;
    cbn [negb andb]; try congruence.
  all: destruct (isTrustedImageDomain n) eqn:Et; [congruence|].
  all: intros _ _; exists parsed; split; [reflexivity|].
  all: split; [first [left; apply String.eqb_eq; assumption
                     | right; apply String.eqb_eq; assumption]|].
  all: split; reflexivity.
Qed.

(** X5 ([toProxiedImageUrl]): a URL is rewritten only when its
    normalised form parses as http or https and is not on a trusted
    domain; the result is then the proxy path carrying the encoded URL
    and its tag, and with a non-empty secret the verifier accepts that
    pair. *)
Theorem toProxiedImageUrl_signs_only_untrusted_http (url secret : string) :
  let n := if startsWith url "//" then "https:" ++ url else url in
  toProxiedImageUrl url secret <> url ->
  toProxiedImageUrl url secret <> n ->
  exists parsed,
    URL_parse n = Some parsed
    /\ (protocol parsed = "http:" \/ protocol parsed = "https:")
    /\ isTrustedImageDomain n = false
    /\ toProxiedImageUrl url secret
       = "/api/registry/image-proxy?url=" ++ encodeURIComponent n
         ++ "&sig=" ++ signImageUrl n secret
    /\ (secret <> "" -> verifyImageUrl n (signImageUrl n secret) secret = true).
Proof.
  intros n H1 H2.
  destruct (toProxiedImageUrl_proxied url secret H1 H2) as (parsed & Hp & Hh & Ht & Hr).
  exists parsed. repeat (split; [assumption|]).
  intros Hs. apply verifyImageUrl_true_iff. repeat split; auto.
  apply truthy_true_iff, signImageUrl_truthy.
Qed.

End ProxiedMore.

Lemma upper_hex_digit_ok (n : N) :
  (n < 16)%N -> is_uri_component_char (upper_hex_digit n) = true.
Proof.
  intros H.
  assert (Hin : In n (map N.of_nat (seq 0 16))).
  { apply in_map_iff. exists (N.to_nat n). split; [apply N2Nat.id|].
    apply in_seq. lia. }
  assert (Hall : forallb (fun n => is_uri_component_char (upper_hex_digit n))
                         (map N.of_nat (seq 0 16)) = true) by reflexivity.
  rewrite forallb_forall in Hall. apply Hall, Hin.
Qed.

Lemma encode_char_ok (c : ascii) :
  Forall (fun d => is_uri_component_char d = true)
         (list_ascii_of_string (encodeURIComponent (String c EmptyString))).
Proof.
  cbn [encodeURIComponent].
  destruct (is_unreserved c) eqn:Eu; cbn [list_ascii_of_string].
  - constructor; [|constructor].
    unfold is_uri_component_char. rewrite Eu. reflexivity.
  - constructor; [reflexivity|].
    constructor; [|constructor; [|constructor]].
    + apply upper_hex_digit_ok.
      assert (Hc : (N_of_ascii c < 256)%N) by apply N_ascii_bounded.
      rewrite N.shiftr_div_pow2. change (2 ^ 4)%N with 16%N.
      apply N.Div0.div_lt_upper_bound. exact Hc.
    + apply upper_hex_digit_ok.
      change 15%N with (N.ones 4). rewrite N.land_ones.
      apply N.mod_lt. discriminate.
Qed.

Lemma encodeURIComponent_cons (c : ascii) (s : string) :
  encodeURIComponent (String c s)
  = encodeURIComponent (String c EmptyString) ++ encodeURIComponent s.
Proof.
  cbn [encodeURIComponent]. destruct (is_unreserved c); reflexivity.
Qed.

Lemma list_ascii_app (s t : string) :
  list_ascii_of_string (s ++ t)
  = (list_ascii_of_string s ++ list_ascii_of_string t)%list.
Proof. induction s as [|c s IH]; simpl; [reflexivity | now rewrite IH]. Qed.

(** What [encodeURIComponent] writes: unreserved characters and percent
    escapes, so none of the characters that delimit a query. *)
Lemma encodeURIComponent_alphabet (s : string) :
  Forall (fun c => is_uri_component_char c = true)
         (list_ascii_of_string (encodeURIComponent s))
  /\ (forall c, In c (list_ascii_of_string (encodeURIComponent s)) ->
                ~ In c (list_ascii_of_string "&=?#/+ :")).
Proof.
  assert (H : Forall (fun c => is_uri_component_char c = true)
                     (list_ascii_of_string (encodeURIComponent s))).
  { induction s as [|c s IH]; [constructor|].
    rewrite encodeURIComponent_cons, list_ascii_app.
    apply Forall_app. split; [apply encode_char_ok | exact IH]. }
  split; [exact H|].
  intros c Hc Hbad. rewrite Forall_forall in H. specialize (H c Hc).
  cbn in Hbad.
  repeat (destruct Hbad as [<-|Hbad]; [discriminate H|]). exact Hbad.
Qed.

Section ProxiedQuery.
Context {P : Platform}.

(** X6 ([toProxiedImageUrl]): in a proxy path the [url] value holds no
    character that ends or splits a query field, and the [sig] value is
    64 lower-case hexadecimal digits: the query has exactly these two
    fields however the README wrote the URL. *)
Theorem toProxiedImageUrl_query_fields (url secret : string) :
  let n := if startsWith url "//" then "https:" ++ url else url in
  toProxiedImageUrl url secret <> url ->
  toProxiedImageUrl url secret <> n ->
  exists value tag,
    toProxiedImageUrl url secret
    = "/api/registry/image-proxy?url=" ++ value ++ "&sig=" ++ tag
    /\ (forall c, In c (list_ascii_of_string value) ->
                  ~ In c (list_ascii_of_string "&=?#/+ :"))
    /\ String.length tag = 64%nat
    /\ Forall (fun c => is_lower_hex c = true) (list_ascii_of_string tag).
Proof.
  intros n H1 H2.
  destruct (toProxiedImageUrl_proxied url secret H1 H2) as (parsed & _ & _ & _ & Hr).
  exists (encodeURIComponent n), (signImageUrl n secret).
  split; [exact Hr|].
  split; [apply encodeURIComponent_alphabet|].
  split; [apply signImageUrl_length|].
  unfold signImageUrl, Hmac.hmac_sha256. apply hex_lower, sha256_small.
Qed.

End ProxiedQuery.

Section Compose.
Context {P : Platform}.

(** X7 ([isAllowedImageUrl], [resolveAndValidateHost]): a URL the
    guard allows and whose host is an IP literal passes host validation
    at once: no lookup is made and the trace is left as it was. *)
Theorem allowed_literal_needs_no_lookup
    (url : string) (parsed : URL) (w : World) (tr : Trace) :
  URL_parse url = Some parsed ->
  isAllowedImageUrl url = true ->
  classify (toLowerCase (hostname parsed)) <> Invalid ->
  unbracket (unbracket (toLowerCase (hostname parsed)))
  = unbracket (toLowerCase (hostname parsed)) ->
  resolveAndValidateHost url w tr = (Ret true, tr).
Proof.
  intros Hp Ha Hc Hu.
  destruct (proj1 (isAllowedImageUrl_true_iff url) Ha)
    as (parsed' & Hp' & _ & Hh & _ & _ & _ & Hcls).
  rewrite Hp in Hp'. injection Hp' as <-.
  rewrite (resolveAndValidateHost_literal url parsed w tr Hp Hh Hc Hu).
  rewrite (Hcls Hc). reflexivity.
Qed.

End Compose.

Lemma allowed_literal_needs_no_lookup_witness :
  @resolveAndValidateHost ref_platform "http://93.184.216.34/x.png" silent_world []
  = (Ret true, []).
Proof.
  assert (Hc : @classify ref_platform "93.184.216.34" <> Invalid)
    by (vm_compute; discriminate).
  exact (@allowed_literal_needs_no_lookup ref_platform "http://93.184.216.34/x.png"
           (mkURL "http:" "93.184.216.34" "http://93.184.216.34/x.png")
           silent_world [] eq_refl eq_refl Hc eq_refl).
Defined.

Lemma toProxiedImageUrl_signs_only_untrusted_http_witness :
  exists parsed,
    @URL_parse ref_platform "https://example.com/x.png" = Some parsed
    /\ (protocol parsed = "http:" \/ protocol parsed = "https:")
    /\ @isTrustedImageDomain ref_platform "https://example.com/x.png" = false
    /\ @toProxiedImageUrl ref_platform "//example.com/x.png" "abc"
       = "/api/registry/image-proxy?url=" ++ encodeURIComponent "https://example.com/x.png"
         ++ "&sig=" ++ signImageUrl "https://example.com/x.png" "abc"
    /\ ("abc" <> "" ->
        verifyImageUrl "https://example.com/x.png"
          (signImageUrl "https://example.com/x.png" "abc") "abc" = true).
Proof.
  assert (H1 : @toProxiedImageUrl ref_platform "//example.com/x.png" "abc"
               <> "//example.com/x.png") by (vm_compute; discriminate).
  assert (H2 : @toProxiedImageUrl ref_platform "//example.com/x.png" "abc"
               <> "https:" ++ "//example.com/x.png") by (vm_compute; discriminate).
  exact (@toProxiedImageUrl_signs_only_untrusted_http ref_platform
           "//example.com/x.png" "abc" H1 H2).
Defined.

Lemma toProxiedImageUrl_query_fields_witness :
  exists value tag,
    @toProxiedImageUrl ref_platform "http://example.com/a b.png?x=1&y=2" "abc"
    = "/api/registry/image-proxy?url=" ++ value ++ "&sig=" ++ tag
    /\ (forall c, In c (list_ascii_of_string value) ->
                  ~ In c (list_ascii_of_string "&=?#/+ :"))
    /\ String.length tag = 64%nat
    /\ Forall (fun c => is_lower_hex c = true) (list_ascii_of_string tag).
Proof.
  assert (H1 : @toProxiedImageUrl ref_platform "http://example.com/a b.png?x=1&y=2" "abc"
               <> "http://example.com/a b.png?x=1&y=2") by (vm_compute; discriminate).
  exact (@toProxiedImageUrl_query_fields ref_platform
           "http://example.com/a b.png?x=1&y=2" "abc" H1 H1).
Defined.

(** ** Outcomes of the handler *)

Section OutcomeFacts.
Context {P : Platform}.
Variable w : World.
Local Open Scope list_scope.

(** How the loop can end. *)
Lemma follow_redirects_outcome (n : nat) :
  forall currentUrl response tr,
    match fst (follow_redirects n currentUrl response w tr) with
    | Ret _ => True
    | Throw (H3Error c m) => c = 400%N /\ m = "Redirect to disallowed URL."
    | Throw (JsError _) => True
    end.
Proof.
  induction n as [|n IH]; intros currentUrl response tr.
  - exact I.
  - rewrite follow_redirects_step. cbv zeta.
    destruct (http_fetch w tr currentUrl) as [r|]; [|exact I].
    destruct (negb (is_redirect_status (status r))); [exact I|].
    destruct (headers_get (headers r) "location") as [location|]; [|exact I].
    destruct (negb (truthy location)); [exact I|].
    destruct (URL_resolve location currentUrl) as [target|]; [|exact I].
    destruct (negb (isAllowedImageUrl (href target))); [split; reflexivity|].
    destruct (resolveAndValidateHost_run w (href target)
                ((tr ++ [Fetch currentUrl])
                 ++ [CheckUrl (href target) (isAllowedImageUrl (href target))]))
      as (safe & added & Hrun & _).
    rewrite Hrun.
    destruct (negb safe); [split; reflexivity|].
    apply IH.
Qed.

(** A final response that is not a redirect is the answer to the last
    request of the loop. *)
Lemma follow_redirects_final (n : nat) :
  forall currentUrl response tr r tr1,
    follow_redirects n currentUrl response w tr = (Ret (Some r), tr1) ->
    is_redirect_status (status r) = false ->
    (response = Some r /\ tr1 = tr)
    \/ exists mid u,
         http_fetch w (tr ++ mid) u = Some r /\ tr1 = (tr ++ mid) ++ [Fetch u].
Proof.
  induction n as [|n IH]; intros currentUrl response tr r tr1 Hrun Hnr.
  - left. cbn in Hrun. unfold ret in Hrun. injection Hrun as -> ->. auto.
  - right. rewrite follow_redirects_step in Hrun. cbv zeta in Hrun.
    destruct (http_fetch w tr currentUrl) as [r0|] eqn:Hf; [|discriminate].
    assert (Hhere : forall x : Outcome (option Response) * Trace,
               x = (Ret (Some r0), tr ++ [Fetch currentUrl]) ->
               x = (Ret (Some r), tr1) ->
               exists mid u,
                 http_fetch w (tr ++ mid) u = Some r /\ tr1 = (tr ++ mid) ++ [Fetch u]).
    { intros x -> E. injection E as -> <-. exists [], currentUrl.
      rewrite app_nil_r. auto. }
    destruct (negb (is_redirect_status (status r0))) eqn:Er0;
      [eapply Hhere; [reflexivity | exact Hrun]|].
    destruct (headers_get (headers r0) "location") as [location|];
      [|eapply Hhere; [reflexivity | exact Hrun]].
    destruct (negb (truthy location));
      [eapply Hhere; [reflexivity | exact Hrun]|].
    destruct (URL_resolve location currentUrl) as [target|]; [|discriminate].
    destruct (negb (isAllowedImageUrl (href target))); [discriminate|].
    destruct (resolveAndValidateHost_run w (href target)
                ((tr ++ [Fetch currentUrl])
                 ++ [CheckUrl (href target) (isAllowedImageUrl (href target))]))
      as (safe & added & Hv & _).
    rewrite Hv in Hrun.
    destruct (negb safe); [discriminate|].
    apply IH in Hrun; [|exact Hnr].
    destruct Hrun as [[E _]|(mid & u & Hfu & ->)].
    + injection E as ->. apply negb_false_iff in Er0. congruence.
    + exists ((([Fetch currentUrl]
                 ++ [CheckUrl (href target) (isAllowedImageUrl (href target))])
                ++ added ++ [CheckHost (href target) safe] ++ cancel_events r0)
               ++ mid), u.
      assert (E : tr ++ (([Fetch currentUrl]
                 ++ [CheckUrl (href target) (isAllowedImageUrl (href target))])
                ++ added ++ [CheckHost (href target) safe] ++ cancel_events r0)
               ++ mid
              = (((((tr ++ [Fetch currentUrl])
                    ++ [CheckUrl (href target) (isAllowedImageUrl (href target))])
                   ++ added) ++ [CheckHost (href target) safe])
                 ++ cancel_events r0) ++ mid).
      { repeat rewrite <- app_assoc. reflexivity. }
      rewrite E. split; [exact Hfu | reflexivity].
Qed.

(** What a delivery that succeeds has checked. *)
Lemma deliver_success (response : option Response) (tr tr' : Trace) (b : Body) :
  deliver response w tr = (Ret (SendStream b), tr') ->
  exists r,
    response = Some r
    /\ is_redirect_status (status r) = false
    /\ ok r = true
    /\ startsWith (declared_content_type r) "image/" = true
    /\ includes (declared_content_type r) "svg" = false
    /\ (forall cl n, headers_get (headers r) "content-length" = Some cl ->
                     parseInt cl = Some n -> (n <= Z.of_N MAX_SIZE)%Z)
    /\ body r = Some b
    /\ tr' = tr ++ [SetResponseHeaders (response_headers (declared_content_type r))].
Proof.
  unfold deliver. destruct response as [r|]; [|discriminate].
  destruct (is_redirect_status (status r)) eqn:Hred.
  { unfold bind. rewrite cancel_body_run. discriminate. }
  destruct (ok r) eqn:Hok; cbn [negb].
  2: { unfold bind. rewrite cancel_body_run. discriminate. }
  fold (declared_content_type r).
  destruct (startsWith (declared_content_type r) "image/") eqn:Himg; cbn [negb orb].
  2: { unfold bind. rewrite cancel_body_run. discriminate. }
  destruct (includes (declared_content_type r) "svg") eqn:Hsvg.
  { unfold bind. rewrite cancel_body_run. discriminate. }
  destruct (headers_get (headers r) "content-length") as [cl|] eqn:Hcl.
  - destruct (truthy cl && exceeds_MAX_SIZE (parseInt cl)) eqn:Hbig.
    { unfold bind. rewrite cancel_body_run. discriminate. }
    destruct (body r) as [b0|] eqn:Hb; [|discriminate].
    unfold bind, emit, ret. intros E. injection E as -> <-.
    exists r. repeat split; auto.
    intros cl' n E Hn. rewrite Hcl in E. injection E as <-.
    assert (Ht : truthy cl = true).
    { destruct cl; [discriminate Hn | reflexivity]. }
    rewrite Ht, Hn in Hbig. cbn [andb exceeds_MAX_SIZE] in Hbig.
    apply Z.ltb_ge in Hbig. exact Hbig.
  - destruct (body r) as [b0|] eqn:Hb; [|discriminate].
    unfold bind, emit, ret. intros E. injection E as -> <-.
    exists r. repeat split; auto.
    intros cl n E. rewrite Hcl in E. discriminate E.
Qed.

(** The statuses a delivery rejects with. *)
Lemma deliver_statuses (response : option Response) (tr : Trace) :
  match fst (deliver response w tr) with
  | Ret _ => True
  | Throw (H3Error c _) => In c [400; 404; 413; 502]%N
  | Throw (JsError _) => False
  end.
Proof.
  unfold deliver. destruct response as [r|]; [|cbn; tauto].
  destruct (is_redirect_status (status r)).
  { unfold bind. rewrite cancel_body_run. cbn. tauto. }
  destruct (negb (ok r)).
  { unfold bind. rewrite cancel_body_run. unfold throw, createError. cbn [fst].
    destruct (status r =? 404)%N; cbn [In]; tauto. }
  match goal with |- context [if ?c then _ else _] => destruct c end.
  { unfold bind. rewrite cancel_body_run. cbn. tauto. }
  match goal with |- context [if ?c then _ else _] => destruct c end.
  { unfold bind. rewrite cancel_body_run. cbn. tauto. }
  destruct (body r); [exact I | cbn; tauto].
Qed.

Lemma proxy_statuses (url : string) (tr : Trace) :
  match fst (proxy url w tr) with
  | Ret _ => True
  | Throw (H3Error c _) => In c [400; 404; 413; 502]%N
  | Throw (JsError _) => False
  end.
Proof.
  unfold proxy, try_catch. unfold bind at 1.
  pose proof (follow_redirects_outcome (S MAX_REDIRECTS) url None tr) as Hf.
  destruct (follow_redirects (S MAX_REDIRECTS) url None w tr) as [[response|e] tr1].
  - pose proof (deliver_statuses response tr1) as Hd.
    destruct (deliver response w tr1) as [[a|[c m|name]] tr2]; cbn [fst] in *;
      try exact I; try exact Hd. destruct Hd.
  - cbn [fst] in Hf. destruct e as [c m|name]; cbn [fst throw].
    + destruct Hf as [-> _]. cbn. tauto.
    + cbn. tauto.
Qed.

Lemma proxy_success (url : string) (tr tr' : Trace) (b : Body) :
  proxy url w tr = (Ret (SendStream b), tr') ->
  exists mid u r,
    http_fetch w (tr ++ mid) u = Some r
    /\ ok r = true
    /\ startsWith (declared_content_type r) "image/" = true
    /\ includes (declared_content_type r) "svg" = false
    /\ (forall cl n, headers_get (headers r) "content-length" = Some cl ->
                     parseInt cl = Some n -> (n <= Z.of_N MAX_SIZE)%Z)
    /\ body r = Some b
    /\ tr' = (tr ++ mid)
             ++ [Fetch u; SetResponseHeaders (response_headers (declared_content_type r))].
Proof.
  unfold proxy, try_catch. unfold bind at 1.
  destruct (follow_redirects (S MAX_REDIRECTS) url None w tr) as [[response|e] tr1] eqn:Hf.
  2: { destruct e; discriminate. }
  destruct (deliver response w tr1) as [[a|[c m|name]] tr2] eqn:Hd; try discriminate.
  intros E. injection E as -> ->.
  apply deliver_success in Hd.
  destruct Hd as (r & -> & Hnr & Hok & Himg & Hsvg & Hcl & Hb & ->).
  apply follow_redirects_final in Hf; [|exact Hnr].
  destruct Hf as [[E _]|(mid & u & Hfu & ->)]; [discriminate E|].
  exists mid, u, r. rewrite <- !app_assoc. repeat split; auto.
Qed.

End OutcomeFacts.

Section HandlerMore.
Context {P : Platform}.
Variable w : World.
Local Open Scope list_scope.

(** What the handler's own code does: it returns the stream, or throws
    an H3 error with one of five statuses. *)
Lemma handler_outcomes (q : Query) (secret : string) :
  match fst (handler q secret w []) with
  | Ret (SendStream _) => True
  | Throw (H3Error c _) => In c proxy_error_statuses
  | Throw (JsError _) => False
  end.
Proof.
  destruct (gate_verdict q secret) as [e|] eqn:Eg.
  - destruct (handler_gate_closed w q secret e Eg) as (tr & Hrun & _).
    rewrite Hrun. cbn [fst].
    unfold gate_verdict in Eg.
    repeat match type of Eg with
           | context [match ?x with _ => _ end] => destruct x
           end; try discriminate Eg; injection Eg as <-;
      unfold createError, proxy_error_statuses; cbn [In]; tauto.
  - destruct (gate_verdict_None q secret Eg) as (url & sig & Hu & Htu & Hs & Hv).
    rewrite (handler_gate_open w q secret url sig Hu Htu Hs Hv). cbv zeta.
    destruct (negb (isAllowedImageUrl url)).
    { unfold createError, proxy_error_statuses. cbn [fst In]. tauto. }
    destruct (resolveAndValidateHost_run w url
                [VerifySignature url sig true; CheckUrl url (isAllowedImageUrl url)])
      as (safe & added & Hrun & _).
    rewrite Hrun.
    destruct (negb safe).
    { unfold createError, proxy_error_statuses. cbn [fst In]. tauto. }
    pose proof (proxy_statuses w url
                  (([VerifySignature url sig true; CheckUrl url (isAllowedImageUrl url)]
                    ++ added) ++ [CheckHost url safe])) as Hp.
    destruct (fst (proxy url w _)) as [[b]|[c m|name]]; try exact I; try exact Hp.
    unfold proxy_error_statuses. cbn [In] in *. tauto.
Qed.

(** X8 (image-proxy handler): the promise of the handler is rejected in
    two ways only.  With an H3 error of status 400, 403, 404, 413 or
    502, thrown by the handler's own code.  Or with a plain error, one
    without status, and this exactly when the handler has returned the
    stream and the relay is destroyed (a body over [MAX_SIZE], or an
    error of the upstream): the promise of [sendStream] is returned
    without [await], so the [catch] of the handler does not turn that
    error into a 502. *)
Theorem handler_error_statuses (highWaterMark : N) (schedule : list Action)
    (q : Query) (secret : string) :
  match fst (handler_promise highWaterMark schedule q secret w []) with
  | Pending | Fulfilled => True
  | Rejected (H3Error c m) =>
      In c proxy_error_statuses
      /\ fst (handler q secret w []) = Throw (H3Error c m)
  | Rejected (JsError name) =>
      name = "Error"%string
      /\ exists b e,
           fst (handler q secret w []) = Ret (SendStream b)
           /\ limited (relay_run highWaterMark schedule (relay_start b)) = Destroyed e
  end
  /\ (forall b e,
        fst (handler q secret w []) = Ret (SendStream b) ->
        limited (relay_run highWaterMark schedule (relay_start b)) = Destroyed e ->
        fst (handler_promise highWaterMark schedule q secret w [])
        = Rejected (JsError "Error")).
Proof.
  pose proof (handler_outcomes q secret) as Hout.
  unfold handler_promise.
  destruct (handler q secret w []) as [[[b]|[c m|name]] tr]; cbn [fst] in *.
  - split.
    + unfold sendStream.
      destruct (limited (relay_run highWaterMark schedule (relay_start b)))
        as [| |e0] eqn:El.
      * exact I.
      * destruct (buffered _); exact I.
      * split; [reflexivity|]. exists b, e0. split; [reflexivity | exact El].
    + intros b' e [= <-] El. unfold sendStream. rewrite El. reflexivity.
  - split; [split; [exact Hout | reflexivity]|]. discriminate.
  - contradiction.
Qed.

(** X9 (image-proxy handler): when the handler streams a body, that
    body is the one of a response it fetched from a validated URL; the
    response was a 2xx one, declared an [image/] type without "svg",
    and declared no length above [MAX_SIZE]; fetching it and setting
    the headers were the last two steps; the headers sent carry
    [nosniff] and no [Content-Length]. *)
Theorem handler_success (q : Query) (secret : string) (b : Body) (tr : Trace) :
  handler q secret w [] = (Ret (SendStream b), tr) ->
  exists tr0 u r,
    http_fetch w tr0 u = Some r
    /\ validated w u tr0
    /\ ok r = true
    /\ startsWith (declared_content_type r) "image/" = true
    /\ includes (declared_content_type r) "svg" = false
    /\ (forall cl n, headers_get (headers r) "content-length" = Some cl ->
                     parseInt cl = Some n -> (n <= Z.of_N MAX_SIZE)%Z)
    /\ body r = Some b
    /\ tr = tr0 ++ [Fetch u;
                    SetResponseHeaders (response_headers (declared_content_type r))]
    /\ headers_get (response_headers (declared_content_type r)) "content-length" = None
    /\ headers_get (response_headers (declared_content_type r)) "x-content-type-options"
       = Some "nosniff".
Proof.
  intros Hrun.
  destruct (gate_verdict q secret) as [e|] eqn:Eg.
  { destruct (handler_gate_closed w q secret e Eg) as (tr' & Hrun' & _).
    rewrite Hrun' in Hrun. discriminate Hrun. }
  destruct (gate_verdict_None q secret Eg) as (url & sig & Hu & Htu & Hs & Hv).
  destruct (handler_trace_open w q secret url sig Hu Htu Hs Hv) as (rest & _ & Hfv & _).
  rewrite Hrun in Hfv. cbn [snd] in Hfv.
  rewrite (handler_gate_open w q secret url sig Hu Htu Hs Hv) in Hrun. cbv zeta in Hrun.
  destruct (negb (isAllowedImageUrl url)); [discriminate Hrun|].
  destruct (resolveAndValidateHost_run w url
              [VerifySignature url sig true; CheckUrl url (isAllowedImageUrl url)])
    as (safe & added & Hv' & _).
  rewrite Hv' in Hrun.
  destruct (negb safe); [discriminate Hrun|].
  apply proxy_success in Hrun.
  destruct Hrun as (mid & u & r & Hf & Hok & Himg & Hsvg & Hcl & Hb & ->).
  eexists _, u, r. split; [exact Hf|].
  split; [eapply Hfv; reflexivity|].
  repeat split; auto.
Qed.

(** X10 (image-proxy handler): a final upstream answer outside 2xx is
    reported as 404 when it was 404 and as 502 otherwise, with the
    upstream status in the message, after the body was cancelled. *)
Theorem upstream_status_mapping (url : string) (tr tr1 : Trace) (r : Response) :
  follow_redirects (S MAX_REDIRECTS) url None w tr = (Ret (Some r), tr1) ->
  is_redirect_status (status r) = false ->
  ok r = false ->
  proxy url w tr
  = (Throw (H3Error (if (status r =? 404)%N then 404 else 502)
                    ("Failed to fetch image: " ++ decimal (status r))%string),
     tr1 ++ cancel_events r).
Proof.
  intros Hrun Hred Hok.
  unfold proxy, try_catch. unfold bind at 1. rewrite Hrun.
  unfold deliver. rewrite Hred, Hok. cbn [negb].
  unfold bind. rewrite cancel_body_run. reflexivity.
Qed.

(** X11 (image-proxy handler): a redirect status without a usable
    [Location] ends the loop at once and is reported as 502 "Too many
    redirects.", although just one request was made. *)
Theorem redirect_without_location (url : string) (tr : Trace) (r : Response) :
  http_fetch w tr url = Some r ->
  is_redirect_status (status r) = true ->
  headers_get (headers r) "location" = None
  \/ headers_get (headers r) "location" = Some "" ->
  proxy url w tr
  = (Throw (H3Error 502 "Too many redirects."),
     (tr ++ [Fetch url]) ++ cancel_events r).
Proof.
  intros Hf Hred Hloc.
  assert (Hrun : follow_redirects (S MAX_REDIRECTS) url None w tr
                 = (Ret (Some r), tr ++ [Fetch url])).
  { rewrite follow_redirects_step. cbv zeta. rewrite Hf, Hred. cbn [negb].
    destruct Hloc as [->| ->]; reflexivity. }
  unfold proxy, try_catch. unfold bind at 1. rewrite Hrun.
  unfold deliver. rewrite Hred.
  unfold bind. rewrite cancel_body_run. reflexivity.
Qed.

(** X12 (image-proxy handler): a fetch that fails, and a [Location]
    that cannot be resolved against the current URL, are both caught
    and reported as 502 "Failed to proxy image."; nothing more is
    fetched. *)
Theorem transport_failure (url : string) (tr : Trace) :
  (http_fetch w tr url = None ->
   proxy url w tr
   = (Throw (H3Error 502 "Failed to proxy image."), tr ++ [Fetch url]))
  /\ (forall r location,
        http_fetch w tr url = Some r ->
        is_redirect_status (status r) = true ->
        headers_get (headers r) "location" = Some location ->
        location <> ""%string ->
        URL_resolve location url = None ->
        proxy url w tr
        = (Throw (H3Error 502 "Failed to proxy image."), tr ++ [Fetch url])).
Proof.
  split.
  - intros Hf. unfold proxy, try_catch. unfold bind at 1.
    rewrite follow_redirects_step. cbv zeta. rewrite Hf. reflexivity.
  - intros r location Hf Hred Hloc Hne Hres.
    apply truthy_true_iff in Hne.
    unfold proxy, try_catch. unfold bind at 1.
    rewrite follow_redirects_step. cbv zeta.
    rewrite Hf, Hred, Hloc, Hne, Hres. reflexivity.
Qed.

(** X13 (image-proxy handler): a request whose tag verifies but whose
    URL fails the guard or the host validation is answered 400 and no
    request is made to any server. *)
Theorem first_url_rejected (q : Query) (secret url sig : string) :
  first_value (q_url q) = Some url -> url <> ""%string ->
  first_value (q_sig q) = Some sig ->
  verifyImageUrl url sig secret = true ->
  (isAllowedImageUrl url = false ->
   handler q secret w []
   = (Throw (H3Error 400 "Invalid or disallowed image URL."),
      [VerifySignature url sig true; CheckUrl url false]))
  /\ (isAllowedImageUrl url = true ->
      fst (resolveAndValidateHost url w
             [VerifySignature url sig true; CheckUrl url true]) = Ret false ->
      fst (handler q secret w [])
      = Throw (H3Error 400 "Invalid or disallowed image URL.")
      /\ count_fetch (snd (handler q secret w [])) = 0%nat).
Proof.
  intros Hu Hne Hs Hv. apply truthy_true_iff in Hne.
  rewrite (handler_gate_open w q secret url sig Hu Hne Hs Hv). cbv zeta.
  split.
  - intros ->. reflexivity.
  - intros -> Hsafe. cbn [negb].
    destruct (resolveAndValidateHost_run w url
                [VerifySignature url sig true; CheckUrl url true])
      as (safe & added & Hrun & Hadd).
    rewrite Hrun in Hsafe |- *. cbn [fst] in Hsafe. injection Hsafe as ->.
    cbn [negb fst snd]. split; [reflexivity|].
    rewrite !count_fetch_app.
    destruct Hadd as [->|(h & ->)]; reflexivity.
Qed.

(** The loop makes at most one lookup per turn. *)
Lemma count_lookup_app (tr1 tr2 : Trace) :
  count_lookup (tr1 ++ tr2) = (count_lookup tr1 + count_lookup tr2)%nat.
Proof. unfold count_lookup. rewrite filter_app, length_app. reflexivity. Qed.

Lemma follow_redirects_count_lookup (n : nat) :
  forall currentUrl response tr,
    (count_lookup (snd (follow_redirects n currentUrl response w tr))
     <= count_lookup tr + n)%nat.
Proof.
  induction n as [|n IH]; intros currentUrl response tr.
  - simpl. lia.
  - rewrite follow_redirects_step. cbv zeta.
    assert (H1 : count_lookup (tr ++ [Fetch currentUrl]) = count_lookup tr).
    { rewrite count_lookup_app. cbn. lia. }
    destruct (http_fetch w tr currentUrl) as [r|]; [|cbn [snd]; lia].
    destruct (negb (is_redirect_status (status r))); [cbn [snd]; lia|].
    destruct (headers_get (headers r) "location") as [location|]; [|cbn [snd]; lia].
    destruct (negb (truthy location)); [cbn [snd]; lia|].
    destruct (URL_resolve location currentUrl) as [target|]; [|cbn [snd]; lia].
    set (redirectUrl := href target).
    destruct (isAllowedImageUrl redirectUrl); cbn [negb].
    2: { cbn [snd]. rewrite count_lookup_app. cbn. lia. }
    destruct (resolveAndValidateHost_run w redirectUrl
                ((tr ++ [Fetch currentUrl]) ++ [CheckUrl redirectUrl true]))
      as (safe & added & Hrun & Hadd).
    rewrite Hrun.
    assert (Hadd1 : (count_lookup added <= 1)%nat).
    { destruct Hadd as [->|(h & ->)]; cbn; lia. }
    assert (Hc0 : count_lookup (cancel_events r) = 0%nat).
    { unfold cancel_events. destruct (body r); reflexivity. }
    destruct safe; cbn [negb].
    2: { cbn [snd]. rewrite !count_lookup_app. cbn. lia. }
    eapply Nat.le_trans; [apply IH|].
    rewrite !count_lookup_app, Hc0. cbn. lia.
Qed.

(** A run resolves a name when it calls [lookup] and when it sends a
    request. *)
Lemma count_resolutions_split (tr : Trace) :
  count_resolutions tr = (count_lookup tr + count_fetch tr)%nat.
Proof.
  unfold count_resolutions, count_lookup, count_fetch.
  induction tr as [|ev tr IH]; [reflexivity|].
  destruct ev; cbn [filter resolves is_lookup is_fetch List.length]; lia.
Qed.

(** No run sends more than [MAX_REDIRECTS + 1] requests. *)
Lemma handler_count_fetch (q : Query) (secret : string) :
  (count_fetch (snd (handler q secret w [])) <= S MAX_REDIRECTS)%nat.
Proof.
  destruct (gate_verdict q secret) as [e|] eqn:Eg.
  - destruct (handler_gate_closed w q secret e Eg) as (tr & Hrun & Hquiet).
    rewrite Hrun. cbn [snd].
    assert (H0 : count_fetch tr = 0%nat).
    { clear - Hquiet. induction Hquiet as [|ev l [Hio _] _ IH]; [reflexivity|].
      unfold count_fetch in *. cbn [filter].
      destruct ev; try discriminate Hio; exact IH. }
    lia.
  - destruct (gate_verdict_None q secret Eg) as (url & sig & Hu & Htu & Hs & Hv).
    destruct (handler_trace_open w q secret url sig Hu Htu Hs Hv)
      as (rest & _ & _ & Hcount).
    exact Hcount.
Qed.

(** The calls of [lookup] in one run. *)
Lemma handler_count_lookup (q : Query) (secret : string) :
  (count_lookup (snd (handler q secret w [])) <= MAX_REDIRECTS + 2)%nat.
Proof.
  destruct (gate_verdict q secret) as [e|] eqn:Eg.
  - destruct (handler_gate_closed w q secret e Eg) as (tr & Hrun & Hquiet).
    rewrite Hrun. cbn [snd].
    assert (H0 : count_lookup tr = 0%nat).
    { clear - Hquiet. induction Hquiet as [|ev l [Hio _] _ IH]; [reflexivity|].
      unfold count_lookup in *. cbn [filter].
      destruct ev; try discriminate Hio; exact IH. }
    lia.
  - destruct (gate_verdict_None q secret Eg) as (url & sig & Hu & Htu & Hs & Hv).
    rewrite (handler_gate_open w q secret url sig Hu Htu Hs Hv). cbv zeta.
    destruct (negb (isAllowedImageUrl url)); [cbn; lia|].
    destruct (resolveAndValidateHost_run w url
                [VerifySignature url sig true; CheckUrl url (isAllowedImageUrl url)])
      as (safe & added & Hrun & Hadd).
    rewrite Hrun.
    assert (Hadd1 : (count_lookup added <= 1)%nat).
    { destruct Hadd as [->|(h & ->)]; cbn; lia. }
    destruct (negb safe).
    { cbn [snd]. rewrite !count_lookup_app. cbn. lia. }
    destruct (proxy_run w url
                (([VerifySignature url sig true; CheckUrl url (isAllowedImageUrl url)]
                  ++ added) ++ [CheckHost url safe]))
      as (out & added2 & Hproxy & Hadd2).
    rewrite Hproxy. cbn [snd]. rewrite count_lookup_app.
    assert (H2 : count_lookup added2 = 0%nat).
    { clear - Hadd2. induction Hadd2 as [|ev l [_ Hio] _ IH]; [reflexivity|].
      unfold count_lookup in *. cbn [filter].
      destruct ev; try discriminate Hio; exact IH. }
    rewrite H2.
    pose proof (follow_redirects_count_lookup (S MAX_REDIRECTS) url None
                  (([VerifySignature url sig true; CheckUrl url (isAllowedImageUrl url)]
                    ++ added) ++ [CheckHost url safe])) as Hc.
    rewrite !count_lookup_app in Hc.
    change (count_lookup [VerifySignature url sig true;
                       CheckUrl url (isAllowedImageUrl url)]) with 0%nat in Hc.
    change (count_lookup [CheckHost url safe]) with 0%nat in Hc.
    unfold MAX_REDIRECTS in *. lia.
Qed.

(** X14 (image-proxy handler): one request makes the handler call
    [lookup] at most [MAX_REDIRECTS + 2] times.  With the resolutions
    that [fetch] makes on its own, one for each request sent, a request
    causes at most [2 * MAX_REDIRECTS + 3] name resolutions. *)
Theorem dns_lookups_bounded (q : Query) (secret : string) :
  (count_lookup (snd (handler q secret w [])) <= MAX_REDIRECTS + 2)%nat
  /\ (count_resolutions (snd (handler q secret w [])) <= 2 * MAX_REDIRECTS + 3)%nat.
Proof.
  pose proof (handler_count_lookup q secret) as Hl.
  pose proof (handler_count_fetch q secret) as Hf.
  split; [exact Hl|].
  rewrite count_resolutions_split. unfold MAX_REDIRECTS in *. lia.
Qed.

End HandlerMore.

Lemma handler_success_witness :
  exists tr0 u r,
    http_fetch (serving png_response) tr0 u = Some r
    /\ @validated ref_platform (serving png_response) u tr0
    /\ ok r = true
    /\ startsWith (declared_content_type r) "image/" = true
    /\ includes (declared_content_type r) "svg" = false
    /\ (forall cl n, headers_get (headers r) "content-length" = Some cl ->
                     parseInt cl = Some n -> (n <= Z.of_N MAX_SIZE)%Z)
    /\ body r = Some small_body
    /\ [ VerifySignature img_url (signImageUrl img_url "s3cret") true;
         CheckUrl img_url true;
         DnsLookup "img.example";
         CheckHost img_url true;
         Fetch img_url;
         SetResponseHeaders (response_headers "image/png") ]
       = (tr0 ++ [Fetch u;
                  SetResponseHeaders (response_headers (declared_content_type r))])%list
    /\ headers_get (response_headers (declared_content_type r)) "content-length" = None
    /\ headers_get (response_headers (declared_content_type r)) "x-content-type-options"
       = Some "nosniff".
Proof.
  assert (H : @handler ref_platform (signed_query img_url "s3cret") "s3cret"
                (serving png_response) []
              = (Ret (SendStream small_body),
                 [ VerifySignature img_url (signImageUrl img_url "s3cret") true;
                   CheckUrl img_url true;
                   DnsLookup "img.example";
                   CheckHost img_url true;
                   Fetch img_url;
                   SetResponseHeaders (response_headers "image/png") ]))
    by (vm_compute; reflexivity).
  exact (@handler_success ref_platform (serving png_response)
           (signed_query img_url "s3cret") "s3cret" small_body _ H).
Defined.

Lemma handler_error_statuses_witness :
  fst (@handler_promise ref_platform 16384 [UpstreamEmits]
         (signed_query img_url "s3cret") "s3cret" (serving oversized_response) [])
  = Rejected (JsError "Error").
Proof.
  assert (H : fst (@handler ref_platform (signed_query img_url "s3cret") "s3cret"
                     (serving oversized_response) [])
              = Ret (SendStream oversized_body))
    by (vm_compute; reflexivity).
  assert (Hd : limited (relay_run 16384 [UpstreamEmits] (relay_start oversized_body))
               = Destroyed "Image too large")
    by (vm_compute; reflexivity).
  pose proof (@handler_error_statuses ref_platform (serving oversized_response)
                16384 [UpstreamEmits] (signed_query img_url "s3cret") "s3cret") as T.
  destruct T as [_ T].
  exact (T oversized_body "Image too large" H Hd).
Defined.

Lemma upstream_status_mapping_witness :
  @proxy ref_platform img_url (serving failing_response) []
  = (Throw (H3Error 502 "Failed to fetch image: 500"), [Fetch img_url]).
Proof.
  assert (H : @follow_redirects ref_platform (S MAX_REDIRECTS) img_url None
                (serving failing_response) []
              = (Ret (Some failing_response), [Fetch img_url]))
    by (vm_compute; reflexivity).
  exact (@upstream_status_mapping ref_platform (serving failing_response)
           img_url [] [Fetch img_url] failing_response H eq_refl eq_refl).
Defined.

Lemma redirect_without_location_witness :
  @proxy ref_platform img_url (serving bare_redirect) []
  = (Throw (H3Error 502 "Too many redirects."), [Fetch img_url]).
Proof.
  exact (@redirect_without_location ref_platform (serving bare_redirect)
           img_url [] bare_redirect eq_refl eq_refl (or_introl eq_refl)).
Defined.

Lemma transport_failure_witness :
  @proxy ref_platform img_url silent_world []
  = (Throw (H3Error 502 "Failed to proxy image."), [Fetch img_url]).
Proof.
  exact (proj1 (@transport_failure ref_platform silent_world img_url []) eq_refl).
Defined.

Lemma first_url_rejected_witness :
  @handler ref_platform (signed_query loopback_url "s3cret") "s3cret" silent_world []
  = (Throw (H3Error 400 "Invalid or disallowed image URL."),
     [ VerifySignature loopback_url (signImageUrl loopback_url "s3cret") true;
       CheckUrl loopback_url false ]).
Proof.
  assert (Hne : loopback_url <> "") by discriminate.
  assert (Hv : verifyImageUrl loopback_url (signImageUrl loopback_url "s3cret") "s3cret"
               = true) by (vm_compute; reflexivity).
  assert (Ha : @isAllowedImageUrl ref_platform loopback_url = false)
    by (vm_compute; reflexivity).
  exact (proj1 (@first_url_rejected ref_platform silent_world
                  (signed_query loopback_url "s3cret") "s3cret" loopback_url
                  (signImageUrl loopback_url "s3cret") eq_refl Hne eq_refl Hv) Ha).
Defined.

(** ** What the relay passes on *)

Section RelayMore.
Variable highWaterMark : N.
Local Open Scope list_scope.
Local Open Scope N_scope.

Lemma total_length_cons' (c : Buffer) (l : list Buffer) :
  total_length (c :: l) = byteLength c + total_length l.
Proof. reflexivity. Qed.

Lemma relay_start_faithful (b : Body) : relay_faithful b (relay_start b).
Proof.
  split; cbn; try discriminate; try reflexivity.
  exists []. repeat split.
Qed.

Ltac relay_state :=
  cbn [bytesRead pending pending_end upstream buffered limited delivered] in *.

Lemma step_faithful (b : Body) (a : Action) (r : Relay) :
  relay_inv r -> relay_faithful b r -> relay_faithful b (step highWaterMark a r).
Proof.
  intros Hinv Hf.
  destruct a; unfold step.
  - destruct (upstream r) eqn:Eu; try exact Hf.
    destruct (flowing_live r Hinv Eu) as [Hle Hlive].
    destruct Hf as [Hend (mid & Hch & Hbr & Hmid) Hended Herr].
    specialize (Hmid Hlive). subst mid.
    assert (Hopen : limited r = Open).
    { destruct (limited r) eqn:El; [reflexivity| |].
      - destruct (Hended eq_refl) as [Hu _]. congruence.
      - exfalso. exact (Hlive _ eq_refl). }
    destruct (pending r) as [|chunk rest] eqn:Ep.
    + destruct (pending_end r) eqn:Ee.
      * unfold on_end, limited_push_null, set_upstream. relay_state.
        rewrite Hopen. split; relay_state; try discriminate.
        -- rewrite Ee. exact Hend.
        -- exists (buffered r). rewrite Ep. auto.
        -- intros _. rewrite Ep. auto.
      * unfold on_error, limited_destroy, set_upstream. relay_state.
        rewrite Hopen. split; relay_state; try discriminate.
        -- rewrite Ee. exact Hend.
        -- exists (buffered r). rewrite Ep. split; [exact Hch|].
           split; [exact Hbr|]. intros Hno. exfalso. exact (Hno _ eq_refl).
        -- intros e E. injection E as <-. right. rewrite Ep. auto.
    + unfold on_data. relay_state.
      destruct (MAX_SIZE <? bytesRead r + byteLength chunk) eqn:Eover.
      * unfold limited_destroy, upstream_destroy, set_upstream. relay_state.
        rewrite Hopen. split; relay_state; try discriminate.
        -- exact Hend.
        -- exists (buffered r ++ [chunk]). split.
           ++ rewrite Hch. rewrite <- !app_assoc. reflexivity.
           ++ split.
              ** rewrite Hbr, !total_length_app, total_length_single. lia.
              ** intros Hno. exfalso. exact (Hno _ eq_refl).
        -- intros e E. injection E as <-. left. split; [reflexivity|].
           apply N.ltb_lt. exact Eover.
      * unfold limited_push. relay_state. rewrite Hopen.
        assert (Hmid' : exists mid,
                   chunks b = delivered r ++ mid ++ rest
                   /\ bytesRead r + byteLength chunk = total_length (delivered r ++ mid)
                   /\ ((forall e, Open <> Destroyed e) -> mid = buffered r ++ [chunk])).
        { exists (buffered r ++ [chunk]). split.
          - rewrite Hch. rewrite <- !app_assoc. reflexivity.
          - split; [|reflexivity].
            rewrite Hbr, !total_length_app, total_length_single. lia. }
        destruct (total_length (buffered r ++ [chunk]) <? highWaterMark);
          cbn [negb].
        -- split; relay_state; rewrite ?Hopen; try discriminate; assumption.
        -- unfold upstream_pause, set_upstream. relay_state. rewrite ?Eu. relay_state.
           split; relay_state; rewrite ?Hopen; try discriminate; assumption.
  - destruct (limited r) eqn:El.
    3: { exact Hf. }
    all: destruct Hf as [Hend (mid & Hch & Hbr & Hmid) Hended Herr].
    all: assert (Hlive : forall e, limited r <> Destroyed e)
      by (intros e E; rewrite El in E; discriminate E).
    all: specialize (Hmid Hlive); subst mid.
    all: unfold limited_read, upstream_resume, set_upstream.
    all: destruct (buffered r) as [|chunk rest] eqn:Eb.
    all: destruct (upstream r) eqn:Eu; relay_state.
    all: split; relay_state; rewrite ?El; try discriminate; try exact Hend.
    all: try (exists []; rewrite ?Eb; cbn [app] in *; rewrite ?app_nil_r in *;
              auto; fail).
    all: try (exists rest; rewrite ?Eb; rewrite <- !app_assoc; cbn [app];
              auto; fail).
    all: intros _; destruct (Hended El) as (Hu & Hp & He);
      rewrite ?Eu in *; try discriminate Hu; auto.
Qed.

Lemma relay_run_faithful (b : Body) (schedule : list Action) (r : Relay) :
  relay_inv r -> relay_faithful b r ->
  relay_inv (relay_run highWaterMark schedule r)
  /\ relay_faithful b (relay_run highWaterMark schedule r).
Proof.
  revert r. induction schedule as [|a schedule IH]; intros r Hinv Hf; simpl.
  - auto.
  - apply IH; [apply step_inv, Hinv | apply step_faithful; assumption].
Qed.

Lemma total_length_prefix (l1 l2 : list Buffer) :
  total_length l1 <= total_length (l1 ++ l2).
Proof. rewrite total_length_app. lia. Qed.

(** X15 (relay): what the consumer has received is always a prefix of
    the upstream chunks, in their order; and while the relay is not
    destroyed, the chunks delivered, those waiting in the relay and
    those not yet emitted are together the upstream body: nothing is
    dropped, repeated or reordered. *)
Theorem relay_keeps_order (b : Body) (schedule : list Action) :
  let r := relay_run highWaterMark schedule (relay_start b) in
  (exists rest, chunks b = delivered r ++ rest)
  /\ ((forall e, limited r <> Destroyed e) ->
      chunks b = delivered r ++ buffered r ++ pending r).
Proof.
  intros r.
  destruct (relay_run_faithful b schedule (relay_start b)
              (relay_start_inv b) (relay_start_faithful b)) as [_ Hf].
  fold r in Hf. destruct Hf as [_ (mid & Hch & _ & Hmid) _ _].
  split.
  - exists (mid ++ pending r). exact Hch.
  - intros Hlive. rewrite <- (Hmid Hlive). exact Hch.
Qed.

(** X16 (relay): the relay signals the end of the stream only when the
    upstream ended without error and every chunk has been pushed; the
    whole body is then at most [MAX_SIZE] bytes. *)
Theorem relay_end_means_complete (b : Body) (schedule : list Action) :
  let r := relay_run highWaterMark schedule (relay_start b) in
  limited r = EndPushed ->
  ending b = EndOfBody
  /\ chunks b = delivered r ++ buffered r
  /\ total_length (chunks b) <= MAX_SIZE.
Proof.
  intros r Hend.
  destruct (relay_run_faithful b schedule (relay_start b)
              (relay_start_inv b) (relay_start_faithful b)) as [Hinv Hf].
  fold r in Hinv, Hf.
  destruct Hf as [_ (mid & Hch & Hbr & Hmid) Hended _].
  destruct (Hended Hend) as (_ & Hp & He).
  assert (Hlive : forall e, limited r <> Destroyed e)
    by (intros e E; rewrite Hend in E; discriminate E).
  specialize (Hmid Hlive). subst mid. rewrite Hp, app_nil_r in Hch.
  split; [exact He|]. split; [exact Hch|].
  rewrite Hch, <- Hbr.
  destruct (N.ltb_spec MAX_SIZE (bytesRead r)) as [Hlt|]; [|assumption].
  destruct (inv_over r Hinv Hlt) as [_ Hl]. congruence.
Qed.

(** X17 (relay): the relay is destroyed for one of two reasons only:
    with "Image too large" when the body is larger than [MAX_SIZE], or
    with the upstream's own error. *)
Theorem relay_error_cause (b : Body) (schedule : list Action) (e : string) :
  let r := relay_run highWaterMark schedule (relay_start b) in
  limited r = Destroyed e ->
  (e = "Image too large" /\ MAX_SIZE < total_length (chunks b))
  \/ ending b = BodyError e.
Proof.
  intros r Hd.
  destruct (relay_run_faithful b schedule (relay_start b)
              (relay_start_inv b) (relay_start_faithful b)) as [_ Hf].
  fold r in Hf.
  destruct Hf as [_ (mid & Hch & Hbr & _) _ Herr].
  destruct (Herr e Hd) as [[-> Hlt]|[He _]]; [left | right; exact He].
  split; [reflexivity|].
  rewrite Hch, app_assoc.
  pose proof (total_length_prefix (delivered r ++ mid) (pending r)). lia.
Qed.

(** One turn on a chunk that fits: it is pushed, then consumed. *)
Lemma turn_on_chunk (r : Relay) (chunk : Buffer) (rest : list Buffer) :
  upstream r = Flowing -> limited r = Open -> buffered r = [] ->
  pending r = chunk :: rest ->
  bytesRead r + byteLength chunk <= MAX_SIZE ->
  step highWaterMark ConsumerReads (step highWaterMark UpstreamEmits r)
  = mkRelay (bytesRead r + byteLength chunk) rest (pending_end r) Flowing []
            Open (delivered r ++ [chunk]).
Proof.
  intros Hu Hl Hb Hp Hsize.
  assert (Hno : (MAX_SIZE <? bytesRead r + byteLength chunk) = false)
    by (apply N.ltb_ge; lia).
  assert (H1 : exists u,
             step highWaterMark UpstreamEmits r
             = mkRelay (bytesRead r + byteLength chunk) rest (pending_end r) u
                       [chunk] Open (delivered r)
             /\ (u = Flowing \/ u = Paused)).
  { unfold step. rewrite Hu, Hp. unfold on_data. relay_state. rewrite Hno.
    unfold limited_push. relay_state. rewrite Hl, Hb. cbn [app].
    destruct (total_length [chunk] <? highWaterMark); cbn [negb].
    - rewrite ?Hu. eexists. split; [reflexivity | now left].
    - unfold upstream_pause, set_upstream. relay_state. rewrite ?Hu. relay_state.
      eexists. split; [reflexivity | now right]. }
  destruct H1 as (u & -> & Hcase).
  unfold step. relay_state. unfold limited_read, upstream_resume, set_upstream. relay_state.
  destruct Hcase as [-> | ->]; reflexivity.
Qed.

(** One turn at the end of the body: the end or the error is passed on. *)
Lemma turn_on_end (r : Relay) :
  upstream r = Flowing -> limited r = Open -> buffered r = [] ->
  pending r = [] ->
  step highWaterMark ConsumerReads (step highWaterMark UpstreamEmits r)
  = match pending_end r with
    | EndOfBody =>
        mkRelay (bytesRead r) [] (pending_end r) UpstreamEnded []
                EndPushed (delivered r)
    | BodyError e =>
        mkRelay (bytesRead r) [] (pending_end r) UpstreamDestroyed []
                (Destroyed e) (delivered r)
    end.
Proof.
  intros Hu Hl Hb Hp.
  assert (H1 : step highWaterMark UpstreamEmits r
               = match pending_end r with
                 | EndOfBody =>
                     mkRelay (bytesRead r) [] (pending_end r) UpstreamEnded []
                             EndPushed (delivered r)
                 | BodyError e =>
                     mkRelay (bytesRead r) [] (pending_end r) UpstreamDestroyed []
                             (Destroyed e) (delivered r)
                 end).
  { unfold step. rewrite Hu, Hp. destruct (pending_end r) eqn:Ee.
    - unfold on_end, limited_push_null, set_upstream. relay_state.
      rewrite Hl, Hp, Hb, Ee. reflexivity.
    - unfold on_error, limited_destroy, set_upstream. relay_state.
      rewrite Hl, Hp, Ee. reflexivity. }
  rewrite H1. destruct (pending_end r); reflexivity.
Qed.

Lemma relay_run_turns (n : nat) (r : Relay) :
  relay_run highWaterMark (turns (S n)) r
  = relay_run highWaterMark (turns n)
      (step highWaterMark ConsumerReads (step highWaterMark UpstreamEmits r)).
Proof. reflexivity. Qed.

(** Taking turns, the relay passes a body within the limit on whole. *)
Lemma turns_deliver (l : list Buffer) :
  forall r,
    upstream r = Flowing -> limited r = Open -> buffered r = [] ->
    pending r = l ->
    bytesRead r + total_length l <= MAX_SIZE ->
    delivered (relay_run highWaterMark (turns (S (List.length l))) r)
    = delivered r ++ l
    /\ buffered (relay_run highWaterMark (turns (S (List.length l))) r) = []
    /\ limited (relay_run highWaterMark (turns (S (List.length l))) r)
       = match pending_end r with
         | EndOfBody => EndPushed
         | BodyError e => Destroyed e
         end.
Proof.
  induction l as [|chunk l IH]; intros r Hu Hl Hb Hp Hsize.
  - cbn [List.length]. rewrite !relay_run_turns.
    cbn [turns relay_run fold_left].
    rewrite (turn_on_end r Hu Hl Hb Hp).
    destruct (pending_end r); relay_state; rewrite app_nil_r; auto.
  - cbn [List.length]. rewrite !(relay_run_turns (S (List.length l))).
    rewrite total_length_cons' in Hsize.
    rewrite (turn_on_chunk r chunk l Hu Hl Hb Hp); [|lia].
    specialize (IH (mkRelay (bytesRead r + byteLength chunk) l (pending_end r)
                            Flowing [] Open (delivered r ++ [chunk]))).
    cbn [bytesRead pending pending_end upstream buffered limited delivered] in IH.
    destruct IH as (Hd & Hb' & Hl'); try reflexivity; [lia|].
    rewrite Hd, Hb', Hl', <- app_assoc. auto.
Qed.

(** X18 (relay): a body of at most [MAX_SIZE] bytes read by a consumer
    that takes turns with the upstream arrives whole, and the relay
    then ends as the upstream did, whatever the high-water mark. *)
Theorem relay_delivers_whole_body (b : Body) :
  total_length (chunks b) <= MAX_SIZE ->
  let r := relay_run highWaterMark (turns (S (List.length (chunks b))))
                     (relay_start b) in
  delivered r = chunks b
  /\ buffered r = []
  /\ limited r = match ending b with
                 | EndOfBody => EndPushed
                 | BodyError e => Destroyed e
                 end.
Proof.
  intros Hsize r.
  apply (turns_deliver (chunks b) (relay_start b)); try reflexivity.
  cbn [relay_start bytesRead]. lia.
Qed.

(** X19 (relay): the upstream is left flowing after a chunk only while
    the relay's buffer is below the high-water mark; a paused upstream
    emits nothing; a read by the consumer of a live relay resumes
    it. *)
Theorem relay_backpressure (r : Relay) :
  (upstream (step highWaterMark UpstreamEmits r) = Flowing ->
   total_length (buffered (step highWaterMark UpstreamEmits r)) < highWaterMark)
  /\ (upstream r = Paused -> step highWaterMark UpstreamEmits r = r)
  /\ (upstream r = Paused -> (forall e, limited r <> Destroyed e) ->
      upstream (step highWaterMark ConsumerReads r) = Flowing).
Proof.
  split; [|split].
  - unfold step. destruct (upstream r) eqn:Eu; try (rewrite Eu; discriminate).
    destruct (pending r) as [|chunk rest].
    + destruct (pending_end r).
      * unfold on_end, limited_push_null, set_upstream. relay_state.
        destruct (limited r); relay_state; discriminate.
      * unfold on_error, limited_destroy, set_upstream. relay_state.
        destruct (limited r); relay_state; discriminate.
    + unfold on_data. relay_state.
      destruct (MAX_SIZE <? bytesRead r + byteLength chunk).
      * unfold limited_destroy, upstream_destroy, set_upstream. relay_state.
        destruct (limited r); relay_state; discriminate.
      * unfold limited_push. relay_state.
        destruct (limited r) eqn:El; relay_state.
        -- destruct (total_length (buffered r ++ [chunk]) <? highWaterMark) eqn:Em;
             cbn [negb].
           ++ relay_state. intros _. apply N.ltb_lt. exact Em.
           ++ unfold upstream_pause, set_upstream. relay_state. rewrite ?Eu. relay_state.
              discriminate.
        -- cbn [negb]. unfold upstream_pause, set_upstream. rewrite ?Eu. relay_state.
           discriminate.
        -- cbn [negb]. unfold upstream_pause, set_upstream. rewrite ?Eu. relay_state.
           discriminate.
  - intros Hp. unfold step. rewrite Hp. reflexivity.
  - intros Hp Hlive. unfold step.
    destruct (limited r) eqn:El; [| |exfalso; exact (Hlive _ eq_refl)].
    all: unfold limited_read, upstream_resume, set_upstream.
    all: destruct (buffered r); relay_state; rewrite Hp; reflexivity.
Qed.

(** X20 (relay): the bytes the relay holds, together with those it has
    handed on, never exceed [MAX_SIZE]. *)
Theorem relay_buffer_bounded (b : Body) (schedule : list Action) :
  total_length (delivered (relay_run highWaterMark schedule (relay_start b)))
  + total_length (buffered (relay_run highWaterMark schedule (relay_start b)))
  <= MAX_SIZE.
Proof.
  exact (inv_cap _ (relay_run_inv highWaterMark schedule (relay_start b)
                      (relay_start_inv b))).
Qed.

End RelayMore.

Lemma relay_keeps_order_witness :
  chunks broken_body
  = (delivered (relay_run 16384 [UpstreamEmits; ConsumerReads; UpstreamEmits]
                          (relay_start broken_body))
     ++ buffered (relay_run 16384 [UpstreamEmits; ConsumerReads; UpstreamEmits]
                            (relay_start broken_body))
     ++ pending (relay_run 16384 [UpstreamEmits; ConsumerReads; UpstreamEmits]
                           (relay_start broken_body)))%list.
Proof.
  assert (H : forall e,
             limited (relay_run 16384 [UpstreamEmits; ConsumerReads; UpstreamEmits]
                                (relay_start broken_body)) <> Destroyed e)
    by (intros e; vm_compute; discriminate).
  exact (proj2 (relay_keeps_order 16384 broken_body
                  [UpstreamEmits; ConsumerReads; UpstreamEmits]) H).
Defined.

Lemma relay_end_means_complete_witness :
  ending small_body = EndOfBody
  /\ chunks small_body
     = (delivered (relay_run 16384 (turns 2) (relay_start small_body))
        ++ buffered (relay_run 16384 (turns 2) (relay_start small_body)))%list
  /\ (total_length (chunks small_body) <= MAX_SIZE)%N.
Proof.
  exact (relay_end_means_complete 16384 small_body (turns 2) eq_refl).
Defined.

Lemma relay_error_cause_witness :
  ("socket hang up" = "Image too large"
   /\ (MAX_SIZE < total_length (chunks broken_body))%N)
  \/ ending broken_body = BodyError "socket hang up".
Proof.
  exact (relay_error_cause 16384 broken_body (turns 3) "socket hang up" eq_refl).
Defined.

Lemma relay_delivers_whole_body_witness :
  delivered (relay_run 4 (turns 3) (relay_start broken_body)) = chunks broken_body
  /\ buffered (relay_run 4 (turns 3) (relay_start broken_body)) = []
  /\ limited (relay_run 4 (turns 3) (relay_start broken_body))
     = Destroyed "socket hang up".
Proof.
  assert (H : (total_length (chunks broken_body) <= MAX_SIZE)%N)
    by (vm_compute; discriminate).
  exact (relay_delivers_whole_body 4 broken_body H).
Defined.

Lemma relay_backpressure_witness :
  step 4 UpstreamEmits (step 4 UpstreamEmits (relay_start broken_body))
  = step 4 UpstreamEmits (relay_start broken_body).
Proof.
  exact (proj1 (proj2 (relay_backpressure 4
                         (step 4 UpstreamEmits (relay_start broken_body))))
               eq_refl).
Defined.

Lemma append_inj_l (p a b : string) : p ++ a = p ++ b -> a = b.
Proof. induction p as [|c p IH]; cbn; intros H; [exact H | injection H as H; auto]. Qed.

Lemma append_assoc (a b c : string) : (a ++ b) ++ c = a ++ (b ++ c).
Proof. induction a as [|x a IH]; cbn; [reflexivity | now rewrite IH]. Qed.

Lemma append_inj_r (a b s : string) : a ++ s = b ++ s -> a = b.
Proof.
  revert b. induction a as [|x a IH]; intros [|y b] H.
  - reflexivity.
  - exfalso. apply (f_equal String.length) in H.
    cbn in H. rewrite ?append_length in H. lia.
  - exfalso. apply (f_equal String.length) in H.
    cbn in H. rewrite ?append_length in H. lia.
  - cbn in H. injection H as Hx H. subst. f_equal. auto.
Qed.

Lemma endsWith_app (a p : string) : endsWith (a ++ p) p = true.
Proof. apply endsWith_spec. now exists a. Qed.

Lemma endsWith_two (k p q : string) :
  String.length p = String.length q ->
  endsWith k p = true -> endsWith k q = true -> p = q.
Proof.
  unfold endsWith. intros L Hp Hq. rewrite L in Hp.
  apply andb_prop in Hp as [_ Hp]. apply andb_prop in Hq as [_ Hq].
  apply String.eqb_eq in Hp. apply String.eqb_eq in Hq. congruence.
Qed.

Lemma prefix_app (p s : string) : String.prefix p (p ++ s) = true.
Proof.
  induction p as [|c p IH]; cbn.
  - now destruct s.
  - destruct (ascii_dec c c); [exact IH | congruence].
Qed.

Lemma profile_key_is_profile (d : string) : is_profile_key (CACHE_PROFILE_KEY d) = true.
Proof.
  unfold is_profile_key, CACHE_PROFILE_KEY, startsWith.
  rewrite prefix_app. cbn [andb].
  rewrite <- append_assoc. apply endsWith_app.
Qed.

Lemma minidoc_key_not_profile (h : string) :
  is_profile_key (CACHE_PROFILE_MINI_DOC h) = false.
Proof.
  unfold is_profile_key, CACHE_PROFILE_MINI_DOC.
  destruct (endsWith _ ":profile") eqn:E; [|now rewrite andb_false_r].
  exfalso.
  assert (E' : endsWith (CACHE_PREFIX ++ h ++ ":minidoc") ":minidoc" = true)
    by (rewrite <- append_assoc; apply endsWith_app).
  pose proof (endsWith_two _ ":profile" ":minidoc" eq_refl E E') as X.
  discriminate X.
Qed.

Lemma identity_key_not_profile (i : string) :
  is_profile_key (CACHE_KEY_IDENTITY i) = false.
Proof. reflexivity. Qed.

Lemma minidoc_key_neq_profile_key (h d : string) :
  CACHE_PROFILE_MINI_DOC h <> CACHE_PROFILE_KEY d.
Proof.
  intros E. pose proof (minidoc_key_not_profile h) as X.
  rewrite E, profile_key_is_profile in X. discriminate.
Qed.

Lemma cache_store_same c k v ttl : cache_store c k v ttl k = Some (v, ttl).
Proof. unfold cache_store. now rewrite String.eqb_refl. Qed.

Lemma cache_store_other c k v ttl k' :
  k' <> k -> cache_store c k v ttl k' = c k'.
Proof.
  intros H. unfold cache_store. destruct (String.eqb_spec k' k); congruence.
Qed.

Lemma cache_typed_store_minidoc c k m ttl :
  is_profile_key k = false -> cache_typed c ->
  cache_typed (cache_store c k (CachedMiniDoc m) ttl).
Proof.
  intros Hk Hc k' v t. unfold cache_store.
  destruct (String.eqb_spec k' k) as [->|_].
  - intros [= <- _]. exact Hk.
  - apply Hc.
Qed.

Lemma cache_typed_store_profile c k p ttl :
  is_profile_key k = true -> cache_typed c ->
  cache_typed (cache_store c k (CachedProfile p) ttl).
Proof.
  intros Hk Hc k' v t. unfold cache_store.
  destruct (String.eqb_spec k' k) as [->|_].
  - intros [= <- _]. exact Hk.
  - apply Hc.
Qed.

Section SocialFacts.
Context {Sv : Services}.
Local Open Scope list_scope.

(** What one call of [slingshotMiniDoc] does, case by case. *)
Lemma slingshotMiniDoc_run (h : string) (s : SocialState) :
  let k := CACHE_PROFILE_MINI_DOC h in
  match read_minidoc (cache s) k with
  | Some m => slingshotMiniDoc h s = (Ret m, log (CacheGet k) s)
  | None =>
      if isAtIdentifierString h then
        match resolveMiniDoc h with
        | inl m =>
            slingshotMiniDoc h s =
            (Ret m, mkSocial (cache_store (cache s) k (CachedMiniDoc m) CACHE_MAX_AGE)
                             (calls s ++ [CacheGet k; QueryMiniDoc h; CacheSet k]))
        | inr _ =>
            slingshotMiniDoc h s =
            (Throw (H3Error 404 ("Failed to resolve MiniDoc for " ++ h)%string),
             mkSocial (cache s) (calls s ++ [CacheGet k; QueryMiniDoc h]))
        end
      else
        slingshotMiniDoc h s =
        (Throw (H3Error 400 ("Invalid at-identifier: " ++ h)%string), log (CacheGet k) s)
  end.
Proof.
  cbn zeta. unfold slingshotMiniDoc, task_bind, cache_get_minidoc, read_minidoc.
  destruct (cache s (CACHE_PROFILE_MINI_DOC h)) as [[[m|p] t]|] eqn:E; cbn [fst snd].
  - reflexivity.
  - destruct (isAtIdentifierString h); cbn [negb].
    + unfold xrpcSafe_resolveMiniDoc. destruct (resolveMiniDoc h); cbn.
      * unfold log. cbn. now rewrite <- !app_assoc.
      * unfold task_throw, createError, log. cbn. now rewrite <- !app_assoc.
    + reflexivity.
  - destruct (isAtIdentifierString h); cbn [negb].
    + unfold xrpcSafe_resolveMiniDoc. destruct (resolveMiniDoc h); cbn.
      * unfold log. cbn. now rewrite <- !app_assoc.
      * unfold task_throw, createError, log. cbn. now rewrite <- !app_assoc.
    + reflexivity.
Qed.


(** What one call of [getMiniDoc] does, case by case. *)
Lemma getMiniDoc_run (id : string) (s : SocialState) :
  let k := CACHE_KEY_IDENTITY id in
  if isAtIdentifierString id then
    match read_minidoc (cache s) k with
    | Some m => getMiniDoc id s = (Ret m, log (CacheGet k) s)
    | None =>
        match resolveMiniDoc id with
        | inl m =>
            getMiniDoc id s =
            (Ret m, mkSocial (cache_store (cache s) k (CachedMiniDoc m) CACHE_MAX_AGE_IDENTITY)
                             (calls s ++ [CacheGet k; QueryMiniDoc id; CacheSet k]))
        | inr e =>
            getMiniDoc id s =
            (Throw e, mkSocial (cache s) (calls s ++ [CacheGet k; QueryMiniDoc id]))
        end
    end
  else getMiniDoc id s = (Throw (H3Error 400 "Invalid AT Protocol identifier"), s).
Proof.
  cbn zeta. unfold getMiniDoc.
  destruct (isAtIdentifierString id); cbn [negb]; [|reflexivity].
  unfold task_bind, cache_get_minidoc, read_minidoc, call_resolveMiniDoc.
  destruct (cache s (CACHE_KEY_IDENTITY id)) as [[[m|p] t]|] eqn:E; cbn [fst snd].
  - reflexivity.
  - destruct (resolveMiniDoc id); cbn; unfold log; cbn; now rewrite <- !app_assoc.
  - destruct (resolveMiniDoc id); cbn; unfold log; cbn; now rewrite <- !app_assoc.
Qed.

(** X21 (cache keys): the three key families never meet, and each key names one
    subject. *)
Theorem cache_keys_disjoint (a b : string) :
  CACHE_KEY_IDENTITY a <> CACHE_PROFILE_MINI_DOC b /\
  CACHE_KEY_IDENTITY a <> CACHE_PROFILE_KEY b /\
  CACHE_PROFILE_MINI_DOC a <> CACHE_PROFILE_KEY b /\
  (CACHE_KEY_IDENTITY a = CACHE_KEY_IDENTITY b <-> a = b) /\
  (CACHE_PROFILE_MINI_DOC a = CACHE_PROFILE_MINI_DOC b <-> a = b) /\
  (CACHE_PROFILE_KEY a = CACHE_PROFILE_KEY b <-> a = b).
Proof.
  split; [discriminate|]. split; [discriminate|].
  split; [apply minidoc_key_neq_profile_key|].
  split; [|split]; (split; [|now intros ->]).
  - intros H. exact (append_inj_l _ _ _ H).
  - unfold CACHE_PROFILE_MINI_DOC. intros H.
    apply append_inj_l in H. exact (append_inj_r _ _ _ H).
  - unfold CACHE_PROFILE_KEY. intros H.
    apply append_inj_l in H. exact (append_inj_r _ _ _ H).
Qed.

(** X22 ([IdentityUtils.getMiniDoc]): a mini doc that [getMiniDoc] returned is returned again by the
    next call for the same identifier from the cache, without a query. *)
Theorem getMiniDoc_second_call (id : string) (s s1 : SocialState) (m : MiniDoc) :
  getMiniDoc id s = (Ret m, s1) ->
  getMiniDoc id s1 = (Ret m, log (CacheGet (CACHE_KEY_IDENTITY id)) s1).
Proof.
  intros H. pose proof (getMiniDoc_run id s) as R. cbn zeta in R.
  pose proof (getMiniDoc_run id s1) as R1. cbn zeta in R1.
  destruct (isAtIdentifierString id); [|rewrite R in H; discriminate].
  destruct (read_minidoc (cache s) (CACHE_KEY_IDENTITY id)) as [m0|] eqn:E.
  - rewrite R in H. injection H as -> <-.
    unfold log in R1 at 1. cbn [cache] in R1. rewrite E in R1. exact R1.
  - destruct (resolveMiniDoc id) as [m0|e0]; rewrite R in H; [|discriminate].
    injection H as -> <-.
    unfold read_minidoc in R1 at 1. cbn [cache] in R1.
    rewrite cache_store_same in R1. exact R1.
Qed.

(** X23 ([IdentityUtils.getMiniDoc]): a failing [getMiniDoc] leaves the cache as it was; it fails with
    400 before any effect when the identifier is not one, and else with
    the error of the one query it made. *)
Theorem getMiniDoc_failure (id : string) (s s1 : SocialState) (e : Exn) :
  getMiniDoc id s = (Throw e, s1) ->
  cache s1 = cache s /\
  ((e = H3Error 400 "Invalid AT Protocol identifier" /\
    isAtIdentifierString id = false /\ s1 = s) \/
   (isAtIdentifierString id = true /\
    read_minidoc (cache s) (CACHE_KEY_IDENTITY id) = None /\
    resolveMiniDoc id = inr e /\
    calls s1 = calls s ++ [CacheGet (CACHE_KEY_IDENTITY id); QueryMiniDoc id])).
Proof.
  intros H. pose proof (getMiniDoc_run id s) as R. cbn zeta in R.
  destruct (isAtIdentifierString id).
  - destruct (read_minidoc (cache s) (CACHE_KEY_IDENTITY id)) as [m0|];
      [rewrite R in H; discriminate|].
    destruct (resolveMiniDoc id) as [m0|e0]; rewrite R in H; [discriminate|].
    injection H as <- <-. cbn. split; [reflexivity|]. right. auto.
  - rewrite R in H. injection H as <- <-. split; [reflexivity|]. left. auto.
Qed.

(** The mini doc step in front of [getProfile] and [updateProfileCache]:
    after it succeeded the mini doc is in the cache, and only its key
    changed. *)
Lemma slingshotMiniDoc_ret (h : string) (s s1 : SocialState) (m : MiniDoc) :
  slingshotMiniDoc h s = (Ret m, s1) ->
  read_minidoc (cache s1) (CACHE_PROFILE_MINI_DOC h) = Some m /\
  (forall k, k <> CACHE_PROFILE_MINI_DOC h -> cache s1 k = cache s k) /\
  (cache_typed (cache s) -> cache_typed (cache s1)).
Proof.
  intros H. pose proof (slingshotMiniDoc_run h s) as R. cbn zeta in R.
  destruct (read_minidoc (cache s) (CACHE_PROFILE_MINI_DOC h)) as [m0|] eqn:E.
  - rewrite R in H. injection H as -> <-. cbn. auto.
  - destruct (isAtIdentifierString h); [|rewrite R in H; discriminate].
    destruct (resolveMiniDoc h) as [m0|e0]; rewrite R in H; [|discriminate].
    injection H as -> <-. cbn [cache]. split; [|split].
    + unfold read_minidoc. now rewrite cache_store_same.
    + intros k Hk. now apply cache_store_other.
    + apply cache_typed_store_minidoc. apply minidoc_key_not_profile.
Qed.

Lemma slingshotMiniDoc_throw (h : string) (s s1 : SocialState) (e : Exn) :
  slingshotMiniDoc h s = (Throw e, s1) ->
  cache s1 = cache s /\
  (e = H3Error 400 ("Invalid at-identifier: " ++ h)%string \/
   e = H3Error 404 ("Failed to resolve MiniDoc for " ++ h)%string).
Proof.
  intros H. pose proof (slingshotMiniDoc_run h s) as R. cbn zeta in R.
  destruct (read_minidoc (cache s) (CACHE_PROFILE_MINI_DOC h)) as [m0|] eqn:E.
  - rewrite R in H. discriminate.
  - destruct (isAtIdentifierString h).
    + destruct (resolveMiniDoc h) as [m0|e0]; rewrite R in H; [discriminate|].
      injection H as <- <-. cbn. auto.
    + rewrite R in H. injection H as <- <-. cbn. auto.
Qed.

(** [getProfile] behind its mini doc step. *)
Lemma getProfile_unfold (h : string) (s : SocialState) :
  getProfile h s =
  match slingshotMiniDoc h s with
  | (Throw e, s1) => (Throw e, s1)
  | (Ret m, s1) =>
      let pk := CACHE_PROFILE_KEY (did m) in
      let uri := ("at://" ++ did m ++ "/dev.npmx.actor.profile/self")%string in
      let s2 := log (CacheGet pk) s1 in
      match read_profile (cache s1) pk with
      | Some p => (Ret (Some p), s2)
      | None =>
          if isAtUriString uri then
            match getRecordByUri uri with
            | RecordSuccess value =>
                match validate_profile value with
                | inr e => (Throw e, log (QueryRecord uri) s2)
                | inl r =>
                    let p := mkProfile true (rec_displayName r) (rec_description r)
                                       (rec_website r) in
                    (Ret (Some p),
                     mkSocial (cache_store (cache s1) pk (CachedProfile p) CACHE_MAX_AGE)
                              (calls s1 ++ [CacheGet pk; QueryRecord uri; CacheSet pk]))
                end
            | RecordFailure error =>
                if String.eqb error "RecordNotFound"
                then (Ret (Some (missing_profile m)), log (QueryRecord uri) s2)
                else (Throw (JsError "Error"), log (QueryRecord uri) s2)
            end
          else (Throw (JsError "Error"), s2)
      end
  end.
Proof.
  unfold getProfile, task_bind at 1.
  destruct (slingshotMiniDoc h s) as [[m|e] s1]; [|reflexivity].
  cbn zeta. unfold task_bind, cache_get_profile, read_profile.
  destruct (cache s1 (CACHE_PROFILE_KEY (did m))) as [[[m0|p] t]|] eqn:E; cbn [fst snd].
  - destruct (isAtUriString _); cbn [negb]; [|reflexivity].
    unfold xrpcSafe_getRecordByUri.
    destruct (getRecordByUri _) as [v|err].
    + destruct (validate_profile v); [|reflexivity].
      unfold cache_set, task_ret, log. cbn. now rewrite <- !app_assoc.
    + destruct (String.eqb err "RecordNotFound"); reflexivity.
  - reflexivity.
  - destruct (isAtUriString _); cbn [negb]; [|reflexivity].
    unfold xrpcSafe_getRecordByUri.
    destruct (getRecordByUri _) as [v|err].
    + destruct (validate_profile v); [|reflexivity].
      unfold cache_set, task_ret, log. cbn. now rewrite <- !app_assoc.
    + destruct (String.eqb err "RecordNotFound"); reflexivity.
Qed.

(** X24 ([ProfileUtils.getProfile]): [getProfile] never answers [undefined].  What it returns is the
    profile the cache now holds for the identity's did, or, when the
    service has no record, the default profile made from the handle,
    which is not stored. *)
Theorem getProfile_result (h : string) (s s1 : SocialState) (o : option NPMXProfile) :
  getProfile h s = (Ret o, s1) ->
  exists m p,
    o = Some p /\
    read_minidoc (cache s1) (CACHE_PROFILE_MINI_DOC h) = Some m /\
    (read_profile (cache s1) (CACHE_PROFILE_KEY (did m)) = Some p \/
     (p = missing_profile m /\
      getRecordByUri ("at://" ++ did m ++ "/dev.npmx.actor.profile/self")%string
      = RecordFailure "RecordNotFound" /\
      read_profile (cache s1) (CACHE_PROFILE_KEY (did m)) = None)).
Proof.
  rewrite getProfile_unfold.
  destruct (slingshotMiniDoc h s) as [[m|e] s0] eqn:Em; [|discriminate].
  apply slingshotMiniDoc_ret in Em as (Hm & _ & _).
  cbn zeta.
  destruct (read_profile (cache s0) (CACHE_PROFILE_KEY (did m))) as [p|] eqn:Ep.
  - intros [= <- <-]. exists m, p. cbn [cache log]. auto.
  - destruct (isAtUriString _); [|discriminate].
    destruct (getRecordByUri _) as [v|err] eqn:Er.
    + destruct (validate_profile v) as [r|e0]; [|discriminate].
      intros [= <- <-]. eexists m, _. split; [reflexivity|]. cbn [cache]. split.
      * unfold read_minidoc. rewrite cache_store_other; [exact Hm|].
        apply minidoc_key_neq_profile_key.
      * left. unfold read_profile. now rewrite cache_store_same.
    + destruct (String.eqb_spec err "RecordNotFound") as [->|_]; [|discriminate].
      intros [= <- <-]. exists m, (missing_profile m). cbn [cache log]. auto 6.
Qed.

(** X25 ([ProfileUtils.getProfile]): a failing [getProfile] stores no
    profile.  It fails with 400 or 404 from the mini doc step, with a
    plain [Error] when the record's address is not an AT URI or the
    service answers with an error other than [RecordNotFound], or with
    what the validation of the record threw. *)
Theorem getProfile_failure (h : string) (s s1 : SocialState) (e : Exn) :
  getProfile h s = (Throw e, s1) ->
  (forall k, k <> CACHE_PROFILE_MINI_DOC h -> cache s1 k = cache s k) /\
  (In e [H3Error 400 ("Invalid at-identifier: " ++ h)%string;
         H3Error 404 ("Failed to resolve MiniDoc for " ++ h)%string;
         JsError "Error"]
   \/ exists uri value,
        getRecordByUri uri = RecordSuccess value /\ validate_profile value = inr e).
Proof.
  rewrite getProfile_unfold.
  destruct (slingshotMiniDoc h s) as [[m|e0] s0] eqn:Em.
  - apply slingshotMiniDoc_ret in Em as (_ & Hk & _). cbn zeta.
    destruct (read_profile _ _); [discriminate|].
    destruct (isAtUriString _).
    + destruct (getRecordByUri _) as [v|err] eqn:Er.
      * destruct (validate_profile v) as [r|e1] eqn:Ev; [discriminate|].
        intros [= <- <-]. cbn [cache log]. split; [exact Hk|].
        right. eauto.
      * destruct (String.eqb err "RecordNotFound"); [discriminate|].
        intros [= <- <-]. cbn [cache log In]. auto 6.
    + intros [= <- <-]. cbn [cache log In]. auto 6.
  - apply slingshotMiniDoc_throw in Em as (Hc & He).
    intros [= <- <-]. split.
    + intros k _. now rewrite Hc.
    + left. cbn [In]. destruct He; auto.
Qed.

Lemma updateProfileCache_unfold (h : string) (p : NPMXProfile) (s : SocialState) :
  updateProfileCache h p s =
  match slingshotMiniDoc h s with
  | (Throw e, s1) => (Throw e, s1)
  | (Ret m, s1) =>
      (Ret (Some p),
       mkSocial (cache_store (cache s1) (CACHE_PROFILE_KEY (did m)) (CachedProfile p)
                             CACHE_MAX_AGE)
                (calls s1 ++ [CacheSet (CACHE_PROFILE_KEY (did m))]))
  end.
Proof.
  unfold updateProfileCache, task_bind at 1.
  destruct (slingshotMiniDoc h s) as [[m|e] s1]; reflexivity.
Qed.

(** X26 ([ProfileUtils.updateProfileCache], [getProfile]): a profile put in the cache by [updateProfileCache] is what
    [getProfile] returns next for the same handle, from two cache reads
    and without a query. *)
Theorem update_then_get (h : string) (p : NPMXProfile) (s s1 : SocialState)
    (o : option NPMXProfile) :
  updateProfileCache h p s = (Ret o, s1) ->
  o = Some p /\
  exists m,
    read_minidoc (cache s1) (CACHE_PROFILE_MINI_DOC h) = Some m /\
    getProfile h s1 =
    (Ret (Some p),
     mkSocial (cache s1)
              (calls s1 ++ [CacheGet (CACHE_PROFILE_MINI_DOC h);
                            CacheGet (CACHE_PROFILE_KEY (did m))])).
Proof.
  rewrite updateProfileCache_unfold.
  destruct (slingshotMiniDoc h s) as [[m|e] s0] eqn:Em; [|discriminate].
  apply slingshotMiniDoc_ret in Em as (Hm & _ & _).
  intros [= <- <-]. split; [reflexivity|]. exists m.
  set (s1 := mkSocial _ _).
  assert (Hm1 : read_minidoc (cache s1) (CACHE_PROFILE_MINI_DOC h) = Some m).
  { unfold s1, read_minidoc. cbn [cache].
    rewrite cache_store_other; [exact Hm|apply minidoc_key_neq_profile_key]. }
  split; [exact Hm1|].
  rewrite getProfile_unfold.
  pose proof (slingshotMiniDoc_run h s1) as R. cbn zeta in R.
  rewrite Hm1 in R. rewrite R. cbn zeta.
  assert (Hp : read_profile (cache (log (CacheGet (CACHE_PROFILE_MINI_DOC h)) s1))
                 (CACHE_PROFILE_KEY (did m)) = Some p).
  { unfold s1, read_profile. cbn [cache log]. now rewrite cache_store_same. }
  rewrite Hp. unfold log. cbn [cache calls]. now rewrite <- app_assoc.
Qed.

(** X27 (cache of [IdentityUtils] and [ProfileUtils]): mini docs and profiles stay under keys of their own kind, so a
    typed read misses only when the key is absent. *)
Theorem cache_stays_typed (s : SocialState) :
  cache_typed (cache s) ->
  (forall id, cache_typed (cache (snd (getMiniDoc id s)))) /\
  (forall h, cache_typed (cache (snd (getProfile h s)))) /\
  (forall h p, cache_typed (cache (snd (updateProfileCache h p s)))) /\
  (forall k, is_profile_key k = false ->
             (read_minidoc (cache s) k = None <-> cache s k = None)) /\
  (forall k, is_profile_key k = true ->
             (read_profile (cache s) k = None <-> cache s k = None)).
Proof.
  intros T. split; [|split; [|split; [|split]]].
  - intros id. pose proof (getMiniDoc_run id s) as R. cbn zeta in R.
    destruct (isAtIdentifierString id); [|now rewrite R].
    destruct (read_minidoc _ _); [now rewrite R|].
    destruct (resolveMiniDoc id); rewrite R; cbn [snd cache]; [|exact T].
    apply cache_typed_store_minidoc; [reflexivity|exact T].
  - intros h. rewrite getProfile_unfold.
    destruct (slingshotMiniDoc h s) as [[m|e] s0] eqn:Em.
    + apply slingshotMiniDoc_ret in Em as (_ & _ & T0). specialize (T0 T).
      cbn zeta. destruct (read_profile _ _); [exact T0|].
      destruct (isAtUriString _); [|exact T0].
      destruct (getRecordByUri _) as [v|err].
      * destruct (validate_profile v); [|exact T0]. cbn [snd cache].
        apply cache_typed_store_profile; [apply profile_key_is_profile|exact T0].
      * destruct (String.eqb err "RecordNotFound"); exact T0.
    + apply slingshotMiniDoc_throw in Em as (Hc & _). cbn [snd]. now rewrite Hc.
  - intros h p. rewrite updateProfileCache_unfold.
    destruct (slingshotMiniDoc h s) as [[m|e] s0] eqn:Em.
    + apply slingshotMiniDoc_ret in Em as (_ & _ & T0). specialize (T0 T).
      cbn [snd cache].
      apply cache_typed_store_profile; [apply profile_key_is_profile|exact T0].
    + apply slingshotMiniDoc_throw in Em as (Hc & _). cbn [snd]. now rewrite Hc.
  - intros k Hk. unfold read_minidoc.
    destruct (cache s k) as [[[m|p] t]|] eqn:E; split; try discriminate; try reflexivity.
    intros _. apply T in E. congruence.
  - intros k Hk. unfold read_profile.
    destruct (cache s k) as [[[m|p] t]|] eqn:E; split; try discriminate; try reflexivity.
    intros _. apply T in E. congruence.
Qed.

(** X28 (likes handler): the likes handler answers 400 before any cache access or query
    when the route has no identifier, an empty one, or one that is not
    an AT identifier. *)
Theorem likes_handler_rejects (o : option string) (s : SocialState) :
  match o with
  | Some i => truthy i && isAtIdentifierString i
  | None => false
  end = false ->
  exists msg, likes_handler o s = (Throw (H3Error 400 msg), s).
Proof.
  destruct o as [i|]; cbn [likes_handler]; [|intros _; eexists; reflexivity].
  destruct (truthy i); cbn [andb negb]; [|intros _; eexists; reflexivity].
  intros H. unfold task_bind. pose proof (getMiniDoc_run i s) as R. cbn zeta in R.
  rewrite H in R. rewrite R. eexists; reflexivity.
Qed.

(** X29 (likes handler): the likes the handler returns were asked for
    the mini doc that [getMiniDoc] gave for the route's identifier, a
    non-empty AT identifier; when they are asked for, that mini doc is
    in the cache under the identifier's key. *)
Theorem likes_handler_success (o : option string) (s s1 : SocialState) (l : LikesResult) :
  likes_handler o s = (Ret l, s1) ->
  exists i m s0,
    o = Some i /\ i <> ""%string /\ isAtIdentifierString i = true /\
    getMiniDoc i s = (Ret m, s0) /\
    read_minidoc (cache s0) (CACHE_KEY_IDENTITY i) = Some m /\
    getUserLikes m s0 = (Ret l, s1).
Proof.
  destruct o as [i|]; cbn [likes_handler]; [|discriminate].
  destruct (truthy i) eqn:Ti; cbn [negb]; [|discriminate].
  unfold task_bind. pose proof (getMiniDoc_run i s) as R. cbn zeta in R.
  destruct (isAtIdentifierString i) eqn:Ei; [|rewrite R; discriminate].
  assert (Hi : i <> ""%string) by (now apply truthy_true_iff).
  destruct (read_minidoc (cache s) (CACHE_KEY_IDENTITY i)) as [m|] eqn:E.
  - rewrite R. intros H. exists i, m, (log (CacheGet (CACHE_KEY_IDENTITY i)) s).
    split; [reflexivity|]. split; [exact Hi|].
    split; [first [reflexivity | exact Ei]|].
    split; [exact R|]. split; [exact E | exact H].
  - destruct (resolveMiniDoc i) as [m|e0]; rewrite R; [|discriminate].
    intros H. eexists i, m, _.
    split; [reflexivity|]. split; [exact Hi|].
    split; [first [reflexivity | exact Ei]|].
    split; [exact R|]. split; [|exact H].
    cbn [cache]. unfold read_minidoc. now rewrite cache_store_same.
Qed.

End SocialFacts.

Lemma getMiniDoc_second_call_witness :
  @getMiniDoc toy_services "alice.test" (snd (@getMiniDoc toy_services "alice.test" fresh))
  = (Ret alice,
     log (CacheGet (CACHE_KEY_IDENTITY "alice.test"))
         (snd (@getMiniDoc toy_services "alice.test" fresh))).
Proof.
  exact (@getMiniDoc_second_call toy_services "alice.test" fresh
           (snd (@getMiniDoc toy_services "alice.test" fresh)) alice eq_refl).
Defined.

Lemma getMiniDoc_failure_witness :
  cache (snd (@getMiniDoc toy_services "nobody.test" fresh)) = cache fresh.
Proof.
  exact (proj1 (@getMiniDoc_failure toy_services "nobody.test" fresh
                  (snd (@getMiniDoc toy_services "nobody.test" fresh))
                  (JsError "XrpcError") eq_refl)).
Defined.

Lemma getProfile_result_witness :
  exists m p,
    Some (missing_profile bob) = Some p /\
    read_minidoc (cache (snd (@getProfile toy_services "bob.test" fresh)))
                 (CACHE_PROFILE_MINI_DOC "bob.test") = Some m /\
    (read_profile (cache (snd (@getProfile toy_services "bob.test" fresh)))
                  (CACHE_PROFILE_KEY (did m)) = Some p \/
     (p = missing_profile m /\
      @getRecordByUri toy_services ("at://" ++ did m ++ "/dev.npmx.actor.profile/self")
      = RecordFailure "RecordNotFound" /\
      read_profile (cache (snd (@getProfile toy_services "bob.test" fresh)))
                   (CACHE_PROFILE_KEY (did m)) = None)).
Proof.
  exact (@getProfile_result toy_services "bob.test" fresh
           (snd (@getProfile toy_services "bob.test" fresh))
           (Some (missing_profile bob)) eq_refl).
Defined.

Lemma getProfile_failure_witness :
  (forall k, k <> CACHE_PROFILE_MINI_DOC "nobody.test" ->
             cache (snd (@getProfile toy_services "nobody.test" fresh)) k = cache fresh k)
  /\ (In (H3Error 404 "Failed to resolve MiniDoc for nobody.test")
         [H3Error 400 ("Invalid at-identifier: " ++ "nobody.test");
          H3Error 404 ("Failed to resolve MiniDoc for " ++ "nobody.test");
          JsError "Error"]
      \/ exists uri value,
           @getRecordByUri toy_services uri = RecordSuccess value
           /\ @validate_profile toy_services value
              = inr (H3Error 404 "Failed to resolve MiniDoc for nobody.test")).
Proof.
  exact (@getProfile_failure toy_services "nobody.test" fresh
           (snd (@getProfile toy_services "nobody.test" fresh))
           (H3Error 404 "Failed to resolve MiniDoc for nobody.test") eq_refl).
Defined.

Lemma update_then_get_witness :
  Some (mkProfile true "Al" None None) = Some (mkProfile true "Al" None None) /\
  exists m,
    read_minidoc
      (cache (snd (@updateProfileCache toy_services "alice.test"
                     (mkProfile true "Al" None None) fresh)))
      (CACHE_PROFILE_MINI_DOC "alice.test") = Some m /\
    @getProfile toy_services "alice.test"
      (snd (@updateProfileCache toy_services "alice.test"
              (mkProfile true "Al" None None) fresh))
    = (Ret (Some (mkProfile true "Al" None None)),
       mkSocial
         (cache (snd (@updateProfileCache toy_services "alice.test"
                        (mkProfile true "Al" None None) fresh)))
         (calls (snd (@updateProfileCache toy_services "alice.test"
                        (mkProfile true "Al" None None) fresh))
          ++ [CacheGet (CACHE_PROFILE_MINI_DOC "alice.test");
              CacheGet (CACHE_PROFILE_KEY (did m))])%list).
Proof.
  exact (@update_then_get toy_services "alice.test" (mkProfile true "Al" None None) fresh
           (snd (@updateProfileCache toy_services "alice.test"
                   (mkProfile true "Al" None None) fresh))
           (Some (mkProfile true "Al" None None)) eq_refl).
Defined.

Lemma cache_stays_typed_witness :
  cache_typed (cache (snd (@getProfile toy_services "alice.test" fresh))).
Proof.
  assert (H : cache_typed (cache fresh))
    by (intros k v ttl E; discriminate E).
  exact (proj1 (proj2 (@cache_stays_typed toy_services fresh H)) "alice.test").
Defined.

Lemma likes_handler_rejects_witness :
  exists msg,
    @likes_handler toy_services (Some "not an identifier") fresh
    = (Throw (H3Error 400 msg), fresh).
Proof.
  exact (@likes_handler_rejects toy_services (Some "not an identifier") fresh eq_refl).
Defined.

Lemma likes_handler_success_witness :
  exists i m s0,
    Some "alice.test" = Some i /\ i <> "" /\
    @isAtIdentifierString toy_services i = true /\
    @getMiniDoc toy_services i fresh = (Ret m, s0) /\
    read_minidoc (cache s0) (CACHE_KEY_IDENTITY i) = Some m /\
    @getUserLikes toy_services m s0
    = (Ret ["did:plc:alice"],
       snd (@likes_handler toy_services (Some "alice.test") fresh)).
Proof.
  exact (@likes_handler_success toy_services (Some "alice.test") fresh
           (snd (@likes_handler toy_services (Some "alice.test") fresh))
           ["did:plc:alice"] eq_refl).
Defined.
